(** * lagtraj: hydrostatic heights and pressures, Steffen interpolation

    A shallow embedding of the numerical kernels of
    [lagtraj/utils/era5_heights_pressures.py]:

    - [calculate_heights_and_pressures], the hydrostatic integration;
    - [steffen_3d], the monotonic cubic interpolation of Steffen (1990);
    - [era5_on_height_levels], which drives [steffen_3d] over a dataset;
    - [add_heights_and_pressures], which drives the hydrostatic
      integration over a dataset;
    - [era_5_normalise_longitude], [era5_mask], [add_auxiliary_variable]
      and [add_auxiliary_variables], on the variables of a dataset;
    - [calc_haver_dist], [calc_lat_lon_angle], [trace_back] and
      [cos_transition], the geometry of the trajectory.

    Arithmetic is exact.  The interpolation only adds, multiplies, divides
    and compares, so its numbers are the rationals [Q], on which every
    definition computes; so are those of the longitudes and of the mask.
    The hydrostatic integration takes logarithms, the geometry sines and
    cosines, the potential temperature a power, so their numbers are the
    reals [R].  Rounding, overflow, signed zeros and NaN inputs of the
    float64 implementation are outside the model. *)

From Stdlib Require Import Reals.
From Stdlib Require Import String.
From Stdlib Require Import List Bool Arith ZArith QArith Qabs Qminmax Qround Lia Lra Psatz.
Import ListNotations.

(** ** Exceptions and results *)

(** The exceptions the kernels can raise.  [NonMonotonic] is the
    [Exception("Non-montonic increase in input_levels")] of [steffen_3d],
    [HeightsNotFloat] the [Exception("Heights need to be floating numbers,
    rather than integers")] of [era5_on_height_levels]; [KeyError] is a
    variable missing from a dataset.  The kernels are compiled by numba's
    [njit], whose default error model raises [ZeroDivisionError] on a zero
    divisor; run without numba they would go on with [inf] or [nan], which
    exact arithmetic does not have. *)
Inductive exn : Type :=
| IndexError
| ZeroDivisionError
| UnboundLocalError
| KeyError
| NonMonotonic
| HeightsNotFloat.

Inductive result (A : Type) : Type :=
| Ok (a : A)
| Raise (e : exn).

Arguments Ok {A} a.
Arguments Raise {A} e.

Definition bind {A B : Type} (m : result A) (f : A -> result B) : result B :=
  match m with
  | Ok a => f a
  | Raise e => Raise e
  end.

Declare Scope result_scope.
Delimit Scope result_scope with result.
Notation "x <- m ;; k" := (bind m (fun x => k))
  (at level 61, m at next level, right associativity) : result_scope.
Notation "' p <- m ;; k" := (bind m (fun p => k))
  (at level 61, p pattern, m at next level, right associativity) : result_scope.
Open Scope result_scope.

(** [for x in xs: ...] collecting one value per iteration, stopping at the
    first exception. *)
Fixpoint mapM {A B : Type} (f : A -> result B) (xs : list A) : result (list B) :=
  match xs with
  | [] => Ok []
  | x :: xs' => y <- f x ;; ys <- mapM f xs' ;; Ok (y :: ys)
  end.

(** Indexing with a non-negative index: out of range raises [IndexError]. *)
Definition get {A : Type} (l : list A) (k : nat) : result A :=
  match nth_error l k with
  | Some x => Ok x
  | None => Raise IndexError
  end.

(** ** Steffen interpolation *)

Module Steffen.

Open Scope Q_scope.

(** An entry of [output_data]: a number, or [np.nan]. *)
Inductive cell : Type :=
| Val (q : Q)
| NaN.

Definition Qltb (x y : Q) : bool := negb (Qle_bool y x).

(** [x / y] on floats. *)
Definition div (x y : Q) : result Q :=
  if Qeq_bool y 0 then Raise ZeroDivisionError else Ok (x / y).

(** Python's builtin [min(x, y)]: [y] when [y < x], else [x]. *)
Definition min (x y : Q) : Q := if Qltb y x then y else x.

(** [np.copysign(m, x)] for a positive magnitude [m]. *)
Definition copysign (m x : Q) : Q := if Qltb x 0 then - m else m.

(** The sign of [x] as a number: [-1], [0] or [1]. *)
Definition sign (x : Q) : Q :=
  if Qltb x 0 then -1 else if Qltb 0 x then 1 else 0.

Section Column.

(** One column: [L k] is [input_levels[k, j, i]], [V k] is
    [input_data[k, j, i]] at fixed [j] and [i]. *)
Variables L V : list Q.

(** [k_max = input_data.shape[0]] *)
Definition k_max : nat := List.length V.
Definition k_max_minus : nat := (k_max - 1)%nat.

(** Lines 143-160: the derivative at the first point. *)
Definition first_point : result Q :=
  l1 <- get L 1 ;; l0 <- get L 0 ;;
  let delta_lower := l1 - l0 in
  l2 <- get L 2 ;;
  let delta_upper := l2 - l1 in
  if Qltb delta_lower 0 then Raise NonMonotonic
  else if Qltb delta_upper 0 then Raise NonMonotonic
  else
    v1 <- get V 1 ;; v0 <- get V 0 ;;
    slope_lower <- div (v1 - v0) delta_lower ;;
    v2 <- get V 2 ;;
    slope_upper <- div (v2 - v1) delta_upper ;;
    r <- div delta_lower (delta_lower + delta_upper) ;;
    s <- div (slope_upper * delta_lower) (delta_lower + delta_upper) ;;
    let weighted_slope := slope_lower * (1 + r) - s in
    if Qle_bool (weighted_slope * slope_lower) 0 then Ok 0
    else if Qltb (2 * Qabs slope_lower) (Qabs weighted_slope)
         then Ok (2 * slope_lower)
         else Ok weighted_slope.

(** Lines 164-187: the derivative at the intermediate point [k]. *)
Definition intermediate_point (k : nat) : result Q :=
  lk <- get L k ;; lkm <- get L (k - 1) ;;
  let delta_lower := lk - lkm in
  lkp <- get L (k + 1) ;;
  let delta_upper := lkp - lk in
  vk <- get V k ;; vkm <- get V (k - 1) ;;
  slope_lower <- div (vk - vkm) delta_lower ;;
  vkp <- get V (k + 1) ;;
  slope_upper <- div (vkp - vk) delta_upper ;;
  weighted_slope <-
    div (slope_lower * delta_upper + slope_upper * delta_lower)
        (delta_lower + delta_upper) ;;
  if Qle_bool (slope_lower * slope_upper) 0 then Ok 0
  else if Qltb (2 * Qabs slope_lower) (Qabs weighted_slope)
       then Ok (copysign 2 slope_lower * min (Qabs slope_lower) (Qabs slope_upper))
  else if Qltb (2 * Qabs slope_upper) (Qabs weighted_slope)
       then Ok (copysign 2 slope_lower * min (Qabs slope_lower) (Qabs slope_upper))
  else Ok weighted_slope.

(** Lines 190-211: the derivative at the last point. *)
Definition last_point : result Q :=
  la <- get L (k_max_minus - 1) ;; lb <- get L (k_max_minus - 2) ;;
  let delta_lower := la - lb in
  lc <- get L k_max_minus ;;
  let delta_upper := lc - la in
  va <- get V (k_max_minus - 1) ;; vb <- get V (k_max_minus - 2) ;;
  slope_lower <- div (va - vb) delta_lower ;;
  vc <- get V k_max_minus ;;
  slope_upper <- div (vc - va) delta_upper ;;
  r <- div delta_upper (delta_upper + delta_lower) ;;
  s <- div (slope_lower * delta_upper) (delta_upper + delta_lower) ;;
  let weighted_slope := slope_upper * (1 + r) - s in
  if Qle_bool (weighted_slope * slope_upper) 0 then Ok 0
  else if Qltb (2 * Qabs slope_upper) (Qabs weighted_slope)
       then Ok (2 * slope_upper)
       else Ok weighted_slope.

(** The column of [linear_slope]: entry [0] from the first point, entries
    [1 .. k_max - 2] from the loop over the intermediate points, entry
    [k_max - 1] from the last point.  The first point has read index [2],
    so [k_max >= 3] once it has returned and the three writes are to
    distinct entries. *)
Definition linear_slope : result (list Q) :=
  d_first <- first_point ;;
  d_mid <- mapM intermediate_point (seq 1 (k_max_minus - 1)) ;;
  d_last <- last_point ;;
  Ok (d_first :: d_mid ++ [d_last]).

(** Lines 216-219: [while k_temp < k_max and L[k_temp] < x: k_temp += 1].
    Every iteration increments [k_temp], so [k_max - k_temp] iterations
    always suffice: [advance] is called with that amount of [fuel]. *)
Fixpoint advance (x : Q) (k_temp fuel : nat) : result nat :=
  match fuel with
  | O => Ok k_temp
  | S fuel' =>
      if (k_temp <? k_max)%nat then
        l <- get L k_temp ;;
        if Qltb l x then advance x (S k_temp) fuel' else Ok k_temp
      else Ok k_temp
  end.

Variable lower_extrapolation_surface : Q.
Variable lower_extrapolation_with_gradient : bool.

(** Lines 220-251: the output value at coordinate [x], the cursor being
    at [k_temp]; [ds] is the column of [linear_slope]. *)
Definition output_point (ds : list Q) (x : Q) (k_temp : nat) : result cell :=
  if (0 <? k_temp)%nat && (k_temp <? k_max)%nat then
    let k_high := k_temp in
    let k_low := (k_high - 1)%nat in
    lh <- get L k_high ;; ll <- get L k_low ;;
    let delta := lh - ll in
    vh <- get V k_high ;; vl <- get V k_low ;;
    slope <- div (vh - vl) delta ;;
    dl <- get ds k_low ;; dh <- get ds k_high ;;
    a <- div (dl + dh - 2 * slope) (delta * delta) ;;
    b <- div (3 * slope - 2 * dl - dh) delta ;;
    let c := dl in
    let d := vl in
    let t := x - ll in
    let t_2 := t * t in
    let t_3 := t_2 * t in
    Ok (Val (a * t_3 + b * t_2 + c * t + d))
  else if (k_temp =? 0)%nat && Qle_bool lower_extrapolation_surface x then
    if lower_extrapolation_with_gradient then
      v0 <- get V 0 ;; d0 <- get ds 0 ;; l0 <- get L 0 ;;
      Ok (Val (v0 + d0 * (x - l0)))
    else
      v0 <- get V 0 ;; Ok (Val v0)
  else Ok NaN.

(** Lines 214-251: the loop over the output points.  The cursor [k_temp]
    is carried from one output point to the next and never moves back. *)
Fixpoint output_loop (ds : list Q) (outs : list Q) (k_temp : nat)
  : result (list cell) :=
  match outs with
  | [] => Ok []
  | x :: outs' =>
      k_temp' <- advance x k_temp (k_max - k_temp) ;;
      c <- output_point ds x k_temp' ;;
      cs <- output_loop ds outs' k_temp' ;;
      Ok (c :: cs)
  end.

(** Lines 142-251: the body of the loops over [i] and [j], on one column. *)
Definition steffen_column (output_level_array : list Q) : result (list cell) :=
  ds <- linear_slope ;;
  output_loop ds output_level_array 0.

End Column.

(** *** The quantities of the contract *)

(** Strictly ascending coordinates. *)
Fixpoint ascending (l : list Q) : Prop :=
  match l with
  | a :: (b :: _) as l' => a < b /\ ascending l'
  | _ => True
  end.

(** The width [L[k+1] - L[k]] of the interval above node [k], and the
    one-sided slope of the values over it. *)
Definition width (L : list Q) (k : nat) : Q := nth (S k) L 0 - nth k L 0.

Definition secant (L V : list Q) (k : nat) : Q :=
  (nth (S k) V 0 - nth k V 0) / width L k.

(** The weighted slope at an interior node [k]. *)
Definition weighted (L V : list Q) (k : nat) : Q :=
  (secant L V (k - 1) * width L k + secant L V k * width L (k - 1))
  / (width L (k - 1) + width L k).

(** A derivative [d] limited by the slope [s] of an adjacent interval:
    of the sign of [s] and at most twice as steep. *)
Definition limited (d s : Q) : Prop :=
  (0 <= d <= 2 * s) \/ (2 * s <= d <= 0).

(** The number of leading coordinates of [l] that are below [x]. *)
Fixpoint first_ge (x : Q) (l : list Q) : nat :=
  match l with
  | [] => 0
  | a :: l' => if Qltb a x then S (first_ge x l') else 0
  end.

(** The cursor [k_temp] at which output point [n] of [outs] is
    evaluated, the loop over [outs] being entered with the cursor at
    [k0]. *)
Fixpoint cursor (L outs : list Q) (k0 n : nat) : nat :=
  match outs with
  | [] => k0
  | x :: outs' =>
      let k' := (k0 + first_ge x (skipn k0 L))%nat in
      match n with
      | O => k'
      | S n' => cursor L outs' k' n'
      end
  end.

(** The cubic of an interval of width [delta] over which the values have
    slope [slope], from the value [vl] and derivative [dl] at its lower end
    and the derivative [dh] at its upper end, at offset [t] from the lower
    end. *)
Definition cubic (delta slope dl dh vl t : Q) : Q :=
  (dl + dh - 2 * slope) / (delta * delta) * (t * t * t)
  + (3 * slope - 2 * dl - dh) / delta * (t * t)
  + dl * t + vl.

(** No output coordinate before the [n]-th one is larger than it. *)
Definition no_larger_before (O : list Q) (n : nat) : Prop :=
  Forall (fun y => y <= nth n O 0) (firstn n O).

(** [y] lies between [u] and [v], whichever is the larger. *)
Definition between (u v y : Q) : Prop :=
  (u <= y <= v) \/ (v <= y <= u).

(** *** The properties of an output value

    [O] is the array of output coordinates, [out] the column of output
    values and [n] an index into both. *)

(** Boundary policy below the first level: an output coordinate there
    gives the missing value when it is below the boundary [les], and
    otherwise the first value ([flag] off) or the first value extrapolated
    with the derivative [d0] of the first node ([flag] on). *)
Definition lower_boundary_policy (L V : list Q) (les : Q) (flag : bool) (d0 : Q)
  (O : list Q) (out : list cell) (n : nat) : Prop :=
  let x := nth n O 0 in
  x < nth 0 L 0 ->
  (x < les -> nth_error out n = Some NaN)
  /\ (les <= x -> flag = false ->
      exists y, nth_error out n = Some (Val y) /\ y == nth 0 V 0)
  /\ (les <= x -> flag = true ->
      exists y, nth_error out n = Some (Val y)
                /\ y == nth 0 V 0 + d0 * (x - nth 0 L 0)).

(** Boundary policy above the last level: an output coordinate there
    gives the missing value. *)
Definition upper_boundary_policy (L V O : list Q) (out : list cell) (n : nat)
  : Prop :=
  nth (List.length V - 1) L 0 < nth n O 0 -> nth_error out n = Some NaN.

(** Node exactness: an output coordinate equal to the level of a node
    gives the value of that node. *)
Definition node_exact (L V O : list Q) (out : list cell) (n : nat) : Prop :=
  forall k, (k < List.length V)%nat -> nth n O 0 == nth k L 0 ->
    exists y, nth_error out n = Some (Val y) /\ y == nth k V 0.

(** Shape preservation: an output coordinate strictly between two
    adjacent levels gives a value between the values of the two nodes. *)
Definition no_overshoot (L V O : list Q) (out : list cell) (n : nat) : Prop :=
  forall k, (S k < List.length V)%nat ->
    nth k L 0 < nth n O 0 -> nth n O 0 < nth (S k) L 0 ->
    exists y, nth_error out n = Some (Val y)
              /\ between (nth k V 0) (nth (S k) V 0) y.

End Steffen.

(** ** Arrays *)

(** [A[k, j, i]] of a three-dimensional array is [nth i (nth j (nth k A))],
    [A[j, i]] of a two-dimensional one is [nth i (nth j A)].  Arrays are
    rectangular, as numpy's are. *)
Definition array2 (A : Type) : Type := list (list A).
Definition array3 (A : Type) : Type := list (list (list A)).

Definition get2 {A : Type} (a : array2 A) (j i : nat) : result A :=
  row <- get a j ;; get row i.

(** The column [A[:, j, i]]. *)
Definition column {A : Type} (a : array3 A) (j i : nat) : result (list A) :=
  mapM (fun plane => get2 plane j i) a.

(** [shape[1]] and [shape[2]] of an array with at least one level. *)
Definition shape1 {A : Type} (a : array3 A) : nat := List.length (hd [] a).
Definition shape2 {A : Type} (a : array3 A) : nat := List.length (hd [] (hd [] a)).

(** [for i in range(i_max): for j in range(j_max): ...], one computed
    column per horizontal point, in the order of the loops; the first
    exception ends the call. *)
Definition for_columns {B : Type} (i_max j_max : nat)
  (body : nat -> nat -> result B) : result (list (list B)) :=
  mapM (fun i => mapM (fun j => body j i) (seq 0 j_max)) (seq 0 i_max).

(** The array [out] of shape [(k_n, j_max, i_max)] with
    [out[k, j, i] = cols[i][j][k]]. *)
Definition of_columns {B : Type} (dflt : B) (k_n j_max i_max : nat)
  (cols : list (list (list B))) : array3 B :=
  map (fun k =>
         map (fun j =>
                map (fun i => nth k (nth j (nth i cols []) []) dflt)
                    (seq 0 i_max))
             (seq 0 j_max))
      (seq 0 k_n).

(** ** [steffen_3d] *)

(** Lines 121-252.  [input_levels] and [lower_extrapolation_surface] have
    the shape of [input_data] (its last two dimensions for the latter), as
    they have at every call site. *)
Definition steffen_3d (input_data input_levels : array3 Q)
  (output_level_array : list Q) (lower_extrapolation_surface : array2 Q)
  (lower_extrapolation_with_gradient : bool) : result (array3 Steffen.cell) :=
  let j_max := shape1 input_data in
  let i_max := shape2 input_data in
  let k_max_output := List.length output_level_array in
  cols <- for_columns i_max j_max (fun j i =>
            V <- column input_data j i ;;
            L <- column input_levels j i ;;
            les <- get2 lower_extrapolation_surface j i ;;
            Steffen.steffen_column L V les lower_extrapolation_with_gradient
              output_level_array) ;;
  Ok (of_columns Steffen.NaN k_max_output j_max i_max cols).

(** ** Hydrostatic integration *)

Module Hydrostatic.

Open Scope R_scope.

(** ECMWF constants (lines 44-46). *)
Definition rd : R := 287.06.
Definition rg : R := 9.80665.
Definition rv_over_rd_minus_one : R := 0.609133.

(** A height: a real number, or [None] for a float that is not one
    ([inf] or [nan], which [np.log] returns at a non-positive argument
    and which every later sum keeps). *)
Definition height : Type := option R.

Definition div (x y : R) : result R :=
  if Req_dec_T y 0 then Raise ZeroDivisionError else Ok (x / y).

(** [np.log] *)
Definition log (x : R) : height :=
  if Rlt_dec 0 x then Some (ln x) else None.

(** [h + (s * l)] for a height [h], a finite factor [s] and a logarithm [l]. *)
Definition add_scaled (h : height) (s : R) (l : height) : height :=
  match h, l with
  | Some h', Some l' => Some (h' + s * l')
  | _, _ => None
  end.

(** The four result arrays, restricted to one column. *)
Record profile : Type := mkProfile
  { height_h : list height;
    height_f : list height;
    p_h : list R;
    p_f : list R }.

(** The scalar temporaries carried from one level to the next;
    [tvrd_over_rg] is unbound until the loop body has run once. *)
Record carry : Type := mkCarry
  { p_h_k_plus : R;
    height_h_k_plus : height;
    tvrd_over_rg : option R }.

Section Column.

Variables p_s z_s : R.
Variables a_coeffs b_coeffs : list R.

(** [t k] is [t_field[k, j, i]], [q k] is [q_field[k, j, i]]. *)
Variables t q : list R.

(** [k_max = t_field.shape[0]] *)
Definition k_max : nat := List.length t.

Definition rd_over_rg : R := rd / rg.

(** Lines 88-110: the body of the loop over [k].  The entries written at
    level [k] are put in front of the ones written before, [k] running
    downwards. *)
Definition level (k : nat) (st : carry * profile) : result (carry * profile) :=
  let (c, out) := st in
  a <- get a_coeffs k ;; b <- get b_coeffs k ;;
  let p_h_k := a + (b * p_s) in
  let p_f_k_plus := 0.5 * (p_h_k + p_h_k_plus c) in
  tk <- get t k ;; qk <- get q k ;;
  let tvrd := rd_over_rg * tk * (1.0 + rv_over_rd_minus_one * qk) in
  r_f <- div (p_h_k_plus c) p_f_k_plus ;;
  let height_f_k_plus := add_scaled (height_h_k_plus c) tvrd (log r_f) in
  r_h <- div (p_h_k_plus c) p_h_k ;;
  let height_h_k := add_scaled (height_h_k_plus c) tvrd (log r_h) in
  Ok (mkCarry p_h_k height_h_k (Some tvrd),
      mkProfile (height_h_k :: height_h out)
                (height_f_k_plus :: height_f out)
                (p_h_k :: p_h out)
                (p_f_k_plus :: p_f out)).

(** [for k in range(k_max - 2, -1, -1)] *)
Fixpoint levels (ks : list nat) (st : carry * profile) : result (carry * profile) :=
  match ks with
  | [] => Ok st
  | k :: ks' => st' <- level k st ;; levels ks' st'
  end.

(** Lines 81-115: the body of the loops over [i] and [j], on one column.
    With no level at all, index [k_max - 1 = -1] is out of range; with a
    single level the loop body never runs and line 114 reads
    [tvrd_over_rg] unbound. *)
Definition hydrostatic_column : result profile :=
  match k_max with
  | O => Raise IndexError
  | S _ =>
      let init := (mkCarry p_s (Some z_s) None, mkProfile [Some z_s] [] [p_s] []) in
      '(c, out) <- levels (rev (seq 0 (k_max - 1))) init ;;
      let p_f_k_plus := 0.5 * p_h_k_plus c in
      match tvrd_over_rg c with
      | None => Raise UnboundLocalError
      | Some tvrd =>
          r <- div (p_h_k_plus c) p_f_k_plus ;;
          Ok (mkProfile (height_h out)
                        (add_scaled (height_h_k_plus c) tvrd (log r) :: height_f out)
                        (p_h out)
                        (p_f_k_plus :: p_f out))
      end
  end.

End Column.

(** *** The quantities of the contract *)

(** The half-level pressure at level [k] of a column of [K] levels with
    surface pressure [p]: [a[k] + b[k] * p] above the surface, [p] at the
    surface level [K - 1]; and the factor of [p] in it. *)
Definition half_pressure (a b : list R) (K : nat) (p : R) (k : nat) : R :=
  if (k <? K - 1)%nat then nth k a 0 + nth k b 0 * p else p.

Definition half_factor (b : list R) (K : nat) (k : nat) : R :=
  if (k <? K - 1)%nat then nth k b 0 else 1.

(** Values that do not decrease from the first entry (the top level) to
    the last (the surface level). *)
Fixpoint nondecreasing (l : list R) : Prop :=
  match l with
  | x :: (y :: _) as l' => x <= y /\ nondecreasing l'
  | _ => True
  end.

End Hydrostatic.

(** ** [calculate_heights_and_pressures] *)

(** Lines 65-117.  The result is [(height_h, height_f, p_h, p_f)]. *)
Definition calculate_heights_and_pressures (p_surf height_surf : array2 R)
  (a_coeffs b_coeffs : list R) (t_field q_field : array3 R)
  : result (array3 Hydrostatic.height * array3 Hydrostatic.height
            * array3 R * array3 R) :=
  let k_max := List.length t_field in
  let j_max := shape1 t_field in
  let i_max := shape2 t_field in
  cols <- for_columns i_max j_max (fun j i =>
            p_s <- get2 p_surf j i ;;
            z_s <- get2 height_surf j i ;;
            t <- column t_field j i ;;
            q <- column q_field j i ;;
            Hydrostatic.hydrostatic_column p_s z_s a_coeffs b_coeffs t q) ;;
  let arr {B : Type} (dflt : B) (f : Hydrostatic.profile -> list B) :=
    of_columns dflt k_max j_max i_max (map (map f) cols) in
  Ok (arr None Hydrostatic.height_h, arr None Hydrostatic.height_f,
      arr 0%R Hydrostatic.p_h, arr 0%R Hydrostatic.p_f).

(** ** [era5_on_height_levels] *)

Module Era5.

Open Scope Q_scope.

(** An element of [heights_array]: an integer ([numbers.Integral]: a
    Python or numpy integer) or a float. *)
Inductive number : Type :=
| Int (z : Z)
| Float (x : Q).

Definition is_integral (n : number) : bool :=
  match n with
  | Int _ => true
  | Float _ => false
  end.

Definition to_float (n : number) : Q :=
  match n with
  | Int z => inject_Z z
  | Float x => x
  end.

(** The variables of [ds_pressure_levels] that the remapping reads:
    [on_levels] are those of dimensions [(time, level, latitude,
    longitude)], as [values[time][level][latitude][longitude]];
    [no_level] are those of dimensions [(time, latitude, longitude)],
    among them ["lsm"].  Coordinates and attributes are left out. *)
Record dataset : Type := mkDataset
  { on_levels : list (string * list (array3 Q));
    no_level : list (string * list (array2 Q)) }.

(** [ds_height_levels]: the coordinate [lev], the variables copied as
    they are, and the remapped ones, [remapped[time]] holding
    [ds_height_levels[variable][time]] for every remapped [variable]. *)
Record height_dataset : Type := mkHeightDataset
  { lev : list number;
    copied : list (string * list (array2 Q));
    remapped : list (list (string * array3 Steffen.cell)) }.

Fixpoint lookup {A : Type} (name : string) (vars : list (string * A)) : result A :=
  match vars with
  | [] => Raise KeyError
  | (n, v) :: vars' => if String.eqb n name then Ok v else lookup name vars'
  end.

Definition is_in (name : string) (names : list string) : bool :=
  existsb (String.eqb name) names.

(** [a[-1]] *)
Definition get_last {A : Type} (a : list A) : result A :=
  match a with
  | [] => Raise IndexError
  | _ => get a (List.length a - 1)
  end.

(** Lines 336-340, at one horizontal point. *)
Definition sea_mask (height_h_surf lsm : Q) : bool :=
  Steffen.Qltb height_h_surf 5.0 && Steffen.Qltb 1.0e-6 height_h_surf
  && Steffen.Qltb lsm 0.2.

(** Lines 341-343, at one horizontal point: [xr.where(sea_mask, -1.0e-6,
    height_h)]. *)
Definition lower_extrapolation (height_h_surf lsm : Q) : Q :=
  if sea_mask height_h_surf lsm then - 1.0e-6 else height_h_surf.

(** An elementwise operation on two arrays of one shape. *)
Definition map2 {A B C : Type} (f : A -> B -> C) (a : array2 A) (b : array2 B)
  : array2 C :=
  map (fun rows => map (fun xy => f (fst xy) (snd xy))
                       (combine (fst rows) (snd rows)))
      (combine a b).

Definition lower_extrapolation_with_mask (height_h_surf lsm : array2 Q) : array2 Q :=
  map2 lower_extrapolation height_h_surf lsm.

(** Lines 334-367: the body of the loop over [time_index]. *)
Definition remap_time (ds : dataset) (heights : list Q) (time_index : nat)
  : result (list (string * array3 Steffen.cell)) :=
  height_f <- lookup "height_f"%string (on_levels ds) ;;
  height_f_t <- get height_f time_index ;;
  let h_f_inverse := rev height_f_t in
  height_h <- lookup "height_h"%string (on_levels ds) ;;
  height_h_t <- get height_h time_index ;;
  let h_h_inverse := rev height_h_t in
  height_h_surf <- get_last height_h_t ;;
  lsm <- lookup "lsm"%string (no_level ds) ;;
  lsm_t <- get lsm time_index ;;
  let lower := lower_extrapolation_with_mask height_h_surf lsm_t in
  mapM (fun var : string * list (array3 Q) =>
          let (variable, values) := var in
          let h_inverse :=
            if is_in variable ["height_h"; "p_h"]%string
            then h_h_inverse else h_f_inverse in
          values_t <- get values time_index ;;
          let field_p_levels := rev values_t in
          out <- steffen_3d field_p_levels h_inverse heights lower
                   (is_in variable ["p_h"; "p_f"; "height_h"; "height_f"]%string) ;;
          Ok (variable, out))
       (on_levels ds).

(** Lines 296-368. *)
Definition era5_on_height_levels (ds_pressure_levels : dataset)
  (heights_array : list number) : result height_dataset :=
  h0 <- get heights_array 0 ;;
  if is_integral h0 then Raise HeightsNotFloat
  else
    height_f <- lookup "height_f"%string (on_levels ds_pressure_levels) ;;
    let time_steps := List.length height_f in
    out <- mapM (remap_time ds_pressure_levels (map to_float heights_array))
             (seq 0 time_steps) ;;
    Ok (mkHeightDataset heights_array (no_level ds_pressure_levels) out).

End Era5.

(** ** Quantities of the hydrostatic profile *)

Module Layers.

Import Hydrostatic.
Open Scope R_scope.

(** The factor [tvrd_over_rg] of the layer above half level [k + 1]:
    the gas constant over gravity times the virtual temperature of level
    [k]. *)
Definition scale (t q : list R) (k : nat) : R :=
  rd / rg * nth k t 0 * (1.0 + rv_over_rd_minus_one * nth k q 0).

End Layers.

(** ** [add_heights_and_pressures] *)

Module Era5Levels.

Open Scope R_scope.

(** The variables of [ds_from_era5] that are read, each with its values
    by time: ["sp"] and ["z"] of dimensions [(time, latitude, longitude)],
    ["t"] and ["q"] of dimensions [(time, level, latitude, longitude)]. *)
Record dataset : Type := mkDataset
  { sp : list (array2 R);
    z : list (array2 R);
    t : list (array3 R);
    q : list (array3 R) }.

(** Lines 255-293.  The result holds, by time, the arrays written to
    ["height_h"], ["height_f"], ["p_h"] and ["p_f"].  [a_coeffs_137] and
    [b_coeffs_137] are the columns of the table of the 137 levels, which
    is read from a file. *)
Definition add_heights_and_pressures (a_coeffs_137 b_coeffs_137 : list R)
  (ds_from_era5 : dataset)
  : result (list (array3 Hydrostatic.height * array3 Hydrostatic.height
                  * array3 R * array3 R)) :=
  let len_temp := List.length (t ds_from_era5) in
  mapM (fun time_index =>
          p_surf <- get (sp ds_from_era5) time_index ;;
          z_t <- get (z ds_from_era5) time_index ;;
          let height_surf := map (map (fun g => g / Hydrostatic.rg)) z_t in
          t_field <- get (t ds_from_era5) time_index ;;
          q_field <- get (q ds_from_era5) time_index ;;
          calculate_heights_and_pressures p_surf height_surf
            a_coeffs_137 b_coeffs_137 t_field q_field)
       (seq 0 len_temp).

End Era5Levels.

(** ** [era_5_normalise_longitude] *)

Module Longitude.

Open Scope Q_scope.

(** [x % m] on floats, for a positive [m]: the remainder of the floored
    division. *)
Definition modulo (x m : Q) : Q := x - m * inject_Z (Qfloor (x / m)).

(** [np.rint]: the nearest integer, a tie going to the even one. *)
Definition rint (x : Q) : Z :=
  let f := Qfloor x in
  let r := x - inject_Z f in
  if Steffen.Qltb r (1 # 2) then f
  else if Steffen.Qltb (1 # 2) r then (f + 1)%Z
  else if Z.even f then f else (f + 1)%Z.

(** [np.round(x, decimals)]: [rint(x * 10**decimals) / 10**decimals]. *)
Definition round (x : Q) (decimals : nat) : Q :=
  inject_Z (rint (x * inject_Z (10 ^ Z.of_nat decimals)))
  / inject_Z (10 ^ Z.of_nat decimals).

(** Line 403, at one longitude. *)
Definition normalise (lon : Q) : Q := round (modulo lon 360.0) 4.

(** Lines 394-406: the new values of the coordinate ["longitude"]; its
    attributes and the rest of the dataset are kept. *)
Definition era_5_normalise_longitude (longitude : list Q) : list Q :=
  map normalise longitude.

End Longitude.


(** ** Positions on the sphere: [calc_haver_dist], [calc_lat_lon_angle],
    [trace_back] *)

Module Geometry.

Open Scope R_scope.

Definition r_earth : R := 6371000.0.
Definition pi : R := PI.

(** [np.arctan2(y, x)]: the angle of the point [(x, y)], in [(-pi, pi]].
    A zero [y] is the float [+0.0]. *)
Definition arctan2 (y x : R) : R :=
  if Rlt_dec 0 x then atan (y / x)
  else if Rlt_dec x 0 then
    if Rle_dec 0 y then atan (y / x) + PI else atan (y / x) - PI
  else if Rlt_dec 0 y then PI / 2
  else if Rlt_dec y 0 then - (PI / 2)
  else 0.

(** [x % m] on floats, for a positive [m]. *)
Definition modulo (x m : R) : R := x - m * IZR (Int_part (x / m)).

(** Line 493. *)
Definition haversine (lat1 lon1 lat2 lon2 : R) : R :=
  let dlon := lon2 - lon1 in
  let dlat := lat2 - lat1 in
  sin (dlat / 2) ^ 2 + cos lat1 * cos lat2 * sin (dlon / 2) ^ 2.

(** Lines 490-497. *)
Definition calc_haver_dist (lat1 lon1 lat2 lon2 : R) : R :=
  let haver := haversine lat1 lon1 lat2 lon2 in
  let arc_dist := 2 * arctan2 (sqrt haver) (sqrt (1.0 - haver)) in
  let haver_dist := r_earth * arc_dist in
  haver_dist.

(** Lines 500-507. *)
Definition calc_lat_lon_angle (lat1 lon1 lat2 lon2 : R) : R :=
  let dlon := lon2 - lon1 in
  let lat_lon_angle :=
    arctan2 (cos lat1 * sin lat2 - sin lat1 * cos lat2 * cos dlon)
            (sin dlon * cos lat2) in
  lat_lon_angle.

(** [Exception("Expecting positive dt in back-tracing")]. *)
Inductive trace_error : Type :=
| ExpectingPositiveDt.

(** Line 694: the argument of [np.arcsin]. *)
Definition previous_sine (lat_rad dist theta : R) : R :=
  sin lat_rad * cos (dist / r_earth)
  + cos lat_rad * sin (dist / r_earth) * cos theta.

(** Lines 685-704. *)
Definition trace_back (lat lon u v dt : R) : trace_error + R * R :=
  if Rlt_dec dt 0.0 then inl ExpectingPositiveDt
  else
    let theta := modulo (arctan2 v u) (2 * pi) - (pi / 2) in
    let dist := sqrt (u ^ 2 + v ^ 2) * dt in
    let lat_rad := lat * (2 * pi / 360.0) in
    let lon_rad := lon * (2 * pi / 360.0) in
    let previous_lat_rad := asin (previous_sine lat_rad dist theta) in
    let previous_lon_rad :=
      lon_rad
      + arctan2 (sin theta * sin (dist / r_earth) * cos lat_rad)
                (cos (dist / r_earth) - sin lat_rad * sin previous_lat_rad) in
    let previous_lat := previous_lat_rad * (360.0 / (2 * pi)) in
    let previous_lon := previous_lon_rad * (360.0 / (2 * pi)) in
    inr (previous_lat, previous_lon).

End Geometry.

(** ** [cos_transition] *)

Module Transition.

Open Scope R_scope.

(** A comparison of floats used as a number: [True] is 1, [False] is 0. *)
Definition truth {P Q : Prop} (b : {P} + {Q}) : R := if b then 1 else 0.

(** Lines 712-715, for a finite [normalised_input]. *)
Definition weight_factor (normalised_input : R) : R :=
  1.0 * truth (Rlt_dec normalised_input 0.0)
  + (0.5 + 0.5 * cos (normalised_input * Geometry.pi))
    * (1.0 - truth (Rlt_dec normalised_input 0.0)
       - truth (Rgt_dec normalised_input 1.0)).

(** Lines 707-716, at one element of the array [absolute_input].  With
    [transition_end = transition_start] the division of the array gives
    [inf] or [nan], and the weight is [nan], here [None]: the cosine of
    [inf] is [nan], and [nan] times zero is [nan]. *)
Definition cos_transition (absolute_input transition_start transition_end : R)
  : option R :=
  if Req_dec_T (transition_end - transition_start) 0 then None
  else
    let normalised_input :=
      (absolute_input - transition_start)
      / (transition_end - transition_start) in
    Some (weight_factor normalised_input).

(** Lines 721-725 of [weighted_velocity]: the factor at one full-level
    pressure. *)
Definition pres_cutoff_start : R := 60000.0.
Definition pres_cutoff_end : R := 50000.0.
Definition height_factor (p_f : R) : option R :=
  cos_transition p_f pres_cutoff_start pres_cutoff_end.

End Transition.

(** ** [era5_mask] *)

Module Mask.

Open Scope Q_scope.

Definition rg : Q := 9.80665.

(** Line 440, at one horizontal point. *)
Definition ocean (z lsm : Q) : bool :=
  Steffen.Qltb z (5.0 * rg) && Steffen.Qltb lsm 0.2.

(** Lines 436-441.  [dictionary] maps option names to strings; ["z"] and
    ["lsm"] are variables of dimensions [(time, latitude, longitude)].  An
    option ["mask"] other than ["ocean"] leaves [mask] unbound at the
    [return]. *)
Definition era5_mask (ds_to_mask : Era5.dataset)
  (dictionary : list (string * string)) : result (list (array2 bool)) :=
  choice <- Era5.lookup "mask"%string dictionary ;;
  if String.eqb choice "ocean" then
    z <- Era5.lookup "z"%string (Era5.no_level ds_to_mask) ;;
    lsm <- Era5.lookup "lsm"%string (Era5.no_level ds_to_mask) ;;
    Ok (map (fun zl => Era5.map2 ocean (fst zl) (snd zl)) (combine z lsm))
  else Raise UnboundLocalError.

End Mask.

(** ** [add_auxiliary_variable], [add_auxiliary_variables] *)

Module Auxiliary.

Open Scope R_scope.

Definition p_ref : R := 1.0e5.
Definition cp : R := 1004.0.
Definition rd_over_cp : R := Hydrostatic.rd / cp.
Definition p_ref_inv : R := 1.0 / p_ref.

(** An element of a variable: a float, [None] for [nan]. *)
Definition cell : Type := option R.

Definition array4 (A : Type) : Type := list (array3 A).

(** The variables of the dataset, by name, each of dimensions
    [(time, level, latitude, longitude)]; attributes are left out. *)
Definition dataset : Type := list (string * array4 cell).

(** What a call can raise: [KeyError] for a missing variable, or
    [NotImplementedError("Variable not implemented")]. *)
Inductive failure : Type :=
| Builtin (e : exn)
| NotImplementedError.

(** [x ** y] for a positive exponent [y]: [nan] for a negative [x]. *)
Definition power (x y : R) : cell :=
  if Rlt_dec 0 x then Some (Rpower x y)
  else if Rlt_dec x 0 then None
  else Some 0.

(** Lines 378-380, at one element. *)
Definition theta (t p_f : cell) : cell :=
  match t, p_f with
  | Some t, Some p_f =>
      match power (p_f * p_ref_inv) rd_over_cp with
      | Some w => Some (t * w)
      | None => None
      end
  | _, _ => None
  end.

(** An elementwise operation on two variables of one dataset. *)
Definition zip_with {A B C : Type} (f : A -> B -> C) (a : list A) (b : list B)
  : list C :=
  map (fun xy => f (fst xy) (snd xy)) (combine a b).

Definition map4 (f : cell -> cell -> cell) (a b : array4 cell) : array4 cell :=
  zip_with (zip_with (zip_with (zip_with f))) a b.

(** [ds[name] = values]: the variable is replaced, or added. *)
Fixpoint assign (name : string) (values : array4 cell) (ds : dataset)
  : dataset :=
  match ds with
  | [] => [(name, values)]
  | (n, v) :: ds' =>
      if String.eqb n name then (n, values) :: ds'
      else (n, v) :: assign name values ds'
  end.

(** Lines 371-384.  The dataset is changed in place: the result is the
    dataset after the call, and what the call raised, if it did. *)
Definition add_auxiliary_variable (ds_level_2 : dataset) (var : string)
  : dataset * option failure :=
  if String.eqb var "theta" then
    match Era5.lookup "t"%string ds_level_2 with
    | Raise e => (ds_level_2, Some (Builtin e))
    | Ok t =>
        match Era5.lookup "p_f"%string ds_level_2 with
        | Raise e => (ds_level_2, Some (Builtin e))
        | Ok p_f => (assign var (map4 theta t p_f) ds_level_2, None)
        end
    end
  else (ds_level_2, Some NotImplementedError).

(** Lines 387-391. *)
Fixpoint add_auxiliary_variables (ds_level_1 : dataset)
  (list_of_vars : list string) : dataset * option failure :=
  match list_of_vars with
  | [] => (ds_level_1, None)
  | var :: rest =>
      match add_auxiliary_variable ds_level_1 var with
      | (ds, None) => add_auxiliary_variables ds rest
      | (ds, Some e) => (ds, Some e)
      end
  end.

End Auxiliary.
(** * Properties *)

(** ** Indexing and iteration *)

Lemma Ok_inj {A : Type} (a b : A) : Ok a = Ok b -> a = b.
Proof. intros H. congruence. Qed.

Lemma get_nth {A : Type} (l : list A) (k : nat) (d : A) :
  (k < List.length l)%nat -> get l k = Ok (nth k l d).
Proof.
  intros H. unfold get.
  rewrite (nth_error_nth' l d H). reflexivity.
Qed.

Lemma get_Ok {A : Type} (l : list A) (k : nat) (x : A) :
  get l k = Ok x -> nth_error l k = Some x.
Proof.
  unfold get. destruct (nth_error l k); congruence.
Qed.

Lemma mapM_pure {A B : Type} (f : A -> result B) (g : A -> B) (xs : list A) :
  (forall x, In x xs -> f x = Ok (g x)) -> mapM f xs = Ok (map g xs).
Proof.
  induction xs as [|x xs IH]; intros H; simpl.
  - reflexivity.
  - rewrite (H x (or_introl eq_refl)). simpl.
    rewrite IH by (intros y Hy; apply H; right; exact Hy).
    reflexivity.
Qed.

Lemma mapM_length {A B : Type} (f : A -> result B) (xs : list A) (ys : list B) :
  mapM f xs = Ok ys -> List.length ys = List.length xs.
Proof.
  revert ys. induction xs as [|x xs IH]; simpl; intros ys H.
  - inversion H. reflexivity.
  - destruct (f x) as [y|e]; simpl in H; [|discriminate].
    destruct (mapM f xs) as [ys'|e]; simpl in H; [|discriminate].
    inversion H. simpl. f_equal. apply IH. reflexivity.
Qed.

Lemma mapM_nth {A B : Type} (f : A -> result B) (xs : list A) (ys : list B)
  (n : nat) (x : A) :
  mapM f xs = Ok ys -> nth_error xs n = Some x ->
  exists y, f x = Ok y /\ nth_error ys n = Some y.
Proof.
  revert ys n. induction xs as [|x0 xs IH]; simpl; intros ys n H Hn.
  - destruct n; discriminate.
  - destruct (f x0) as [y0|e] eqn:E0; simpl in H; [|discriminate].
    destruct (mapM f xs) as [ys'|e] eqn:E; simpl in H; [|discriminate].
    inversion H; subst ys. destruct n as [|n]; simpl in *.
    + inversion Hn; subst x0. exists y0. split; [exact E0 | reflexivity].
    + apply (IH ys' n eq_refl Hn).
Qed.

(** ** Steffen interpolation: comparisons and division *)

Module SteffenFacts.

Import Steffen.
Open Scope Q_scope.

Lemma Qltb_spec (x y : Q) : reflect (x < y) (Qltb x y).
Proof.
  unfold Qltb. destruct (Qle_bool y x) eqn:E; simpl; constructor.
  - apply Qle_bool_iff in E. lra.
  - apply Qnot_le_lt. intros C. apply Qle_bool_iff in C. congruence.
Qed.

Lemma Qleb_spec (x y : Q) : reflect (x <= y) (Qle_bool x y).
Proof.
  destruct (Qle_bool x y) eqn:E; constructor.
  - apply Qle_bool_iff. exact E.
  - intros C. apply Qle_bool_iff in C. congruence.
Qed.

Lemma div_nonzero (x y : Q) : ~ y == 0 -> div x y = Ok (x / y).
Proof.
  intros H. unfold div. destruct (Qeq_bool y 0) eqn:E; [|reflexivity].
  apply Qeq_bool_iff in E. contradiction.
Qed.

Lemma div_zero (x y : Q) : y == 0 -> div x y = Raise ZeroDivisionError.
Proof.
  intros H. unfold div. apply Qeq_bool_iff in H. rewrite H. reflexivity.
Qed.

End SteffenFacts.

(** ** Steffen interpolation: the derivative estimates *)

Module SlopeFacts.

Import Steffen SteffenFacts.
Open Scope Q_scope.

Lemma ascending_step (L : list Q) (k : nat) :
  ascending L -> (S k < List.length L)%nat -> nth k L 0 < nth (S k) L 0.
Proof.
  revert k. induction L as [|a L IH]; intros k HA Hk; simpl in Hk; [lia|].
  destruct L as [|b L]; simpl in Hk; [lia|].
  destruct HA as [Hab HA].
  destruct k as [|k]; [exact Hab|].
  apply (IH k HA). simpl. lia.
Qed.

Lemma ascending_lt (L : list Q) (i j : nat) :
  ascending L -> (i < j)%nat -> (j < List.length L)%nat ->
  nth i L 0 < nth j L 0.
Proof.
  intros HA Hij Hj. induction j as [|j IH]; [lia|].
  assert (nth j L 0 < nth (S j) L 0) as Hs by (apply ascending_step; assumption).
  destruct (Nat.eq_dec i j) as [->|Hne]; [exact Hs|].
  assert (nth i L 0 < nth j L 0) by (apply IH; lia). lra.
Qed.

Lemma width_pos (L : list Q) (k : nat) :
  ascending L -> (S k < List.length L)%nat -> 0 < width L k.
Proof.
  intros HA Hk. unfold width.
  pose proof (ascending_step L k HA Hk). lra.
Qed.

Section Column.

Variables L V : list Q.
Hypothesis L_ascending : ascending L.
Hypothesis same_shape : List.length L = List.length V.

Let K := List.length V.

Lemma getL (k : nat) : (k < K)%nat -> get L k = Ok (nth k L 0).
Proof. intros H. apply get_nth. rewrite same_shape. exact H. Qed.

Lemma getV (k : nat) : (k < K)%nat -> get V k = Ok (nth k V 0).
Proof. intros H. apply get_nth. exact H. Qed.

Lemma width_nonzero (k : nat) : (S k < K)%nat -> ~ width L k == 0.
Proof.
  intros H. assert (0 < width L k) by (apply width_pos; [assumption | rewrite same_shape; exact H]).
  lra.
Qed.

Lemma width2_nonzero (k : nat) :
  (S (S k) < K)%nat -> ~ width L k + width L (S k) == 0.
Proof.
  intros H.
  assert (0 < width L k) by (apply width_pos; [assumption | rewrite same_shape; unfold K in H; lia]).
  assert (0 < width L (S k)) by (apply width_pos; [assumption | rewrite same_shape; exact H]).
  lra.
Qed.

(** The intermediate point [k] computes on the slopes and widths of the
    two intervals next to it. *)
Lemma intermediate_point_eq (k : nat) :
  (1 <= k)%nat -> (S k < K)%nat ->
  intermediate_point L V k =
  Ok (let slope_lower := secant L V (k - 1) in
      let slope_upper := secant L V k in
      if Qle_bool (slope_lower * slope_upper) 0 then 0
      else if Qltb (2 * Qabs slope_lower) (Qabs (weighted L V k))
           then copysign 2 slope_lower * min (Qabs slope_lower) (Qabs slope_upper)
      else if Qltb (2 * Qabs slope_upper) (Qabs (weighted L V k))
           then copysign 2 slope_lower * min (Qabs slope_lower) (Qabs slope_upper)
      else weighted L V k).
Proof.
  intros H1 H2. destruct k as [|k]; [lia|].
  unfold intermediate_point, weighted, secant.
  replace (S k - 1)%nat with k by lia. replace (S k + 1)%nat with (S (S k)) by lia.
  rewrite !getL, !getV by (unfold K in *; lia). cbn [bind].
  fold (width L k). fold (width L (S k)).
  rewrite (div_nonzero _ (width L k)) by (apply width_nonzero; unfold K in *; lia).
  cbn [bind].
  rewrite (div_nonzero _ (width L (S k))) by (apply width_nonzero; exact H2).
  cbn [bind].
  rewrite div_nonzero by (apply width2_nonzero; exact H2).
  cbn [bind].
  repeat match goal with |- context [if ?b then _ else _] => destruct b end;
    reflexivity.
Qed.

Lemma Qabs_cases (x : Q) :
  (0 <= x /\ Qabs x == x) \/ (x <= 0 /\ Qabs x == - x).
Proof.
  destruct (Qlt_le_dec x 0) as [H|H].
  - right. split; [lra|]. apply Qabs_neg. lra.
  - left. split; [exact H|]. apply Qabs_pos. exact H.
Qed.

(** What the two end points do with their weighted slope. *)
Lemma end_rule_limited (w s : Q) :
  limited (if Qle_bool (w * s) 0 then 0
           else if Qltb (2 * Qabs s) (Qabs w) then 2 * s else w) s.
Proof.
  unfold limited.
  destruct (Qleb_spec (w * s) 0) as [H|H].
  - destruct (Qlt_le_dec s 0); [right|left]; lra.
  - destruct (Qltb_spec (2 * Qabs s) (Qabs w)) as [H'|H'].
    + destruct (Qlt_le_dec s 0); [right|left]; lra.
    + destruct (Qabs_cases s) as [[Hs Es]|[Hs Es]],
               (Qabs_cases w) as [[Hw Ew]|[Hw Ew]];
        try (left; split; [nra|lra]); try (right; split; [lra|nra]);
        exfalso; nra.
Qed.

Lemma not_descending (k : nat) :
  (S k < K)%nat -> Qltb (nth (S k) L 0 - nth k L 0) 0 = false.
Proof.
  intros H. destruct (Qltb_spec (nth (S k) L 0 - nth k L 0) 0) as [C|C]; [|reflexivity].
  assert (0 < width L k) by (apply width_pos; [assumption | rewrite same_shape; exact H]).
  unfold width in *. lra.
Qed.

Lemma first_point_limited :
  (3 <= K)%nat ->
  exists d, first_point L V = Ok d /\ limited d (secant L V 0).
Proof.
  intros H3. unfold first_point.
  rewrite !getL, !getV by lia. cbn [bind].
  rewrite !not_descending by lia.
  fold (width L 0). fold (width L 1).
  rewrite (div_nonzero _ (width L 0)) by (apply width_nonzero; lia). cbn [bind].
  rewrite (div_nonzero _ (width L 1)) by (apply width_nonzero; lia). cbn [bind].
  rewrite !div_nonzero by (apply width2_nonzero; lia). cbn [bind].
  fold (secant L V 0).
  match goal with
  | |- exists d, (if Qle_bool (?w * ?s) 0 then _ else _) = _ /\ _ =>
      exists (if Qle_bool (w * s) 0 then 0
              else if Qltb (2 * Qabs s) (Qabs w) then 2 * s else w);
      split; [|apply end_rule_limited]
  end.
  repeat match goal with |- context [if ?b then _ else _] => destruct b end;
    reflexivity.
Qed.

Lemma last_point_limited :
  (3 <= K)%nat ->
  exists d, last_point L V = Ok d /\ limited d (secant L V (K - 2)).
Proof.
  intros H3. unfold last_point, k_max_minus, k_max. fold K.
  replace (K - 1 - 1)%nat with (S (K - 3)) by lia.
  replace (K - 1 - 2)%nat with (K - 3)%nat by lia.
  replace (K - 1)%nat with (S (S (K - 3))) by lia.
  replace (K - 2)%nat with (S (K - 3)) by lia.
  rewrite !getL, !getV by lia. cbn [bind].
  fold (width L (K - 3)). fold (width L (S (K - 3))).
  rewrite (div_nonzero _ (width L (K - 3))) by (apply width_nonzero; lia). cbn [bind].
  rewrite (div_nonzero _ (width L (S (K - 3)))) by (apply width_nonzero; lia). cbn [bind].
  assert (~ width L (S (K - 3)) + width L (K - 3) == 0) as Hsum
    by (pose proof (width2_nonzero (K - 3)); intros C; apply H; [lia | lra]).
  rewrite !div_nonzero by exact Hsum. cbn [bind].
  fold (secant L V (S (K - 3))).
  match goal with
  | |- exists d, (if Qle_bool (?w * ?s) 0 then _ else _) = _ /\ _ =>
      exists (if Qle_bool (w * s) 0 then 0
              else if Qltb (2 * Qabs s) (Qabs w) then 2 * s else w);
      split; [|apply end_rule_limited]
  end.
  repeat match goal with |- context [if ?b then _ else _] => destruct b end;
    reflexivity.
Qed.

Lemma same_sign (x y : Q) :
  0 < x * y -> (0 < x /\ 0 < y) \/ (x < 0 /\ y < 0).
Proof.
  intros H.
  destruct (Qlt_le_dec 0 x), (Qlt_le_dec 0 y),
           (Qlt_le_dec x 0), (Qlt_le_dec y 0); try (left; split; lra);
    try (right; split; lra); exfalso; nra.
Qed.

(** What an intermediate point does with the slopes [sl], [sr] of the
    intervals of widths [dl], [dr] on its two sides. *)
Lemma interior_rule_limited (sl sr dl dr : Q) :
  0 < dl -> 0 < dr ->
  let w := (sl * dr + sr * dl) / (dl + dr) in
  let d := if Qle_bool (sl * sr) 0 then 0
           else if Qltb (2 * Qabs sl) (Qabs w)
                then copysign 2 sl * min (Qabs sl) (Qabs sr)
           else if Qltb (2 * Qabs sr) (Qabs w)
                then copysign 2 sl * min (Qabs sl) (Qabs sr)
           else w in
  limited d sl /\ limited d sr.
Proof.
  intros Hl Hr w d.
  assert (w * (dl + dr) == sl * dr + sr * dl) as Hw
    by (unfold w; field; lra).
  assert (forall s, limited 0 s) as Hzero
    by (intros s0; unfold limited; destruct (Qlt_le_dec s0 0); [right|left]; lra).
  assert (0 < sl * sr ->
          limited (copysign 2 sl * min (Qabs sl) (Qabs sr)) sl /\
          limited (copysign 2 sl * min (Qabs sl) (Qabs sr)) sr) as Hclamp.
  { intros Hp. unfold copysign, min, limited.
    destruct (same_sign _ _ Hp) as [[H1 H2]|[H1 H2]];
      destruct (Qabs_cases sl) as [[Hs Es]|[Hs Es]]; try lra;
      destruct (Qabs_cases sr) as [[Ht Et]|[Ht Et]]; try lra;
      destruct (Qltb_spec sl 0); try lra;
      destruct (Qltb_spec (Qabs sr) (Qabs sl));
      split; ((left; split; lra) || (right; split; lra)). }
  unfold d. destruct (Qleb_spec (sl * sr) 0) as [Hp|Hp].
  - split; apply Hzero.
  - assert (0 < sl * sr) as Hpos by lra.
    destruct (Qltb_spec (2 * Qabs sl) (Qabs w)) as [H1|H1]; [apply Hclamp; exact Hpos|].
    destruct (Qltb_spec (2 * Qabs sr) (Qabs w)) as [H2|H2]; [apply Hclamp; exact Hpos|].
    unfold limited.
    destruct (same_sign _ _ Hpos) as [[Ha Hb]|[Ha Hb]];
      destruct (Qabs_cases sl) as [[Hs Es]|[Hs Es]]; try lra;
      destruct (Qabs_cases sr) as [[Ht Et]|[Ht Et]]; try lra;
      destruct (Qabs_cases w) as [[Hu Eu]|[Hu Eu]].
    + split; left; split; lra.
    + exfalso. nra.
    + exfalso. nra.
    + split; right; split; lra.
Qed.

Lemma intermediate_point_limited (k : nat) :
  (1 <= k)%nat -> (S k < K)%nat ->
  exists d, intermediate_point L V k = Ok d
            /\ limited d (secant L V (k - 1)) /\ limited d (secant L V k).
Proof.
  intros H1 H2. rewrite intermediate_point_eq by assumption.
  eexists. split; [reflexivity|].
  unfold weighted. cbv zeta.
  apply interior_rule_limited.
  - apply width_pos; [assumption | rewrite same_shape; unfold K in *; lia].
  - apply width_pos; [assumption | rewrite same_shape; exact H2].
Qed.

(** The column of derivatives exists, and its entries are the results
    of the three rules. *)
Lemma linear_slope_total :
  (3 <= K)%nat ->
  exists ds,
    linear_slope L V = Ok ds /\ List.length ds = K
    /\ first_point L V = Ok (nth 0 ds 0)
    /\ (forall k, (1 <= k)%nat -> (S k < K)%nat ->
                  intermediate_point L V k = Ok (nth k ds 0))
    /\ last_point L V = Ok (nth (K - 1) ds 0).
Proof.
  intros H3.
  destruct (first_point_limited H3) as [d0 [E0 _]].
  destruct (last_point_limited H3) as [dl [El _]].
  set (g := fun k => match intermediate_point L V k with Ok d => d | Raise _ => 0 end).
  assert (forall k, (1 <= k)%nat -> (S k < K)%nat ->
                    intermediate_point L V k = Ok (g k)) as Hg.
  { intros k H1 H2. unfold g.
    destruct (intermediate_point_limited k H1 H2) as [d [E _]].
    rewrite E. reflexivity. }
  assert (mapM (intermediate_point L V) (seq 1 (K - 2)) = Ok (map g (seq 1 (K - 2)))) as Em.
  { apply mapM_pure. intros k Hk. apply in_seq in Hk. apply Hg; lia. }
  exists (d0 :: map g (seq 1 (K - 2)) ++ [dl]).
  unfold linear_slope, k_max_minus, k_max. fold K.
  replace (K - 1 - 1)%nat with (K - 2)%nat by lia.
  rewrite E0, Em, El. cbn [bind].
  split; [reflexivity|]. split; [|split; [reflexivity|split]].
  - cbn [List.length]. rewrite length_app, length_map, length_seq. cbn [List.length]. lia.
  - intros k H1 H2. rewrite (Hg k H1 H2). f_equal.
    destruct k as [|k]; [lia|]. cbn [nth].
    rewrite app_nth1 by (rewrite length_map, length_seq; lia).
    rewrite (nth_indep _ 0 (g 0%nat)) by (rewrite length_map, length_seq; lia).
    rewrite map_nth, seq_nth by lia. reflexivity.
  - f_equal.
    replace (K - 1)%nat with (S (K - 2)) by lia. cbn [nth].
    rewrite app_nth2 by (rewrite length_map, length_seq; lia).
    rewrite length_map, length_seq. rewrite Nat.sub_diag. reflexivity.
Qed.

(** Both derivatives at the ends of an interval are limited by the slope
    over that interval. *)
Lemma linear_slope_limited (ds : list Q) (k : nat) :
  linear_slope L V = Ok ds -> (S k < K)%nat ->
  limited (nth k ds 0) (secant L V k) /\ limited (nth (S k) ds 0) (secant L V k).
Proof.
  intros E Hk.
  assert (3 <= K)%nat as H3.
  { unfold linear_slope, first_point in E.
    destruct (get L 1) eqn:E1; [|discriminate]. cbn [bind] in E.
    destruct (get L 0) eqn:E2; [|discriminate]. cbn [bind] in E.
    destruct (get L 2) as [l2|] eqn:E3; [|discriminate].
    apply get_Ok in E3.
    assert (2 < List.length L)%nat by (apply nth_error_Some; congruence).
    unfold K. lia. }
  destruct (linear_slope_total H3) as [ds' [E' [_ [Hf [Hm Hl]]]]].
  assert (ds' = ds) by congruence. subst ds'.
  split.
  - destruct k as [|k].
    + destruct (first_point_limited H3) as [d [Ed Hd]].
      assert (d = nth 0 ds 0) by congruence. subst d. exact Hd.
    + destruct (intermediate_point_limited (S k)) as [d [Ed [_ Hd]]]; [lia|exact Hk|].
      assert (d = nth (S k) ds 0) by (rewrite Hm in Ed by lia; congruence).
      subst d. exact Hd.
  - destruct (Nat.eq_dec (S k) (K - 1)) as [Elast|Nlast].
    + destruct (last_point_limited H3) as [d [Ed Hd]].
      rewrite Elast. assert (d = nth (K - 1) ds 0) by congruence. subst d.
      replace (K - 2)%nat with k in Hd by lia. exact Hd.
    + destruct (intermediate_point_limited (S k)) as [d [Ed [Hd _]]]; [lia|lia|].
      assert (d = nth (S k) ds 0) by (rewrite Hm in Ed by lia; congruence).
      subst d. replace (S k - 1)%nat with k in Hd by lia. exact Hd.
Qed.

End Column.

End SlopeFacts.

(** ** Steffen interpolation: the derivative at an interior node *)

Section InteriorDerivative.

Import Steffen SteffenFacts SlopeFacts.
Open Scope Q_scope.

Lemma min_Qmin (x y : Q) : min x y == Qmin x y.
Proof.
  unfold min. destruct (Qltb_spec y x) as [H|H].
  - symmetry. apply Q.min_r. lra.
  - symmetry. apply Q.min_l. lra.
Qed.

Lemma copysign_sign (x : Q) : ~ x == 0 -> copysign 2 x == sign x * 2.
Proof.
  intros H. unfold copysign, sign.
  destruct (Qltb_spec x 0) as [H1|H1]; [reflexivity|].
  destruct (Qltb_spec 0 x) as [H2|H2]; [reflexivity|]. exfalso. lra.
Qed.

(** C5.  At an interior node [k] (1 <= k <= K-2) of a column with
    strictly ascending levels, the derivative estimate [linear_slope[k]]
    is 0 when the product of the left and right one-sided slopes is not
    positive; otherwise it is [sign(slope_left) * 2 * min(|slope_left|,
    |slope_right|)] when the magnitude of the weighted slope exceeds twice
    the magnitude of either one-sided slope, and the weighted slope when
    it exceeds neither. *)
Theorem interior_derivative (L V : list Q) (k : nat) :
  ascending L -> List.length L = List.length V ->
  (1 <= k)%nat -> (k <= List.length V - 2)%nat ->
  exists ds,
    linear_slope L V = Ok ds /\
    let slope_left := secant L V (k - 1) in
    let slope_right := secant L V k in
    let exceeds := 2 * Qabs slope_left < Qabs (weighted L V k)
                   \/ 2 * Qabs slope_right < Qabs (weighted L V k) in
    (slope_left * slope_right <= 0 -> nth k ds 0 == 0)
    /\ (0 < slope_left * slope_right -> exceeds ->
        nth k ds 0 == sign slope_left * 2 * Qmin (Qabs slope_left) (Qabs slope_right))
    /\ (0 < slope_left * slope_right -> ~ exceeds ->
        nth k ds 0 == weighted L V k).
Proof.
  intros HA HS H1 H2.
  assert (3 <= List.length V)%nat as H3 by lia.
  destruct (linear_slope_total L V HA HS H3) as [ds [E [_ [_ [Hm _]]]]].
  exists ds. split; [exact E|].
  assert (S k < List.length V)%nat as Hk by lia.
  specialize (Hm k H1 Hk).
  rewrite (intermediate_point_eq L V HA HS k H1 Hk) in Hm.
  apply Ok_inj in Hm. rewrite <- Hm. clear Hm. cbv zeta.
  set (sl := secant L V (k - 1)). set (sr := secant L V k).
  set (w := weighted L V k).
  assert (0 < sl * sr ->
          copysign 2 sl * min (Qabs sl) (Qabs sr)
          == sign sl * 2 * Qmin (Qabs sl) (Qabs sr)) as Hclamp.
  { intros Hp. rewrite min_Qmin, copysign_sign; [reflexivity|].
    intros C. rewrite C in Hp. lra. }
  split; [|split].
  - intros Hp. destruct (Qleb_spec (sl * sr) 0); [reflexivity|contradiction].
  - intros Hp Hex. destruct (Qleb_spec (sl * sr) 0); [lra|].
    destruct (Qltb_spec (2 * Qabs sl) (Qabs w)); [apply Hclamp; exact Hp|].
    destruct (Qltb_spec (2 * Qabs sr) (Qabs w)); [apply Hclamp; exact Hp|].
    exfalso. destruct Hex; contradiction.
  - intros Hp Hex. destruct (Qleb_spec (sl * sr) 0); [lra|].
    destruct (Qltb_spec (2 * Qabs sl) (Qabs w)); [exfalso; apply Hex; left; assumption|].
    destruct (Qltb_spec (2 * Qabs sr) (Qabs w)); [exfalso; apply Hex; right; assumption|].
    reflexivity.
Qed.

End InteriorDerivative.

Lemma interior_derivative_witness :
  exists ds,
    Steffen.linear_slope [0; 100; 500; 600]%Q [10; 12; 19; 20]%Q = Ok ds /\
    let slope_left := Steffen.secant [0; 100; 500; 600]%Q [10; 12; 19; 20]%Q 0 in
    let slope_right := Steffen.secant [0; 100; 500; 600]%Q [10; 12; 19; 20]%Q 1 in
    let w := Steffen.weighted [0; 100; 500; 600]%Q [10; 12; 19; 20]%Q 1 in
    let exceeds := (2 * Qabs slope_left < Qabs w \/ 2 * Qabs slope_right < Qabs w)%Q in
    ((slope_left * slope_right <= 0)%Q -> (nth 1 ds 0 == 0)%Q)
    /\ ((0 < slope_left * slope_right)%Q -> exceeds ->
        (nth 1 ds 0 == Steffen.sign slope_left * 2 * Qmin (Qabs slope_left) (Qabs slope_right))%Q)
    /\ ((0 < slope_left * slope_right)%Q -> ~ exceeds ->
        (nth 1 ds 0 == w)%Q).
Proof.
  apply (interior_derivative [0; 100; 500; 600]%Q [10; 12; 19; 20]%Q 1).
  - simpl. repeat split; reflexivity.
  - reflexivity.
  - lia.
  - simpl. lia.
Defined.

(** ** Steffen interpolation: the cursor *)

Module CursorFacts.

Import Steffen SteffenFacts SlopeFacts.
Open Scope Q_scope.

Lemma first_ge_le (x : Q) (l : list Q) : (first_ge x l <= List.length l)%nat.
Proof.
  induction l as [|a l IH]; simpl; [lia|].
  destruct (Qltb a x); lia.
Qed.

Lemma first_ge_below (x : Q) (l : list Q) (i : nat) :
  (i < first_ge x l)%nat -> nth i l 0 < x.
Proof.
  revert i. induction l as [|a l IH]; simpl; intros i H; [lia|].
  destruct (Qltb_spec a x) as [Ha|Ha]; [|lia].
  destruct i as [|i]; [exact Ha|]. apply IH. lia.
Qed.

Lemma first_ge_stop (x : Q) (l : list Q) :
  (first_ge x l < List.length l)%nat -> x <= nth (first_ge x l) l 0.
Proof.
  induction l as [|a l IH]; simpl; intros H; [lia|].
  destruct (Qltb_spec a x) as [Ha|Ha]; [|lra].
  apply IH. lia.
Qed.

(** The cursor stops at [k] when the coordinates before [k] are below
    [x] and the one at [k], if any, is not. *)
Lemma first_ge_eq (x : Q) (l : list Q) (k : nat) :
  (k <= List.length l)%nat ->
  (forall i, (i < k)%nat -> nth i l 0 < x) ->
  ((k < List.length l)%nat -> x <= nth k l 0) ->
  first_ge x l = k.
Proof.
  revert k. induction l as [|a l IH]; simpl; intros k Hk Hlt Hge.
  - lia.
  - destruct (Qltb_spec a x) as [Ha|Ha].
    + destruct k as [|k].
      * assert (x <= a) by (apply Hge; lia). lra.
      * f_equal. apply IH.
        -- lia.
        -- intros i Hi. apply (Hlt (S i)). lia.
        -- intros Hk'. apply Hge. lia.
    + destruct k as [|k]; [reflexivity|].
      assert (a < x) by (apply (Hlt 0%nat); lia). lra.
Qed.

Lemma first_ge_skipn (x : Q) (l : list Q) (k : nat) :
  (k <= List.length l)%nat ->
  (forall i, (i < k)%nat -> nth i l 0 < x) ->
  (k + first_ge x (skipn k l))%nat = first_ge x l.
Proof.
  revert k. induction l as [|a l IH]; intros k Hk Hlt.
  - simpl in Hk. replace k with 0%nat by lia. reflexivity.
  - destruct k as [|k]; [reflexivity|].
    simpl. destruct (Qltb_spec a x) as [Ha|Ha].
    + f_equal. apply IH; [simpl in Hk; lia|].
      intros i Hi. apply (Hlt (S i)). lia.
    + exfalso. apply Ha. apply (Hlt 0%nat). lia.
Qed.

Lemma skipn_cons_nth (l : list Q) (k : nat) :
  (k < List.length l)%nat -> skipn k l = nth k l 0 :: skipn (S k) l.
Proof.
  revert k. induction l as [|a l IH]; simpl; intros k H; [lia|].
  destruct k as [|k]; [reflexivity|]. apply IH. lia.
Qed.

Section Column.

Variables L V : list Q.
Hypothesis same_shape : List.length L = List.length V.

Let K := List.length V.

Lemma advance_eq (x : Q) (fuel k : nat) :
  (k + fuel = K)%nat ->
  advance L V x k fuel = Ok (k + first_ge x (skipn k L))%nat.
Proof.
  assert (List.length L = K) as HL by exact same_shape.
  revert k. induction fuel as [|fuel IH]; intros k Hk; cbn [advance].
  - rewrite skipn_all2 by lia. cbn [first_ge]. f_equal. lia.
  - unfold k_max. fold K.
    assert (k < K)%nat as Hlt by lia.
    apply Nat.ltb_lt in Hlt. rewrite Hlt. apply Nat.ltb_lt in Hlt.
    rewrite (get_nth L k 0) by lia. cbn [bind].
    rewrite (skipn_cons_nth L k) by lia. cbn [first_ge].
    destruct (Qltb (nth k L 0) x).
    + rewrite IH by lia. f_equal. lia.
    + f_equal. lia.
Qed.

Lemma cursor_le (outs : list Q) (k0 n : nat) :
  (k0 <= K)%nat -> (cursor L outs k0 n <= K)%nat.
Proof.
  assert (List.length L = K) as HL by exact same_shape.
  revert k0 n. induction outs as [|x outs IH]; simpl; intros k0 n Hk; [exact Hk|].
  assert (k0 + first_ge x (skipn k0 L) <= K)%nat as Hk'.
  { pose proof (first_ge_le x (skipn k0 L)) as H.
    rewrite length_skipn in H. lia. }
  destruct n as [|n]; [exact Hk'|]. apply IH. exact Hk'.
Qed.

(** Output point [n] is evaluated where the whole scan from the first
    level would stop, provided no earlier output coordinate is larger. *)
Lemma cursor_first_ge (outs : list Q) (k0 n : nat) :
  (k0 <= K)%nat -> (n < List.length outs)%nat ->
  no_larger_before outs n ->
  (forall i, (i < k0)%nat -> nth i L 0 < nth n outs 0) ->
  cursor L outs k0 n = first_ge (nth n outs 0) L.
Proof.
  assert (List.length L = K) as HL by exact same_shape.
  revert k0 n. induction outs as [|x outs IH]; intros k0 n Hk Hn Hb Hlt.
  - simpl in Hn. lia.
  - simpl. destruct n as [|n].
    + apply first_ge_skipn; [lia | exact Hlt].
    + unfold no_larger_before in Hb. simpl in Hb.
      apply Forall_cons_iff in Hb. destruct Hb as [Hx Hb].
      simpl in Hlt. simpl in Hn.
      apply IH.
      * pose proof (first_ge_le x (skipn k0 L)) as H.
        rewrite length_skipn in H. lia.
      * lia.
      * exact Hb.
      * intros i Hi.
        destruct (Nat.lt_ge_cases i k0) as [Hik|Hik]; [apply Hlt; exact Hik|].
        assert (nth (i - k0) (skipn k0 L) 0 < x) as Hs
          by (apply first_ge_below; lia).
        rewrite nth_skipn in Hs. replace (k0 + (i - k0))%nat with i in Hs by lia.
        lra.
Qed.

End Column.

End CursorFacts.

(** ** Steffen interpolation: the loop over the output points *)

Module ColumnFacts.

Import Steffen SteffenFacts SlopeFacts CursorFacts.
Open Scope Q_scope.

Section Column.

Variables L V : list Q.
Hypothesis L_ascending : ascending L.
Hypothesis same_shape : List.length L = List.length V.
Variable les : Q.
Variable flag : bool.

Let K := List.length V.

Hypothesis three_levels : (3 <= K)%nat.

Variable ds : list Q.
Hypothesis ds_shape : List.length ds = K.

(** Inside the levels the output is the cubic of the interval below the
    cursor. *)
Lemma output_point_inside (x : Q) (k : nat) :
  (S k < K)%nat ->
  output_point L V les flag ds x (S k) =
  Ok (Val (cubic (width L k) (secant L V k) (nth k ds 0) (nth (S k) ds 0)
                 (nth k V 0) (x - nth k L 0))).
Proof.
  intros Hk. unfold output_point, k_max. fold K.
  assert ((0 <? S k)%nat && (S k <? K)%nat = true) as Hc.
  { apply andb_true_iff. split; apply Nat.ltb_lt; lia. }
  rewrite Hc. cbv zeta. replace (S k - 1)%nat with k by lia.
  rewrite !(getL L V same_shape), !(getV V) by (unfold K in *; lia). cbn [bind].
  fold (width L k).
  rewrite !(get_nth ds _ 0) by lia.
  rewrite (div_nonzero _ (width L k))
    by (apply (width_nonzero L V L_ascending same_shape); exact Hk).
  cbn [bind]. fold (secant L V k).
  rewrite div_nonzero.
  2:{ pose proof (width_nonzero L V L_ascending same_shape k Hk) as Hn.
      intros C. apply Hn. nra. }
  cbn [bind].
  rewrite div_nonzero
    by (apply (width_nonzero L V L_ascending same_shape); exact Hk).
  reflexivity.
Qed.

(** Below the first level the output depends on the boundary. *)
Lemma output_point_below (x : Q) :
  output_point L V les flag ds x 0 =
  Ok (if Qle_bool les x
      then if flag then Val (nth 0 V 0 + nth 0 ds 0 * (x - nth 0 L 0))
           else Val (nth 0 V 0)
      else NaN).
Proof.
  unfold output_point. cbn [Nat.ltb Nat.leb Nat.eqb andb].
  destruct (Qle_bool les x); [|reflexivity].
  destruct flag.
  - rewrite (getV V), (get_nth ds 0 0), (getL L V same_shape)
      by (unfold K in *; lia).
    reflexivity.
  - rewrite (getV V) by (unfold K in *; lia). reflexivity.
Qed.

(** Past the last level the output is missing. *)
Lemma output_point_above (x : Q) :
  output_point L V les flag ds x K = Ok NaN.
Proof.
  unfold output_point, k_max. fold K.
  rewrite Nat.ltb_irrefl, andb_false_r.
  replace (K =? 0)%nat with false by (symmetry; apply Nat.eqb_neq; lia).
  reflexivity.
Qed.

Lemma output_point_total (x : Q) (k : nat) :
  (k <= K)%nat -> exists c, output_point L V les flag ds x k = Ok c.
Proof.
  intros Hk. destruct k as [|k].
  - rewrite output_point_below. eexists. reflexivity.
  - destruct (Nat.eq_dec (S k) K) as [E|N].
    + rewrite E, output_point_above. eexists. reflexivity.
    + rewrite output_point_inside by lia. eexists. reflexivity.
Qed.

Lemma output_loop_spec (outs : list Q) (k0 : nat) :
  (k0 <= K)%nat ->
  exists cs,
    output_loop L V les flag ds outs k0 = Ok cs
    /\ List.length cs = List.length outs
    /\ forall n, (n < List.length outs)%nat ->
         output_point L V les flag ds (nth n outs 0) (cursor L outs k0 n)
         = Ok (nth n cs NaN).
Proof.
  revert k0. induction outs as [|x outs IH]; intros k0 Hk.
  - exists []. split; [reflexivity|]. split; [reflexivity|].
    intros n Hn. simpl in Hn. lia.
  - cbn [output_loop]. unfold k_max. fold K.
    rewrite (advance_eq L V same_shape) by (unfold K in *; lia). cbn [bind].
    set (k' := (k0 + first_ge x (skipn k0 L))%nat).
    assert (k' <= K)%nat as Hk'.
    { pose proof (first_ge_le x (skipn k0 L)) as H.
      rewrite length_skipn in H. unfold k', K in *. lia. }
    destruct (output_point_total x k' Hk') as [c Ec].
    destruct (IH k' Hk') as [cs [Ecs [Hlen Hnth]]].
    rewrite Ec, Ecs. cbn [bind].
    exists (c :: cs). split; [reflexivity|]. split; [simpl; lia|].
    intros n Hn. destruct n as [|n].
    + simpl. exact Ec.
    + simpl. apply Hnth. simpl in Hn. lia.
Qed.

End Column.

(** The call on a column of strictly ascending levels returns, with one
    output value per output coordinate, each of them computed where the
    cursor then is. *)
Lemma steffen_column_spec (L V : list Q) (les : Q) (flag : bool) (O : list Q) :
  ascending L -> List.length L = List.length V -> (3 <= List.length V)%nat ->
  exists ds out,
    linear_slope L V = Ok ds
    /\ List.length ds = List.length V
    /\ steffen_column L V les flag O = Ok out
    /\ List.length out = List.length O
    /\ forall n, (n < List.length O)%nat ->
         output_point L V les flag ds (nth n O 0) (cursor L O 0 n)
         = Ok (nth n out NaN).
Proof.
  intros HA HS H3.
  destruct (linear_slope_total L V HA HS H3) as [ds [E [Hlen _]]].
  destruct (output_loop_spec L V HA HS les flag H3 ds Hlen O 0) as [out [Eo [Ho Hn]]];
    [lia|].
  exists ds, out. unfold steffen_column. rewrite E. cbn [bind].
  repeat split; assumption.
Qed.

End ColumnFacts.

(** ** Steffen interpolation: the cubic of an interval *)

Module CubicFacts.

Import Steffen.
Open Scope Q_scope.

(** The cubic in the fraction [u] of the interval covered, split into the
    parts of the slope and of the two derivatives. *)
Lemma cubic_fraction (delta s dl dh vl t u : Q) :
  0 < delta -> t == u * delta ->
  cubic delta s dl dh vl t ==
  vl + delta * (s * (u * u * (3 - 2 * u)) + dl * (u * (1 - u) * (1 - u))
                - dh * (u * u * (1 - u))).
Proof.
  intros Hd Ht. unfold cubic. rewrite Ht. field. lra.
Qed.

Lemma rising_part (s dl dh u : Q) :
  0 <= dl <= 2 * s -> 0 <= dh <= 2 * s -> 0 <= u <= 1 ->
  0 <= s * (u * u * (3 - 2 * u)) + dl * (u * (1 - u) * (1 - u))
       - dh * (u * u * (1 - u)) <= s.
Proof.
  intros Hl Hh Hu.
  assert (0 <= u * u) by nra.
  assert (0 <= (1 - u) * (1 - u)) by nra.
  assert (0 <= u * (1 - u)) by nra.
  assert (0 <= dl * (u * (1 - u) * (1 - u))) by (apply Qmult_le_0_compat; [lra|nra]).
  assert (0 <= (2 * s - dh) * (u * u * (1 - u))) by (apply Qmult_le_0_compat; [lra|nra]).
  assert (0 <= dh * (u * u * (1 - u))) by (apply Qmult_le_0_compat; [lra|nra]).
  assert (0 <= (2 * s - dl) * (u * (1 - u) * (1 - u))) by (apply Qmult_le_0_compat; [lra|nra]).
  assert (0 <= s * (u * u)) by (apply Qmult_le_0_compat; [lra|nra]).
  assert (0 <= s * ((1 - u) * (1 - u))) by (apply Qmult_le_0_compat; [lra|nra]).
  split; nra.
Qed.

(** With both derivatives limited by the slope of the interval, the
    cubic stays between the values at its two ends. *)
Lemma cubic_between (delta s dl dh vl vh t : Q) :
  0 < delta -> s == (vh - vl) / delta ->
  limited dl s -> limited dh s -> 0 <= t <= delta ->
  between vl vh (cubic delta s dl dh vl t).
Proof.
  intros Hd Hs Hl Hh Ht.
  set (u := t / delta).
  assert (t == u * delta) as Htu by (unfold u; field; lra).
  assert (0 <= u <= 1) as Hu.
  { assert (0 < / delta) by (apply Qinv_lt_0_compat; exact Hd).
    assert (u == t * / delta) as Eu by reflexivity.
    assert (delta * / delta == 1) by (field; lra).
    split; nra. }
  assert (vh == vl + delta * s) as Hvh by (rewrite Hs; field; lra).
  pose proof (cubic_fraction delta s dl dh vl t u Hd Htu) as Ec.
  set (y := cubic delta s dl dh vl t) in *.
  set (h := s * (u * u * (3 - 2 * u)) + dl * (u * (1 - u) * (1 - u))
            - dh * (u * u * (1 - u))) in *.
  unfold limited in Hl, Hh. unfold between.
  destruct (Qlt_le_dec s 0) as [Hneg|Hpos].
  - assert (0 <= - h <= - s) as Hb.
    { assert (- h == (- s) * (u * u * (3 - 2 * u)) + (- dl) * (u * (1 - u) * (1 - u))
                     - (- dh) * (u * u * (1 - u))) as E by (unfold h; ring).
      rewrite E. apply rising_part; lra. }
    right. split; nra.
  - assert (0 <= h <= s) as Hb by (apply rising_part; lra).
    left. split; nra.
Qed.

(** At the upper end of its interval the cubic takes the upper value. *)
Lemma cubic_upper_end (delta s dl dh vl vh t : Q) :
  0 < delta -> s == (vh - vl) / delta -> t == delta ->
  cubic delta s dl dh vl t == vh.
Proof.
  intros Hd Hs Ht. unfold cubic. rewrite Ht, Hs. field. lra.
Qed.

End CubicFacts.

(** ** Steffen interpolation: where an output point is evaluated *)

Module BracketFacts.

Import Steffen SteffenFacts SlopeFacts CursorFacts.
Open Scope Q_scope.

Lemma first_ge_all (x : Q) (l : list Q) :
  (forall i, (i < List.length l)%nat -> nth i l 0 < x) ->
  first_ge x l = List.length l.
Proof.
  intros H. apply first_ge_eq; [lia | exact H | lia].
Qed.

Section Column.

Variables L V : list Q.
Hypothesis same_shape : List.length L = List.length V.

Let K := List.length V.

(** Below the first level the cursor has not moved. *)
Lemma bracket_below (x : Q) : x < nth 0 L 0 -> first_ge x L = 0%nat.
Proof.
  intros H. destruct L as [|a l]; [reflexivity|]. simpl in *.
  destruct (Qltb_spec a x); [lra | reflexivity].
Qed.

(** Above every level the cursor is past the last one, whatever the
    output coordinates before. *)
Lemma cursor_above (outs : list Q) (k0 n : nat) :
  (k0 <= K)%nat -> (n < List.length outs)%nat ->
  (forall i, (i < K)%nat -> nth i L 0 < nth n outs 0) ->
  cursor L outs k0 n = K.
Proof.
  assert (List.length L = K) as HL by exact same_shape.
  revert k0 n. induction outs as [|x outs IH]; intros k0 n Hk Hn Hall.
  - simpl in Hn. lia.
  - assert (k0 + first_ge x (skipn k0 L) <= K)%nat as Hk'.
    { pose proof (first_ge_le x (skipn k0 L)) as H.
      rewrite length_skipn in H. lia. }
    simpl. destruct n as [|n].
    + simpl in Hall. rewrite first_ge_all.
      * rewrite length_skipn. lia.
      * intros i Hi. rewrite length_skipn in Hi. rewrite nth_skipn.
        apply Hall. lia.
    + apply IH; [exact Hk' | simpl in Hn; lia | exact Hall].
Qed.

Hypothesis L_ascending : ascending L.

(** At the level of node [k] the cursor is at [k]. *)
Lemma bracket_node (x : Q) (k : nat) :
  (k < K)%nat -> x == nth k L 0 -> first_ge x L = k.
Proof.
  assert (List.length L = K) as HL by exact same_shape.
  intros Hk Hx. apply first_ge_eq.
  - lia.
  - intros i Hi. rewrite Hx. apply ascending_lt; [assumption | exact Hi | lia].
  - intros _. rewrite Hx. lra.
Qed.

(** Strictly between the levels of nodes [k] and [k + 1] the cursor is
    at [k + 1]. *)
Lemma bracket_between (x : Q) (k : nat) :
  (S k < K)%nat -> nth k L 0 < x -> x < nth (S k) L 0 -> first_ge x L = S k.
Proof.
  assert (List.length L = K) as HL by exact same_shape.
  intros Hk H1 H2. apply first_ge_eq.
  - lia.
  - intros i Hi. destruct (Nat.eq_dec i k) as [->|Hne]; [exact H1|].
    assert (nth i L 0 < nth k L 0)
      by (apply ascending_lt; [assumption | lia | lia]).
    lra.
  - intros _. lra.
Qed.

End Column.

End BracketFacts.

(** ** Steffen interpolation: boundary policy, node exactness, shape *)

Section OutputValues.

Import Steffen SteffenFacts SlopeFacts CursorFacts ColumnFacts BracketFacts CubicFacts.
Open Scope Q_scope.

Lemma nth_error_nth_default {A : Type} (l : list A) (n : nat) (d : A) :
  (n < List.length l)%nat -> nth_error l n = Some (nth n l d).
Proof. intros H. apply nth_error_nth'. exact H. Qed.

(** C2, amended.  For every column with strictly ascending input levels
    (K >= 3) the call returns, and for every output coordinate: if it lies
    below the first input level and no earlier output coordinate is
    larger, the result is the missing value when it is below the
    lower-extrapolation boundary, the first input value when it is at or
    above the boundary with the gradient flag off, and the first value
    plus the first-node derivative times the offset with the flag on; if it
    lies above the last input level the result is the missing value. *)
Theorem boundary_policy_ascending (L V O : list Q) (les : Q) (flag : bool) (n : nat) :
  ascending L -> List.length L = List.length V -> (3 <= List.length V)%nat ->
  (n < List.length O)%nat ->
  exists ds out,
    linear_slope L V = Ok ds
    /\ steffen_column L V les flag O = Ok out
    /\ (no_larger_before O n ->
        lower_boundary_policy L V les flag (nth 0 ds 0) O out n)
    /\ upper_boundary_policy L V O out n.
Proof.
  intros HA HS H3 Hn.
  destruct (steffen_column_spec L V les flag O HA HS H3)
    as [ds [out [Eds [Hds [Eout [Hlen Hout]]]]]].
  exists ds, out. split; [exact Eds|]. split; [exact Eout|].
  specialize (Hout n Hn).
  split.
  - intros Hb. unfold lower_boundary_policy. cbv zeta.
    rewrite (nth_error_nth_default out n NaN) by lia.
    intros Hx.
    rewrite (cursor_first_ge L V HS) in Hout; [|lia|exact Hn|exact Hb|intros i Hi; lia].
    rewrite (bracket_below L V HS (nth n O 0) Hx) in Hout.
    rewrite (output_point_below L V HS les flag H3 ds Hds) in Hout.
    apply Ok_inj in Hout. rewrite <- Hout.
    destruct (Qleb_spec les (nth n O 0)) as [Hle|Hle].
    + split; [intros C; lra|]. split; intros _ Hf; rewrite Hf; eexists;
        (split; [reflexivity|reflexivity]).
    + split; [reflexivity|]. split; intros C; contradiction.
  - unfold upper_boundary_policy.
    rewrite (nth_error_nth_default out n NaN) by lia.
    intros Hx.
    rewrite (cursor_above L V HS) in Hout; [|lia|exact Hn|].
    + rewrite (output_point_above L V HS les flag H3 ds Hds) in Hout.
      apply Ok_inj in Hout. rewrite <- Hout. reflexivity.
    + intros i Hi.
      destruct (Nat.eq_dec i (List.length V - 1)) as [->|Hne]; [exact Hx|].
      assert (nth i L 0 < nth (List.length V - 1) L 0)
        by (apply ascending_lt; [assumption | lia | lia]).
      lra.
Qed.

(** C3, amended.  For every column with strictly ascending input levels
    (K >= 3) and every output coordinate equal to the level of some node
    [k], no earlier output coordinate being larger and, when the node is
    the first one, the lower-extrapolation boundary not being above it,
    the result is the value of that node. *)
Theorem node_exact_ascending (L V O : list Q) (les : Q) (flag : bool) (n : nat) :
  ascending L -> List.length L = List.length V -> (3 <= List.length V)%nat ->
  (n < List.length O)%nat -> no_larger_before O n ->
  (nth n O 0 == nth 0 L 0 -> les <= nth 0 L 0) ->
  exists out,
    steffen_column L V les flag O = Ok out /\ node_exact L V O out n.
Proof.
  intros HA HS H3 Hn Hb Hles.
  destruct (steffen_column_spec L V les flag O HA HS H3)
    as [ds [out [Eds [Hds [Eout [Hlen Hout]]]]]].
  exists out. split; [exact Eout|].
  specialize (Hout n Hn).
  intros k Hk Hx.
  rewrite (nth_error_nth_default out n NaN) by lia.
  rewrite (cursor_first_ge L V HS) in Hout; [|lia|exact Hn|exact Hb|intros i Hi; lia].
  rewrite (bracket_node L V HS HA (nth n O 0) k Hk Hx) in Hout.
  destruct k as [|k].
  - rewrite (output_point_below L V HS les flag H3 ds Hds) in Hout.
    apply Ok_inj in Hout. rewrite <- Hout.
    assert (les <= nth n O 0) as Hle by (rewrite Hx; apply Hles; exact Hx).
    destruct (Qleb_spec les (nth n O 0)); [|contradiction].
    destruct flag; eexists; (split; [reflexivity|]).
    + rewrite Hx. ring.
    + reflexivity.
  - rewrite (output_point_inside L V HA HS les flag H3 ds Hds) in Hout by exact Hk.
    apply Ok_inj in Hout. rewrite <- Hout.
    eexists. split; [reflexivity|].
    apply cubic_upper_end.
    + apply width_pos; [exact HA | lia].
    + reflexivity.
    + unfold width. rewrite Hx. reflexivity.
Qed.

(** C4, amended.  For every column with strictly ascending input levels
    (K >= 3), every adjacent node pair [(k, k+1)] and every output
    coordinate strictly between [L[k]] and [L[k+1]], no earlier output
    coordinate being larger, the result lies between [V[k]] and
    [V[k+1]]. *)
Theorem no_overshoot_ascending (L V O : list Q) (les : Q) (flag : bool) (n : nat) :
  ascending L -> List.length L = List.length V -> (3 <= List.length V)%nat ->
  (n < List.length O)%nat -> no_larger_before O n ->
  exists out,
    steffen_column L V les flag O = Ok out /\ no_overshoot L V O out n.
Proof.
  intros HA HS H3 Hn Hb.
  destruct (steffen_column_spec L V les flag O HA HS H3)
    as [ds [out [Eds [Hds [Eout [Hlen Hout]]]]]].
  exists out. split; [exact Eout|].
  specialize (Hout n Hn).
  intros k Hk Hlo Hhi.
  rewrite (nth_error_nth_default out n NaN) by lia.
  rewrite (cursor_first_ge L V HS) in Hout; [|lia|exact Hn|exact Hb|intros i Hi; lia].
  rewrite (bracket_between L V HS HA (nth n O 0) k Hk Hlo Hhi) in Hout.
  rewrite (output_point_inside L V HA HS les flag H3 ds Hds) in Hout by exact Hk.
  apply Ok_inj in Hout. rewrite <- Hout.
  eexists. split; [reflexivity|].
  destruct (linear_slope_limited L V HA HS ds k Eds Hk) as [Hl Hh].
  apply cubic_between.
  - apply width_pos; [exact HA | lia].
  - reflexivity.
  - exact Hl.
  - exact Hh.
  - unfold width. lra.
Qed.

End OutputValues.

(** *** Instances and counterexamples *)

Section OutputExamples.

Import Steffen.
Open Scope Q_scope.

(** Levels [[0; 100; 500]] with values [[10; 12; 9]], boundary -10 and
    the gradient flag on: the outputs at 0, 100 and 500 are the values of
    the nodes, those at 50 and 300 lie strictly between the values of
    their neighbours, and the output at 600 is missing. *)
Example interpolation_scenario :
  exists y0 y50 y100 y300 y500,
    steffen_column [0; 100; 500] [10; 12; 9] (-10) true
      [0; 50; 100; 300; 500; 600]
    = Ok [Val y0; Val y50; Val y100; Val y300; Val y500; NaN]
    /\ y0 == 10 /\ (10 < y50 /\ y50 < 12) /\ y100 == 12
    /\ (9 < y300 /\ y300 < 12) /\ y500 == 9.
Proof.
  do 5 eexists. split; [vm_compute; reflexivity|].
  repeat split; reflexivity.
Qed.

Lemma boundary_policy_ascending_witness :
  exists ds out,
    linear_slope [0; 100; 500] [10; 12; 9] = Ok ds
    /\ steffen_column [0; 100; 500] [10; 12; 9] (-10) true [-20; -5; 600] = Ok out
    /\ lower_boundary_policy [0; 100; 500] [10; 12; 9] (-10) true (nth 0 ds 0)
         [-20; -5; 600] out 1
    /\ upper_boundary_policy [0; 100; 500] [10; 12; 9] [-20; -5; 600] out 1.
Proof.
  destruct (boundary_policy_ascending [0; 100; 500] [10; 12; 9] [-20; -5; 600]
              (-10) true 1) as [ds [out [E1 [E2 [Hlow Hup]]]]].
  - simpl. repeat split; reflexivity.
  - reflexivity.
  - simpl. lia.
  - simpl. lia.
  - exists ds, out. split; [exact E1|]. split; [exact E2|]. split; [|exact Hup].
    apply Hlow. unfold no_larger_before. simpl.
    constructor; [discriminate | constructor].
Defined.

(** C2 as stated fails.  After the output coordinate 150 the cursor is at
    the interval [[100, 200]]; the next coordinate, -5, lies below the
    first level 0 and above the boundary -10, the flag is off, and the
    result is the cubic of that interval, not the first value 10.  And
    levels [[0; 1; 2; 5; 3]] pass the check of the first two differences:
    the coordinate 4 lies above the last level 3 and has a value. *)
Lemma boundary_policy_counterexample :
  (exists ds out,
     linear_slope [0; 100; 200] [10; 12; 30] = Ok ds
     /\ steffen_column [0; 100; 200] [10; 12; 30] (-10) false [150; -5] = Ok out
     /\ ~ lower_boundary_policy [0; 100; 200] [10; 12; 30] (-10) false (nth 0 ds 0)
            [150; -5] out 1)
  /\ (exists out,
        steffen_column [0; 1; 2; 5; 3] [0; 1; 2; 3; 4] (-10) false [4] = Ok out
        /\ ~ upper_boundary_policy [0; 1; 2; 5; 3] [0; 1; 2; 3; 4] [4] out 0).
Proof.
  split.
  - eexists. eexists. split; [vm_compute; reflexivity|].
    split; [vm_compute; reflexivity|].
    unfold lower_boundary_policy. cbv zeta. intros H.
    destruct H as [_ [H _]]; [reflexivity|].
    destruct H as [y [Hy Ey]]; [discriminate | reflexivity |].
    apply (f_equal (fun o => match o with Some (Val q) => q | _ => 0 end)) in Hy.
    cbn in Hy. rewrite <- Hy in Ey. vm_compute in Ey. discriminate.
  - eexists. split; [vm_compute; reflexivity|].
    unfold upper_boundary_policy. intros H.
    specialize (H eq_refl). discriminate.
Qed.

Lemma node_exact_ascending_witness :
  exists out,
    steffen_column [0; 100; 500] [10; 12; 9] (-10) true [0; 50; 100; 500] = Ok out
    /\ node_exact [0; 100; 500] [10; 12; 9] [0; 50; 100; 500] out 2.
Proof.
  apply (node_exact_ascending [0; 100; 500] [10; 12; 9] [0; 50; 100; 500] (-10) true 2).
  - simpl. repeat split; reflexivity.
  - reflexivity.
  - simpl. lia.
  - simpl. lia.
  - unfold no_larger_before. simpl.
    constructor; [discriminate | constructor; [discriminate | constructor]].
  - intros _. discriminate.
Defined.

(** C3 as stated fails.  After the output coordinate 150 the cursor is at
    the interval [[100, 200]]; the next coordinate, 0, is the level of the
    first node, whose value is 10, and the result is the cubic of that
    interval at offset -100.  And with the boundary at 1, above the first
    level 0, the output at coordinate 0 is missing. *)
Lemma node_exact_counterexample :
  (exists out,
     steffen_column [0; 100; 200] [10; 12; 30] (-10) false [150; 0] = Ok out
     /\ ~ node_exact [0; 100; 200] [10; 12; 30] [150; 0] out 1)
  /\ (exists out,
        steffen_column [0; 100; 200] [10; 12; 30] 1 false [0] = Ok out
        /\ ~ node_exact [0; 100; 200] [10; 12; 30] [0] out 0).
Proof.
  split.
  - eexists. split; [vm_compute; reflexivity|].
    intros H. destruct (H 0%nat) as [y [Hy Ey]]; [simpl; lia | reflexivity |].
    apply (f_equal (fun o => match o with Some (Val q) => q | _ => 0 end)) in Hy.
    cbn in Hy. rewrite <- Hy in Ey. vm_compute in Ey. discriminate.
  - eexists. split; [vm_compute; reflexivity|].
    intros H. destruct (H 0%nat) as [y [Hy Ey]]; [simpl; lia | reflexivity |].
    discriminate.
Qed.

Lemma no_overshoot_ascending_witness :
  exists out,
    steffen_column [0; 100; 500] [10; 12; 9] (-10) true [0; 50; 100; 300] = Ok out
    /\ no_overshoot [0; 100; 500] [10; 12; 9] [0; 50; 100; 300] out 3.
Proof.
  apply (no_overshoot_ascending [0; 100; 500] [10; 12; 9] [0; 50; 100; 300] (-10) true 3).
  - simpl. repeat split; reflexivity.
  - reflexivity.
  - simpl. lia.
  - simpl. lia.
  - unfold no_larger_before. simpl.
    repeat (constructor; [discriminate|]). constructor.
Defined.

(** C4 as stated fails.  After the output coordinate 150 the cursor is at
    the interval [[100, 200]]; the next coordinate, 50, lies strictly
    between the levels 0 and 100, whose values are 10 and 12, and the
    result is the cubic of the interval [[100, 200]] at offset -50, which
    is 63/4. *)
Lemma no_overshoot_counterexample :
  exists out,
    steffen_column [0; 100; 200] [10; 12; 30] (-10) false [150; 50] = Ok out
    /\ ~ no_overshoot [0; 100; 200] [10; 12; 30] [150; 50] out 1.
Proof.
  eexists. split; [vm_compute; reflexivity|].
  intros H. destruct (H 0%nat) as [y [Hy Ey]]; [simpl; lia | reflexivity | reflexivity |].
  apply (f_equal (fun o => match o with Some (Val q) => q | _ => 0 end)) in Hy.
  cbn in Hy. rewrite <- Hy in Ey. unfold between in Ey.
  destruct Ey as [[_ C]|[_ C]]; vm_compute in C; apply C; reflexivity.
Qed.

End OutputExamples.

(** ** Arrays of columns *)

Lemma for_columns_nth {B : Type} (i_max j_max : nat)
  (body : nat -> nat -> result B) (cols : list (list B)) (j i : nat) :
  for_columns i_max j_max body = Ok cols ->
  (j < j_max)%nat -> (i < i_max)%nat ->
  exists row c,
    nth_error cols i = Some row /\ nth_error row j = Some c /\ body j i = Ok c.
Proof.
  unfold for_columns. intros H Hj Hi.
  destruct (mapM_nth _ _ _ i i H) as [row [Hrow Ei]].
  { rewrite nth_error_nth' with (d := 0%nat) by (rewrite length_seq; exact Hi).
    rewrite seq_nth by exact Hi. reflexivity. }
  destruct (mapM_nth _ _ _ j j Hrow) as [c [Hc Ej]].
  { rewrite nth_error_nth' with (d := 0%nat) by (rewrite length_seq; exact Hj).
    rewrite seq_nth by exact Hj. reflexivity. }
  exists row, c. repeat split; assumption.
Qed.

Lemma of_columns_nth {B : Type} (dflt : B) (k_n j_max i_max : nat)
  (cols : list (list (list B))) (k j i : nat) :
  (k < k_n)%nat -> (j < j_max)%nat -> (i < i_max)%nat ->
  nth i (nth j (nth k (of_columns dflt k_n j_max i_max cols) []) []) dflt
  = nth k (nth j (nth i cols []) []) dflt.
Proof.
  intros Hk Hj Hi. unfold of_columns.
  rewrite nth_indep with (d' := map (fun j0 => map (fun i0 => nth 0 (nth j0 (nth i0 cols []) []) dflt) (seq 0 i_max)) (seq 0 j_max))
    by (rewrite length_map, length_seq; exact Hk).
  rewrite (map_nth (fun k0 => map (fun j0 => map (fun i0 => nth k0 (nth j0 (nth i0 cols []) []) dflt) (seq 0 i_max)) (seq 0 j_max)) (seq 0 k_n) 0%nat k).
  rewrite seq_nth by exact Hk. cbn [Nat.add].
  rewrite nth_indep with (d' := map (fun i0 => nth k (nth 0 (nth i0 cols []) []) dflt) (seq 0 i_max))
    by (rewrite length_map, length_seq; exact Hj).
  rewrite (map_nth (fun j0 => map (fun i0 => nth k (nth j0 (nth i0 cols []) []) dflt) (seq 0 i_max)) (seq 0 j_max) 0%nat j).
  rewrite seq_nth by exact Hj. cbn [Nat.add].
  rewrite nth_indep with (d' := nth k (nth j (nth 0 cols []) []) dflt)
    by (rewrite length_map, length_seq; exact Hi).
  rewrite (map_nth (fun i0 => nth k (nth j (nth i0 cols []) []) dflt) (seq 0 i_max) 0%nat i).
  rewrite seq_nth by exact Hi. reflexivity.
Qed.

(** A call of [steffen_3d] that returns has run [steffen_column] on every
    column, and [output_data[k_out, j, i]] is entry [k_out] of the result
    for column [(j, i)]. *)
Lemma steffen_3d_column (input_data input_levels : array3 Q) (O : list Q)
  (lower : array2 Q) (flag : bool) (out : array3 Steffen.cell) (j i : nat) :
  steffen_3d input_data input_levels O lower flag = Ok out ->
  (j < shape1 input_data)%nat -> (i < shape2 input_data)%nat ->
  exists V L les col,
    column input_data j i = Ok V
    /\ column input_levels j i = Ok L
    /\ get2 lower j i = Ok les
    /\ Steffen.steffen_column L V les flag O = Ok col
    /\ forall k_out, (k_out < List.length O)%nat ->
         nth i (nth j (nth k_out out []) []) Steffen.NaN = nth k_out col Steffen.NaN.
Proof.
  unfold steffen_3d. intros H Hj Hi.
  destruct (for_columns _ _ _) as [cols|e] eqn:E; [|discriminate].
  cbn [bind] in H. apply Ok_inj in H. subst out.
  destruct (for_columns_nth _ _ _ _ j i E Hj Hi) as [row [col [Hrow [Hcol Hbody]]]].
  destruct (column input_data j i) as [V|] eqn:EV; [|discriminate].
  destruct (column input_levels j i) as [L|] eqn:EL; [|discriminate].
  destruct (get2 lower j i) as [les|] eqn:Eles; [|discriminate].
  cbn [bind] in Hbody.
  exists V, L, les, col. repeat split; try reflexivity; try assumption.
  intros k_out Hk. rewrite of_columns_nth by assumption.
  rewrite (nth_error_nth _ _ _ Hrow), (nth_error_nth _ _ _ Hcol). reflexivity.
Qed.

(** ** Steffen interpolation: the check of the levels *)

Section MonotonicityCheck.

Import Steffen SteffenFacts.
Open Scope Q_scope.

(** A negative difference between the first three levels raises. *)
Lemma first_differences_checked (L V : list Q) (les : Q) (flag : bool) (O : list Q) :
  (3 <= List.length L)%nat ->
  nth 1 L 0 - nth 0 L 0 < 0 \/ nth 2 L 0 - nth 1 L 0 < 0 ->
  steffen_column L V les flag O = Raise NonMonotonic.
Proof.
  intros H3 Hneg. unfold steffen_column, linear_slope, first_point.
  rewrite !(get_nth L _ 0) by lia. cbn [bind].
  destruct (Qltb_spec (nth 1 L 0 - nth 0 L 0) 0) as [H1|H1]; [reflexivity|].
  destruct (Qltb_spec (nth 2 L 0 - nth 1 L 0) 0) as [H2|H2]; [reflexivity|].
  exfalso. destruct Hneg; contradiction.
Qed.

(** C1 fails on the code.  The levels of the single column descend from 3
    to 2 between the nodes 2 and 3; the differences of the nodes after
    the first three are not checked, and the call returns output values
    for the column. *)
Theorem later_descent_not_raised :
  let input_levels := [[[0]]; [[1]]; [[3]]; [[2]]] in
  let input_data := [[[0]]; [[1]]; [[2]]; [[3]]] in
  (exists L, column input_levels 0 0 = Ok L /\ nth 3 L 0 - nth 2 L 0 < 0)
  /\ (exists y,
        steffen_3d input_data input_levels [5 # 2] [[-10]] false = Ok [[[Val y]]]
        /\ y == 123 # 64).
Proof.
  cbv zeta. split.
  - eexists. split; [vm_compute; reflexivity | reflexivity].
  - eexists. split; [vm_compute; reflexivity | reflexivity].
Qed.

End MonotonicityCheck.

(** ** Hydrostatic integration: the loop over the levels *)

Module HydrostaticFacts.

Import Hydrostatic.
Open Scope R_scope.

Lemma div_by_nonzero (x y : R) : y <> 0 -> div x y = Ok (x / y).
Proof.
  intros H. unfold div. destruct (Req_dec_T y 0); [contradiction | reflexivity].
Qed.

Lemma log_pos (x : R) : 0 < x -> log x = Some (ln x).
Proof.
  intros H. unfold log. destruct (Rlt_dec 0 x); [reflexivity | contradiction].
Qed.

Lemma ln_quotient (x y : R) : 0 < x -> 0 < y -> ln (x / y) = ln x - ln y.
Proof.
  intros Hx Hy. unfold Rdiv.
  rewrite ln_mult by (try assumption; apply Rinv_0_lt_compat; assumption).
  rewrite ln_Rinv by assumption. lra.
Qed.

Lemma rev_seq_S (m : nat) : rev (seq 0 (S m)) = m :: rev (seq 0 m).
Proof.
  rewrite seq_S. rewrite rev_app_distr. reflexivity.
Qed.

Section Column.

Variables p_s z_s : R.
Variables a_coeffs b_coeffs t q : list R.

(** What one run of the loop body has read and written. *)
Lemma level_inv (k : nat) (c c' : carry) (out out' : profile) :
  level p_s a_coeffs b_coeffs t q k (c, out) = Ok (c', out') ->
  let p_h_k := nth k a_coeffs 0 + nth k b_coeffs 0 * p_s in
  let p_f_k_plus := 0.5 * (p_h_k + p_h_k_plus c) in
  let tvrd := rd_over_rg * nth k t 0 * (1.0 + rv_over_rd_minus_one * nth k q 0) in
  (k < List.length a_coeffs)%nat /\ (k < List.length b_coeffs)%nat
  /\ (k < List.length t)%nat /\ (k < List.length q)%nat
  /\ p_f_k_plus <> 0 /\ p_h_k <> 0
  /\ c' = mkCarry p_h_k
            (add_scaled (height_h_k_plus c) tvrd (log (p_h_k_plus c / p_h_k)))
            (Some tvrd)
  /\ out' = mkProfile
              (add_scaled (height_h_k_plus c) tvrd (log (p_h_k_plus c / p_h_k))
               :: height_h out)
              (add_scaled (height_h_k_plus c) tvrd (log (p_h_k_plus c / p_f_k_plus))
               :: height_f out)
              (p_h_k :: p_h out)
              (p_f_k_plus :: p_f out).
Proof.
  unfold Hydrostatic.level. intros H.
  destruct (get a_coeffs k) as [ak|] eqn:Ea; [|discriminate].
  destruct (get b_coeffs k) as [bk|] eqn:Eb; [|discriminate].
  cbn [bind] in H.
  destruct (get t k) as [tk|] eqn:Et; [|discriminate].
  destruct (get q k) as [qk|] eqn:Eq; [|discriminate].
  cbn [bind] in H.
  apply get_Ok in Ea, Eb, Et, Eq.
  rewrite (nth_error_nth _ _ 0 Ea), (nth_error_nth _ _ 0 Eb),
          (nth_error_nth _ _ 0 Et), (nth_error_nth _ _ 0 Eq).
  assert (nth_error a_coeffs k <> None) as Ha by congruence.
  assert (nth_error b_coeffs k <> None) as Hb by congruence.
  assert (nth_error t k <> None) as Ht by congruence.
  assert (nth_error q k <> None) as Hq by congruence.
  apply nth_error_Some in Ha, Hb, Ht, Hq.
  unfold div in H.
  destruct (Req_dec_T (0.5 * (ak + bk * p_s + p_h_k_plus c)) 0) as [|N1]; [discriminate|].
  cbn [bind] in H.
  destruct (Req_dec_T (ak + bk * p_s) 0) as [|N2]; [discriminate|].
  cbn [bind] in H. apply Ok_inj in H. inversion H; subst c' out'.
  cbv zeta. repeat split; assumption.
Qed.

(** The loop body returns when its level exists and no pressure it
    divides by is zero. *)
Lemma level_returns (k : nat) (c : carry) (out : profile) :
  (k < List.length a_coeffs)%nat -> (k < List.length b_coeffs)%nat ->
  (k < List.length t)%nat -> (k < List.length q)%nat ->
  0 < p_h_k_plus c -> 0 < nth k a_coeffs 0 + nth k b_coeffs 0 * p_s ->
  exists c' out', level p_s a_coeffs b_coeffs t q k (c, out) = Ok (c', out').
Proof.
  intros Ha Hb Ht Hq Hp Hk. unfold Hydrostatic.level.
  rewrite (get_nth a_coeffs k 0), (get_nth b_coeffs k 0) by assumption.
  cbn [bind].
  rewrite (get_nth t k 0), (get_nth q k 0) by assumption.
  cbn [bind].
  rewrite div_by_nonzero by lra. cbn [bind].
  rewrite div_by_nonzero by lra. cbn [bind].
  eexists. eexists. reflexivity.
Qed.

(** The loop over the levels [m - 1, ..., 0] puts [m] entries in front of
    each array; those of [p_h] are the pressures of the coefficients. *)
Lemma levels_inv (m : nat) (c c' : carry) (out out' : profile) :
  levels p_s a_coeffs b_coeffs t q (rev (seq 0 m)) (c, out) = Ok (c', out') ->
  p_h out' = map (fun k => nth k a_coeffs 0 + nth k b_coeffs 0 * p_s) (seq 0 m)
             ++ p_h out
  /\ (exists hs, height_h out' = hs ++ height_h out /\ List.length hs = m)
  /\ (exists hs, height_f out' = hs ++ height_f out /\ List.length hs = m)
  /\ (exists ps, p_f out' = ps ++ p_f out /\ List.length ps = m)
  /\ ((1 <= m)%nat -> tvrd_over_rg c' <> None)
  /\ (m = 0%nat -> c' = c).
Proof.
  revert c out. induction m as [|m IH]; intros c out H.
  - simpl in H. apply Ok_inj in H. inversion H; subst.
    split; [reflexivity|].
    repeat split; try (exists []; split; reflexivity); lia.
  - rewrite rev_seq_S in H. cbn [Hydrostatic.levels] in H.
    destruct (level p_s a_coeffs b_coeffs t q m (c, out)) as [[c1 out1]|] eqn:E; [|discriminate].
    cbn [bind] in H.
    destruct (level_inv m c c1 out out1 E) as [_ [_ [_ [_ [_ [_ [Ec Eo]]]]]]].
    destruct (IH c1 out1 H) as [Hp [[hs [Hh Lh]] [[fs [Hf Lf]] [[ps [Hpf Lp]] [Ht H0]]]]].
    subst out1. cbn [p_h height_h height_f p_f] in *.
    split; [|split; [|split; [|split; [|split]]]].
    + rewrite Hp, seq_S, map_app, <- app_assoc. reflexivity.
    + eexists (hs ++ [_]). rewrite <- app_assoc. split; [exact Hh|].
      rewrite length_app. simpl. lia.
    + eexists (fs ++ [_]). rewrite <- app_assoc. split; [exact Hf|].
      rewrite length_app. simpl. lia.
    + eexists (ps ++ [_]). rewrite <- app_assoc. split; [exact Hpf|].
      rewrite length_app. simpl. lia.
    + intros _. destruct m as [|m'].
      * rewrite (H0 eq_refl), Ec. discriminate.
      * apply Ht. lia.
    + intros C. lia.
Qed.

Lemma levels_returns (m : nat) (c : carry) (out : profile) :
  (m <= List.length a_coeffs)%nat -> (m <= List.length b_coeffs)%nat ->
  (m <= List.length t)%nat -> (m <= List.length q)%nat ->
  0 < p_h_k_plus c ->
  (forall k, (k < m)%nat -> 0 < nth k a_coeffs 0 + nth k b_coeffs 0 * p_s) ->
  exists c' out',
    levels p_s a_coeffs b_coeffs t q (rev (seq 0 m)) (c, out) = Ok (c', out')
    /\ 0 < p_h_k_plus c'.
Proof.
  revert c out. induction m as [|m IH]; intros c out Ha Hb Ht Hq Hp Hpos.
  - exists c, out. split; [reflexivity | exact Hp].
  - rewrite rev_seq_S. cbn [Hydrostatic.levels].
    destruct (level_returns m c out) as [c1 [out1 E]]; try lia; try assumption.
    { apply Hpos. lia. }
    rewrite E. cbn [bind].
    destruct (level_inv m c c1 out out1 E) as [_ [_ [_ [_ [_ [_ [Ec _]]]]]]].
    apply IH; try lia.
    + rewrite Ec. cbn [p_h_k_plus]. apply Hpos. lia.
    + intros k Hk. apply Hpos. lia.
Qed.

(** What a call on a column that returns has produced. *)
Lemma hydrostatic_column_inv (res : profile) :
  hydrostatic_column p_s z_s a_coeffs b_coeffs t q = Ok res ->
  let K := List.length t in
  (2 <= K)%nat
  /\ p_h res = map (fun k => nth k a_coeffs 0 + nth k b_coeffs 0 * p_s)
                   (seq 0 (K - 1)) ++ [p_s]
  /\ (exists hs, height_h res = hs ++ [Some z_s] /\ List.length hs = (K - 1)%nat)
  /\ List.length (height_f res) = K
  /\ List.length (p_f res) = K.
Proof.
  unfold hydrostatic_column, k_max. intros H. cbv zeta.
  destruct (List.length t) as [|m] eqn:EK; [discriminate|].
  replace (S m - 1)%nat with m in * by lia.
  destruct (levels p_s a_coeffs b_coeffs t q (rev (seq 0 m)) _) as [[c out]|] eqn:E;
    [|discriminate].
  cbn [bind] in H.
  destruct (levels_inv m _ c _ out E)
    as [Hp [[hs [Hh Lh]] [[fs [Hf Lf]] [[ps [Hpf Lp]] [Ht H0]]]]].
  cbn [p_h height_h height_f p_f] in *.
  destruct (tvrd_over_rg c) as [tv|] eqn:Etv.
  - destruct (div (p_h_k_plus c) (0.5 * p_h_k_plus c)) as [r|]; [|discriminate].
    cbn [bind] in H. apply Ok_inj in H. subst res.
    cbn [p_h height_h height_f p_f].
    assert (2 <= S m)%nat as H2.
    { destruct m as [|m']; [|lia]. rewrite (H0 eq_refl) in Etv. discriminate. }
    split; [exact H2|]. split; [exact Hp|].
    split; [exists hs; split; assumption|].
    rewrite Hf, Hpf, !app_nil_r. simpl. lia.
  - discriminate.
Qed.

(** A call on a column of at least two levels returns when every
    half-level pressure is positive. *)
Lemma hydrostatic_column_returns :
  let K := List.length t in
  (2 <= K)%nat ->
  (K - 1 <= List.length a_coeffs)%nat -> (K - 1 <= List.length b_coeffs)%nat ->
  (K <= List.length q)%nat ->
  0 < p_s ->
  (forall k, (k < K - 1)%nat -> 0 < nth k a_coeffs 0 + nth k b_coeffs 0 * p_s) ->
  exists res, hydrostatic_column p_s z_s a_coeffs b_coeffs t q = Ok res.
Proof.
  cbv zeta. intros H2 Ha Hb Hq Hp Hpos.
  unfold hydrostatic_column, k_max.
  destruct (List.length t) as [|m] eqn:EK; [lia|].
  replace (S m - 1)%nat with m in * by lia.
  destruct (levels_returns m (mkCarry p_s (Some z_s) None)
              (mkProfile [Some z_s] [] [p_s] []))
    as [c [out [E Hc]]]; try lia; try assumption.
  rewrite E. cbn [bind].
  destruct (levels_inv m _ c _ out E) as [_ [_ [_ [_ [Ht _]]]]].
  destruct (tvrd_over_rg c) as [tv|]; [|exfalso; apply Ht; [lia | reflexivity]].
  rewrite div_by_nonzero by lra. cbn [bind]. eexists. reflexivity.
Qed.

End Column.

End HydrostaticFacts.

(** ** Hydrostatic integration: the surface values *)

Section SurfaceValues.

Import Hydrostatic HydrostaticFacts.
Open Scope R_scope.

Lemma surface_values (p_s z_s : R) (a_coeffs b_coeffs t q : list R) (res : profile) :
  hydrostatic_column p_s z_s a_coeffs b_coeffs t q = Ok res ->
  nth_error (p_h res) (List.length t - 1) = Some p_s
  /\ nth_error (height_h res) (List.length t - 1) = Some (Some z_s).
Proof.
  intros H.
  destruct (hydrostatic_column_inv p_s z_s a_coeffs b_coeffs t q res H)
    as [_ [Hp [[hs [Hh Lh]] _]]].
  rewrite Hp, Hh. split.
  - rewrite nth_error_app2 by (rewrite length_map, length_seq; lia).
    rewrite length_map, length_seq, Nat.sub_diag. reflexivity.
  - rewrite nth_error_app2 by lia.
    rewrite Lh, Nat.sub_diag. reflexivity.
Qed.

(** C6.  For every column, the half-level pressure at the surface index
    [K - 1] is the supplied surface pressure and the half-level height at
    the surface index is the supplied surface height, in every profile
    the call returns; and the call returns for every column of at least
    two levels whose half-level pressures are positive. *)
Theorem surface_boundary_fidelity (p_s z_s : R) (a_coeffs b_coeffs t q : list R) :
  let K := List.length t in
  (forall res,
     hydrostatic_column p_s z_s a_coeffs b_coeffs t q = Ok res ->
     nth_error (p_h res) (K - 1) = Some p_s
     /\ nth_error (height_h res) (K - 1) = Some (Some z_s))
  /\ ((2 <= K)%nat ->
      (K - 1 <= List.length a_coeffs)%nat -> (K - 1 <= List.length b_coeffs)%nat ->
      (K <= List.length q)%nat -> 0 < p_s ->
      (forall k, (k < K - 1)%nat -> 0 < nth k a_coeffs 0 + nth k b_coeffs 0 * p_s) ->
      exists res, hydrostatic_column p_s z_s a_coeffs b_coeffs t q = Ok res).
Proof.
  cbv zeta. split.
  - intros res H. exact (surface_values p_s z_s a_coeffs b_coeffs t q res H).
  - apply hydrostatic_column_returns.
Qed.

End SurfaceValues.

Lemma surface_boundary_fidelity_witness :
  exists res,
    Hydrostatic.hydrostatic_column 100000 12 [20000; 4]%R [0; 0.99]%R
      [220; 280; 288]%R [0; 0.01; 0.01]%R = Ok res
    /\ nth_error (Hydrostatic.p_h res) 2 = Some 100000%R
    /\ nth_error (Hydrostatic.height_h res) 2 = Some (Some 12%R).
Proof.
  destruct (surface_boundary_fidelity 100000 12 [20000; 4]%R [0; 0.99]%R
              [220; 280; 288]%R [0; 0.01; 0.01]%R) as [Hval Hret].
  destruct Hret as [res E].
  - simpl. lia.
  - simpl. lia.
  - simpl. lia.
  - simpl. lia.
  - lra.
  - intros k Hk. simpl in Hk.
    destruct k as [|[|k]]; simpl; try lra. lia.
  - exists res. split; [exact E|]. apply (Hval res E).
Defined.

(** ** Hydrostatic integration: the half-level pressures *)

Section HalfPressures.

Import Hydrostatic HydrostaticFacts.
Open Scope R_scope.

Lemma nondecreasing_map_seq (g : nat -> R) (n s : nat) :
  (forall k, (s <= k)%nat -> (S k < s + n)%nat -> g k <= g (S k)) ->
  nondecreasing (map g (seq s n)).
Proof.
  revert s. induction n as [|n IH]; intros s H; [exact I|].
  destruct n as [|n]; [exact I|].
  cbn [seq map nondecreasing]. split.
  - apply H; lia.
  - apply (IH (S s)). intros k H1 H2. apply H; lia.
Qed.

(** The half-level pressures of a profile. *)
Lemma p_h_half_pressure (p_s z_s : R) (a b t q : list R) (res : profile) :
  hydrostatic_column p_s z_s a b t q = Ok res ->
  p_h res = map (half_pressure a b (List.length t) p_s) (seq 0 (List.length t)).
Proof.
  intros H.
  destruct (hydrostatic_column_inv p_s z_s a b t q res H) as [H2 [Hp _]].
  rewrite Hp.
  replace (List.length t) with (S (List.length t - 1)) at 3 by lia.
  rewrite seq_S, map_app. cbn [map Nat.add]. f_equal.
  - apply map_ext_in. intros k Hk. apply in_seq in Hk.
    unfold half_pressure.
    replace (k <? List.length t - 1)%nat with true
      by (symmetry; apply Nat.ltb_lt; lia).
    reflexivity.
  - unfold half_pressure. rewrite Nat.ltb_irrefl. reflexivity.
Qed.

(** C8, amended.  For every column of at least two levels with surface
    pressure [p_surf >= p0], where [p0] is a surface pressure at which the
    coefficients give positive half-level pressures that do not decrease
    from the top level to the surface, and the factors [b[k]] are not
    negative and do not decrease from the top level to 1 at the surface:
    the call returns, and the half-level pressures [p_h[k] = a[k] + b[k] *
    p_surf] for [k < K - 1], [p_h[K - 1] = p_surf] do not decrease from the
    top level (index 0) to the surface level (index [K - 1]). *)
Theorem half_pressures_nondecreasing (p_s z_s p0 : R) (a b t q : list R) :
  let K := List.length t in
  (2 <= K)%nat ->
  (K - 1 <= List.length a)%nat -> (K - 1 <= List.length b)%nat ->
  (K <= List.length q)%nat ->
  p0 <= p_s ->
  0 < half_pressure a b K p0 0 ->
  0 <= half_factor b K 0 ->
  (forall k, (S k < K)%nat ->
     half_pressure a b K p0 k <= half_pressure a b K p0 (S k)
     /\ half_factor b K k <= half_factor b K (S k)) ->
  exists res,
    hydrostatic_column p_s z_s a b t q = Ok res /\ nondecreasing (p_h res).
Proof.
  cbv zeta. intros H2 Ha Hb Hq Hp0 Htop Hb0 Hstep.
  set (K := List.length t) in *.
  assert (forall k, (k < K)%nat ->
            half_pressure a b K p_s k
            = half_pressure a b K p0 k + half_factor b K k * (p_s - p0)) as Hlin.
  { intros k Hk. unfold half_pressure, half_factor.
    destruct (k <? K - 1)%nat; lra. }
  assert (forall k, (k < K)%nat ->
            0 < half_pressure a b K p0 k /\ 0 <= half_factor b K k) as Hall.
  { induction k as [|k IH]; intros Hk; [split; assumption|].
    destruct (IH ltac:(lia)) as [I1 I2]. destruct (Hstep k Hk) as [S1 S2].
    split; lra. }
  assert (forall k, (k < K)%nat -> 0 < half_pressure a b K p_s k) as Hpos.
  { intros k Hk. rewrite Hlin by exact Hk.
    destruct (Hall k Hk) as [I1 I2]. nra. }
  destruct (hydrostatic_column_returns p_s z_s a b t q) as [res E];
    try assumption.
  - specialize (Hpos (K - 1)%nat ltac:(lia)). unfold half_pressure in Hpos.
    rewrite Nat.ltb_irrefl in Hpos. exact Hpos.
  - intros k Hk. fold K in Hk. specialize (Hpos k ltac:(lia)).
    unfold half_pressure in Hpos.
    replace (k <? K - 1)%nat with true in Hpos
      by (symmetry; apply Nat.ltb_lt; lia).
    exact Hpos.
  - exists res. split; [exact E|].
    rewrite (p_h_half_pressure p_s z_s a b t q res E). fold K.
    apply nondecreasing_map_seq. intros k _ Hk.
    rewrite !Hlin by lia.
    destruct (Hstep k ltac:(lia)) as [S1 S2]. nra.
Qed.

End HalfPressures.

Lemma half_pressures_nondecreasing_witness :
  exists res,
    Hydrostatic.hydrostatic_column 100000 12 [20000; 4]%R [0; 0.99]%R
      [220; 280; 288]%R [0; 0.01; 0.01]%R = Ok res
    /\ Hydrostatic.nondecreasing (Hydrostatic.p_h res).
Proof.
  apply (half_pressures_nondecreasing 100000 12 50000 [20000; 4]%R [0; 0.99]%R
           [220; 280; 288]%R [0; 0.01; 0.01]%R).
  - simpl. lia.
  - simpl. lia.
  - simpl. lia.
  - simpl. lia.
  - lra.
  - unfold Hydrostatic.half_pressure. simpl. lra.
  - unfold Hydrostatic.half_factor. simpl. lra.
  - intros k Hk. simpl in Hk.
    unfold Hydrostatic.half_pressure, Hydrostatic.half_factor.
    destruct k as [|[|k]]; simpl; [split; lra | split; lra | lia].
Defined.

(** C8 as stated fails.  With temperature 250 > 0, humidity 0 and surface
    pressure 1 > 0, the coefficients [a = 4], [b = 0.99] of the level above
    the surface give the half-level pressure 4.99 above the surface
    pressure 1; the factors [b] do not decrease and the last row of the
    table is that of the surface. *)
Lemma half_pressures_counterexample :
  Forall (fun T => 0 < T)%R [250; 250]%R
  /\ Forall (fun qv => 0 <= qv)%R [0; 0]%R
  /\ (0 < 1)%R
  /\ exists res,
       Hydrostatic.hydrostatic_column 1 0 [4; 0]%R [0.99; 1]%R
         [250; 250]%R [0; 0]%R = Ok res
       /\ Hydrostatic.p_h res = [4 + 0.99 * 1; 1]%R
       /\ ~ Hydrostatic.nondecreasing (Hydrostatic.p_h res).
Proof.
  split; [repeat constructor; lra|]. split; [repeat constructor; lra|].
  split; [lra|].
  destruct (HydrostaticFacts.hydrostatic_column_returns 1 0 [4; 0]%R [0.99; 1]%R
              [250; 250]%R [0; 0]%R) as [res E].
  - simpl. lia.
  - simpl. lia.
  - simpl. lia.
  - simpl. lia.
  - lra.
  - intros k Hk. simpl in Hk. destruct k as [|k]; [simpl; lra | lia].
  - exists res. split; [exact E|].
    rewrite (p_h_half_pressure _ _ _ _ _ _ res E).
    unfold Hydrostatic.half_pressure. simpl.
    split; [reflexivity|]. intros [C _]. lra.
Qed.

(** ** Hydrostatic integration: the isothermal column *)

Section Isothermal.

Import Hydrostatic HydrostaticFacts.
Open Scope R_scope.

Variables p_s z_s T : R.
Variables a_coeffs b_coeffs t q : list R.

Hypothesis p_s_pos : 0 < p_s.

(** The height of the hydrostatic, isothermal, dry atmosphere at the
    pressure [p]. *)
Let iso (h : height) (p : R) : Prop :=
  0 < p /\ h = Some (z_s + rd * T / rg * ln (p_s / p)).

Lemma levels_isothermal (m : nat) (c c' : carry) (out out' : profile) :
  levels p_s a_coeffs b_coeffs t q (rev (seq 0 m)) (c, out) = Ok (c', out') ->
  (forall k, (k < m)%nat ->
     nth k t 0 = T /\ nth k q 0 = 0
     /\ 0 < nth k a_coeffs 0 + nth k b_coeffs 0 * p_s) ->
  iso (height_h_k_plus c) (p_h_k_plus c) ->
  Forall2 iso (height_h out) (p_h out) ->
  iso (height_h_k_plus c') (p_h_k_plus c')
  /\ Forall2 iso (height_h out') (p_h out').
Proof.
  revert c out. induction m as [|m IH]; intros c out H Hcol Hc Hout.
  - simpl in H. apply Ok_inj in H. inversion H; subst. split; assumption.
  - rewrite rev_seq_S in H. cbn [Hydrostatic.levels] in H.
    destruct (level p_s a_coeffs b_coeffs t q m (c, out)) as [[c1 out1]|] eqn:E;
      [|discriminate].
    cbn [bind] in H.
    destruct (level_inv p_s a_coeffs b_coeffs t q m c c1 out out1 E)
      as [_ [_ [_ [_ [_ [_ [Ec Eo]]]]]]].
    destruct (Hcol m ltac:(lia)) as [Et [Eq Hpm]].
    destruct Hc as [Hp Hh].
    assert (iso (height_h_k_plus c1) (p_h_k_plus c1)) as Hc1.
    { rewrite Ec. cbn [height_h_k_plus p_h_k_plus]. split; [exact Hpm|].
      rewrite Hh, Et, Eq.
      rewrite log_pos by (apply Rdiv_lt_0_compat; assumption).
      cbn [add_scaled]. f_equal.
      rewrite !ln_quotient by assumption.
      assert (rg <> 0) as Hrg by (unfold rg; lra).
      replace (1.0 + rv_over_rd_minus_one * 0) with 1 by lra.
      unfold rd_over_rg. field. exact Hrg. }
    apply (IH c1 out1 H).
    + intros k Hk. apply Hcol. lia.
    + exact Hc1.
    + rewrite Eo. cbn [height_h p_h]. constructor; [|exact Hout].
      rewrite Ec in Hc1. exact Hc1.
Qed.

End Isothermal.

Lemma Forall2_nth_R (P : Hydrostatic.height -> R -> Prop)
  (hs : list Hydrostatic.height) (ps : list R) (k : nat) :
  Forall2 P hs ps -> (k < List.length ps)%nat ->
  P (nth k hs None) (nth k ps 0%R).
Proof.
  intros H. revert k. induction H as [|h p hs ps Hhp _ IH]; intros k Hk.
  - simpl in Hk. lia.
  - destruct k as [|k]; [exact Hhp|]. simpl. apply IH. simpl in Hk. lia.
Qed.

Section IsothermalColumn.

Import Hydrostatic HydrostaticFacts.
Open Scope R_scope.

Lemma nth_repeat_R (x : R) (n k : nat) : (k < n)%nat -> nth k (repeat x n) 0 = x.
Proof.
  revert k. induction n as [|n IH]; intros k Hk; [lia|].
  destruct k as [|k]; [reflexivity|]. simpl. apply IH. lia.
Qed.

(** C7.  For every column with constant temperature 250 K, zero specific
    humidity, surface pressure 100000 Pa and surface height 0 m, whose
    half-level pressures [a[k] + b[k] * 100000] are positive, the call
    returns and the height at every half level is [(Rd * T / g) *
    ln(100000 / p)], where [p] is the pressure of that half level, [Rd =
    287.06] and [g = 9.80665]. *)
Theorem isothermal_heights (a_coeffs b_coeffs : list R) (K : nat) :
  (2 <= K)%nat ->
  (K - 1 <= List.length a_coeffs)%nat -> (K - 1 <= List.length b_coeffs)%nat ->
  (forall k, (k < K - 1)%nat ->
     0 < nth k a_coeffs 0 + nth k b_coeffs 0 * 100000) ->
  exists res,
    hydrostatic_column 100000 0 a_coeffs b_coeffs (repeat 250 K) (repeat 0 K)
    = Ok res
    /\ List.length (p_h res) = K
    /\ forall k, (k < K)%nat ->
         nth k (height_h res) None
         = Some (287.06 * 250 / 9.80665 * ln (100000 / nth k (p_h res) 0)).
Proof.
  intros H2 Ha Hb Hpos.
  destruct (hydrostatic_column_returns 100000 0 a_coeffs b_coeffs
              (repeat 250 K) (repeat 0 K)) as [res E];
    rewrite ?repeat_length; try assumption; try lia; try lra.
  exists res. split; [exact E|].
  pose proof (p_h_half_pressure _ _ _ _ _ _ res E) as Hp.
  rewrite repeat_length in Hp.
  split; [rewrite Hp, length_map, length_seq; reflexivity|].
  unfold hydrostatic_column, k_max in E. rewrite repeat_length in E.
  destruct K as [|m]; [lia|]. replace (S m - 1)%nat with m in * by lia.
  destruct (levels _ _ _ _ _ (rev (seq 0 m)) _) as [[c out]|] eqn:EL;
    [|discriminate].
  cbn [bind] in E.
  destruct (tvrd_over_rg c) as [tv|]; [|discriminate].
  destruct (div (p_h_k_plus c) (0.5 * p_h_k_plus c)) as [r|]; [|discriminate].
  cbn [bind] in E. apply Ok_inj in E. subst res. cbn [p_h height_h] in *.
  destruct (levels_isothermal 100000 0 250 a_coeffs b_coeffs
              (repeat 250 (S m)) (repeat 0 (S m)) ltac:(lra) m _ c _ out EL)
    as [_ Hall].
  - intros k Hk. rewrite !nth_repeat_R by lia.
    split; [reflexivity|]. split; [reflexivity|]. apply Hpos. exact Hk.
  - cbn [height_h_k_plus p_h_k_plus]. split; [lra|].
    f_equal. replace (100000 / 100000) with 1 by (field; lra).
    rewrite ln_1. ring.
  - cbn [height_h p_h]. constructor; [|constructor]. split; [lra|].
    f_equal. replace (100000 / 100000) with 1 by (field; lra).
    rewrite ln_1. ring.
  - intros k Hk.
    assert (k < List.length (p_h out))%nat as Hk'
      by (rewrite Hp, length_map, length_seq; exact Hk).
    destruct (Forall2_nth_R _ _ _ k Hall Hk') as [_ Hh].
    rewrite Hh. f_equal. unfold rd, rg. ring.
Qed.

End IsothermalColumn.

Lemma isothermal_heights_witness :
  exists res,
    Hydrostatic.hydrostatic_column 100000 0 [20000; 4]%R [0; 0.99]%R
      (repeat 250%R 3) (repeat 0%R 3) = Ok res
    /\ List.length (Hydrostatic.p_h res) = 3%nat
    /\ forall k, (k < 3)%nat ->
         nth k (Hydrostatic.height_h res) None
         = Some (287.06 * 250 / 9.80665
                 * ln (100000 / nth k (Hydrostatic.p_h res) 0))%R.
Proof.
  apply (isothermal_heights [20000; 4]%R [0; 0.99]%R 3).
  - lia.
  - simpl. lia.
  - simpl. lia.
  - intros k Hk. destruct k as [|[|k]]; simpl; try lra. lia.
Defined.

(** ** [calculate_heights_and_pressures] on arrays *)

Lemma nth_map_map {A B : Type} (f : A -> list B) (cols : list (list A))
  (row : list A) (x : A) (j i : nat) :
  nth_error cols i = Some row -> nth_error row j = Some x ->
  nth j (nth i (map (map f) cols) []) [] = f x.
Proof.
  intros Hrow Hx.
  assert (nth_error (map (map f) cols) i = Some (map f row)) as H1
    by (rewrite nth_error_map, Hrow; reflexivity).
  rewrite (nth_error_nth _ _ _ H1).
  assert (nth_error (map f row) j = Some (f x)) as H2
    by (rewrite nth_error_map, Hx; reflexivity).
  rewrite (nth_error_nth _ _ _ H2). reflexivity.
Qed.

(** A call of [calculate_heights_and_pressures] that returns has run
    [hydrostatic_column] on every column, of as many levels as [t_field]
    has, and the four arrays hold the four parts of its results. *)
Lemma calculate_column (p_surf height_surf : array2 R) (a_coeffs b_coeffs : list R)
  (t_field q_field : array3 R)
  (height_h height_f : array3 Hydrostatic.height) (p_h p_f : array3 R)
  (j i : nat) :
  calculate_heights_and_pressures p_surf height_surf a_coeffs b_coeffs
    t_field q_field = Ok (height_h, height_f, p_h, p_f) ->
  (j < shape1 t_field)%nat -> (i < shape2 t_field)%nat ->
  exists p_s z_s t q res,
    get2 p_surf j i = Ok p_s
    /\ get2 height_surf j i = Ok z_s
    /\ column t_field j i = Ok t
    /\ List.length t = List.length t_field
    /\ column q_field j i = Ok q
    /\ Hydrostatic.hydrostatic_column p_s z_s a_coeffs b_coeffs t q = Ok res
    /\ forall k, (k < List.length t_field)%nat ->
         nth i (nth j (nth k height_h []) []) None
         = nth k (Hydrostatic.height_h res) None
         /\ nth i (nth j (nth k height_f []) []) None
            = nth k (Hydrostatic.height_f res) None
         /\ nth i (nth j (nth k p_h []) []) 0%R = nth k (Hydrostatic.p_h res) 0%R
         /\ nth i (nth j (nth k p_f []) []) 0%R = nth k (Hydrostatic.p_f res) 0%R.
Proof.
  unfold calculate_heights_and_pressures. intros H Hj Hi.
  destruct (for_columns _ _ _) as [cols|e] eqn:E; [|discriminate].
  cbn [bind] in H. apply Ok_inj in H.
  destruct (for_columns_nth _ _ _ _ j i E Hj Hi) as [row [res [Hrow [Hres Hbody]]]].
  destruct (get2 p_surf j i) as [p_s|] eqn:Ep; [|discriminate].
  destruct (get2 height_surf j i) as [z_s|] eqn:Ez; [|discriminate].
  destruct (column t_field j i) as [t|] eqn:Et; [|discriminate].
  destruct (column q_field j i) as [q|] eqn:Eq; [|discriminate].
  cbn [bind] in Hbody.
  exists p_s, z_s, t, q, res.
  repeat (split; [first [reflexivity | assumption | exact (mapM_length _ _ _ Et)]|]).
  intros k Hk. inversion H; subst.
  rewrite !of_columns_nth by assumption.
  rewrite !(nth_map_map _ cols row res j i Hrow Hres).
  repeat split; reflexivity.
Qed.

(** The surface values of C6, in the arrays of
    [calculate_heights_and_pressures]. *)
Lemma calculate_surface_values (p_surf height_surf : array2 R)
  (a_coeffs b_coeffs : list R) (t_field q_field : array3 R)
  (height_h height_f : array3 Hydrostatic.height) (p_h p_f : array3 R)
  (j i : nat) :
  calculate_heights_and_pressures p_surf height_surf a_coeffs b_coeffs
    t_field q_field = Ok (height_h, height_f, p_h, p_f) ->
  (j < shape1 t_field)%nat -> (i < shape2 t_field)%nat ->
  let k_max := List.length t_field in
  get2 p_surf j i = Ok (nth i (nth j (nth (k_max - 1) p_h []) []) 0%R)
  /\ exists z_s,
       get2 height_surf j i = Ok z_s
       /\ nth i (nth j (nth (k_max - 1) height_h []) []) None = Some z_s.
Proof.
  intros H Hj Hi. cbv zeta.
  destruct (calculate_column _ _ _ _ _ _ _ _ _ _ j i H Hj Hi)
    as [p_s [z_s [t [q [res [Ep [Ez [Et [Lt [Eq [Eres Hk]]]]]]]]]]].
  destruct (surface_values p_s z_s a_coeffs b_coeffs t q res Eres) as [Hp Hh].
  destruct (HydrostaticFacts.hydrostatic_column_inv _ _ _ _ _ _ res Eres) as [H2 _].
  rewrite Lt in Hp, Hh, H2.
  destruct (Hk (List.length t_field - 1)%nat ltac:(lia)) as [Ehh [_ [Eph _]]].
  rewrite Eph, Ehh.
  rewrite (nth_error_nth _ _ _ Hp), (nth_error_nth _ _ _ Hh).
  split; [exact Ep|]. exists z_s. split; [exact Ez | reflexivity].
Qed.

(** ** [era5_on_height_levels]: the lower-extrapolation boundary *)

Section ExtrapolationBoundary.

Import Steffen SteffenFacts SlopeFacts CursorFacts ColumnFacts BracketFacts Era5.
Open Scope Q_scope.

Lemma sea_mask_iff (h l : Q) :
  sea_mask h l = true <-> 1.0e-6 < h /\ h < 5 /\ l < 0.2.
Proof.
  unfold sea_mask.
  destruct (Qltb_spec h 5.0) as [H1|H1], (Qltb_spec 1.0e-6 h) as [H2|H2],
           (Qltb_spec l 0.2) as [H3|H3]; simpl; split; intros H;
    try discriminate; try reflexivity;
    try (repeat split; lra); exfalso; lra.
Qed.

(** The array of boundaries holds, at every horizontal point, the
    boundary of that point. *)
Lemma lower_extrapolation_with_mask_point (height_h_surf lsm : array2 Q)
  (j i : nat) (h l : Q) :
  get2 height_h_surf j i = Ok h -> get2 lsm j i = Ok l ->
  get2 (lower_extrapolation_with_mask height_h_surf lsm) j i
  = Ok (lower_extrapolation h l).
Proof.
  unfold get2, lower_extrapolation_with_mask, map2. intros Hh Hl.
  destruct (get height_h_surf j) as [hrow|] eqn:Ehr; [|discriminate].
  destruct (get lsm j) as [lrow|] eqn:Elr; [|discriminate].
  cbn [bind] in *.
  apply get_Ok in Ehr, Elr, Hh, Hl.
  assert (nth_error (combine height_h_surf lsm) j = Some (hrow, lrow)) as Hrow.
  { clear Hh Hl. revert lsm j Ehr Elr.
    induction height_h_surf as [|r rs IH]; intros ls j Ehr Elr.
    - destruct j; discriminate.
    - destruct ls as [|s ls]; [destruct j; discriminate|].
      destruct j as [|j]; simpl in *.
      + congruence.
      + apply IH; assumption. }
  assert (nth_error (combine hrow lrow) i = Some (h, l)) as Hcell.
  { clear Hrow Ehr Elr. revert lrow i Hh Hl.
    induction hrow as [|r rs IH]; intros ls i Hh Hl.
    - destruct i; discriminate.
    - destruct ls as [|s ls]; [destruct i; discriminate|].
      destruct i as [|i]; simpl in *.
      + congruence.
      + apply IH; assumption. }
  unfold get. rewrite nth_error_map, Hrow. cbn [option_map bind fst snd].
  rewrite nth_error_map, Hcell. reflexivity.
Qed.

(** With the boundary of a near-surface ocean point, the output at
    height 0 below the first level is the first value. *)
Lemma flat_to_height_zero (L V : list Q) :
  ascending L -> List.length L = List.length V -> (3 <= List.length V)%nat ->
  0 < nth 0 L 0 ->
  steffen_column L V (- 1.0e-6) false [0] = Ok [Val (nth 0 V 0)].
Proof.
  intros HA HS H3 H0.
  destruct (linear_slope_total L V HA HS H3) as [ds [E [Hlen _]]].
  unfold steffen_column. rewrite E. cbn [bind output_loop].
  rewrite (advance_eq L V HS) by (unfold k_max; lia). cbn [bind Nat.add skipn].
  rewrite (bracket_below L V HS 0 H0).
  rewrite (output_point_below L V HS (- 1.0e-6) false H3 ds Hlen).
  reflexivity.
Qed.

(** C9, amended.  The lower-extrapolation boundary at each horizontal
    point is that column's lowest half-level height, and is the small
    negative offset -1e-6 instead exactly when the lowest half-level height
    lies within the open interval (1e-6 m, 5 m) and the land-sea fraction
    is below 0.2; a point with lowest half-level height 2 m and land-sea
    fraction 0.05 receives the offset, with which the output at height 0
    below the first level is the first value. *)
Theorem near_surface_ocean_boundary (height_h_surf lsm : array2 Q)
  (j i : nat) (h l : Q) :
  get2 height_h_surf j i = Ok h -> get2 lsm j i = Ok l ->
  exists x,
    get2 (lower_extrapolation_with_mask height_h_surf lsm) j i = Ok x
    /\ (1.0e-6 < h /\ h < 5 /\ l < 0.2 -> x = - 1.0e-6)
    /\ (~ (1.0e-6 < h /\ h < 5 /\ l < 0.2) -> x = h)
    /\ (h == 2 -> l == 0.05 ->
        x = - 1.0e-6
        /\ forall L V,
             ascending L -> List.length L = List.length V ->
             (3 <= List.length V)%nat -> 0 < nth 0 L 0 ->
             steffen_column L V x false [0] = Ok [Val (nth 0 V 0)]).
Proof.
  intros Hh Hl. exists (lower_extrapolation h l).
  split; [apply lower_extrapolation_with_mask_point; assumption|].
  unfold lower_extrapolation.
  destruct (sea_mask h l) eqn:E.
  - apply sea_mask_iff in E.
    split; [reflexivity|]. split; [intros C; contradiction|].
    intros _ _. split; [reflexivity|]. apply flat_to_height_zero.
  - assert (~ (1.0e-6 < h /\ h < 5 /\ l < 0.2)) as N.
    { intros C. apply sea_mask_iff in C. congruence. }
    split; [intros C; contradiction|]. split; [reflexivity|].
    intros E2 E005. exfalso. apply N. rewrite E2, E005.
    repeat split; reflexivity.
Qed.

End ExtrapolationBoundary.

Lemma near_surface_ocean_boundary_witness :
  exists x,
    get2 (Era5.lower_extrapolation_with_mask [[2]]%Q [[0.05]]%Q) 0 0 = Ok x
    /\ x = (- 1.0e-6)%Q
    /\ Steffen.steffen_column [10; 100; 500]%Q [10; 12; 9]%Q x false [0]%Q
       = Ok [Steffen.Val 10%Q].
Proof.
  destruct (near_surface_ocean_boundary [[2]]%Q [[0.05]]%Q 0 0 2%Q 0.05%Q
              eq_refl eq_refl) as [x [E [_ [_ H]]]].
  destruct H as [Ex Hflat]; [reflexivity | reflexivity |].
  exists x. split; [exact E|]. split; [exact Ex|].
  apply (Hflat [10; 100; 500]%Q [10; 12; 9]%Q).
  - simpl. repeat split; reflexivity.
  - reflexivity.
  - simpl. lia.
  - reflexivity.
Defined.

(** C9 as stated fails.  The lowest half-level height 5e-7 m lies within
    the open interval (0, 5 m) and the land-sea fraction 0.05 is below 0.2,
    and the boundary is the height itself, not a negative offset. *)
Lemma near_surface_ocean_counterexample :
  (0 < 5.0e-7 /\ 5.0e-7 < 5 /\ 0.05 < 0.2)%Q
  /\ exists x,
       get2 (Era5.lower_extrapolation_with_mask [[5.0e-7]]%Q [[0.05]]%Q) 0 0 = Ok x
       /\ (x == 5.0e-7)%Q /\ ~ (x < 0)%Q.
Proof.
  split; [repeat split; reflexivity|].
  eexists. split; [vm_compute; reflexivity|].
  split; [reflexivity | discriminate].
Qed.

(** ** [era5_on_height_levels]: the check of the heights *)

Module CheckFacts.

Import Steffen Era5.

(** Nothing but the check of the heights raises [HeightsNotFloat]. *)
Lemma bind_quiet {A B : Type} (m : result A) (f : A -> result B) :
  m <> Raise HeightsNotFloat -> (forall a, f a <> Raise HeightsNotFloat) ->
  bind m f <> Raise HeightsNotFloat.
Proof.
  intros Hm Hf. destruct m as [a|e]; simpl; [apply Hf|].
  intros C. apply Hm. congruence.
Qed.

Lemma mapM_quiet {A B : Type} (f : A -> result B) (xs : list A) :
  (forall x, f x <> Raise HeightsNotFloat) ->
  mapM f xs <> Raise HeightsNotFloat.
Proof.
  intros Hf. induction xs as [|x xs IH]; simpl; [discriminate|].
  apply bind_quiet; [apply Hf|]. intros y.
  apply bind_quiet; [exact IH|]. intros ys. discriminate.
Qed.

Lemma get_quiet {A : Type} (l : list A) (k : nat) :
  get l k <> Raise HeightsNotFloat.
Proof. unfold get. destruct (nth_error l k); discriminate. Qed.

Lemma get2_quiet {A : Type} (a : array2 A) (j i : nat) :
  get2 a j i <> Raise HeightsNotFloat.
Proof.
  unfold get2. apply bind_quiet; [apply get_quiet|]. intros row. apply get_quiet.
Qed.

Lemma column_quiet {A : Type} (a : array3 A) (j i : nat) :
  column a j i <> Raise HeightsNotFloat.
Proof. unfold column. apply mapM_quiet. intros plane. apply get2_quiet. Qed.

Lemma div_quiet (x y : Q) : div x y <> Raise HeightsNotFloat.
Proof. unfold div. destruct (Qeq_bool y 0); discriminate. Qed.

Lemma lookup_quiet {A : Type} (name : string) (vars : list (string * A)) :
  lookup name vars <> Raise HeightsNotFloat.
Proof.
  induction vars as [|[n v] vars IH]; simpl; [discriminate|].
  destruct (String.eqb n name); [discriminate | exact IH].
Qed.

Lemma get_last_quiet {A : Type} (a : list A) :
  get_last a <> Raise HeightsNotFloat.
Proof. unfold get_last. destruct a; [discriminate | apply get_quiet]. Qed.

Ltac quiet :=
  repeat first
    [ apply get_quiet | apply get2_quiet | apply column_quiet | apply div_quiet
    | apply lookup_quiet | apply get_last_quiet
    | discriminate
    | apply bind_quiet; [|intros ?]
    | match goal with
      | |- (if ?b then _ else _) <> _ => destruct b
      | |- (let _ := _ in _) <> _ => cbv zeta
      end ].

Lemma advance_quiet (L V : list Q) (x : Q) (fuel k : nat) :
  advance L V x k fuel <> Raise HeightsNotFloat.
Proof.
  revert k. induction fuel as [|fuel IH]; intros k; simpl; [discriminate|].
  destruct (k <? k_max V)%nat; [|discriminate].
  apply bind_quiet; [apply get_quiet|]. intros l.
  destruct (Qltb l x); [apply IH | discriminate].
Qed.

Lemma output_loop_quiet (L V : list Q) (les : Q) (flag : bool)
  (ds outs : list Q) (k : nat) :
  output_loop L V les flag ds outs k <> Raise HeightsNotFloat.
Proof.
  revert k. induction outs as [|x outs IH]; intros k; simpl; [discriminate|].
  apply bind_quiet; [apply advance_quiet|]. intros k'.
  apply bind_quiet; [unfold output_point; quiet|]. intros c.
  apply bind_quiet; [apply IH|]. intros cs. discriminate.
Qed.

Lemma steffen_column_quiet (L V : list Q) (les : Q) (flag : bool) (O : list Q) :
  steffen_column L V les flag O <> Raise HeightsNotFloat.
Proof.
  unfold steffen_column. apply bind_quiet; [|intros ds; apply output_loop_quiet].
  unfold linear_slope.
  apply bind_quiet; [unfold first_point; quiet|]. intros d0.
  apply bind_quiet; [|intros dm].
  - apply mapM_quiet. intros k. unfold intermediate_point. quiet.
  - apply bind_quiet; [unfold last_point; quiet|]. intros dl. discriminate.
Qed.

Lemma steffen_3d_quiet (input_data input_levels : array3 Q) (O : list Q)
  (lower : array2 Q) (flag : bool) :
  steffen_3d input_data input_levels O lower flag <> Raise HeightsNotFloat.
Proof.
  unfold steffen_3d. cbv zeta. apply bind_quiet; [|intros cols; discriminate].
  unfold for_columns. apply mapM_quiet. intros i. apply mapM_quiet. intros j.
  apply bind_quiet; [apply column_quiet | intros V].
  apply bind_quiet; [apply column_quiet | intros L].
  apply bind_quiet; [apply get2_quiet | intros les].
  apply steffen_column_quiet.
Qed.

Lemma remap_time_quiet (ds : dataset) (heights : list Q) (time_index : nat) :
  remap_time ds heights time_index <> Raise HeightsNotFloat.
Proof.
  unfold remap_time.
  do 7 (apply bind_quiet; [quiet | intros ?]).
  apply mapM_quiet. intros [variable values].
  apply bind_quiet; [apply get_quiet | intros values_t].
  apply bind_quiet; [apply steffen_3d_quiet | intros out]. discriminate.
Qed.

End CheckFacts.

Section HeightsCheck.

Import Steffen Era5 CheckFacts.

(** C10.  A call of [era5_on_height_levels] whose heights array has an
    integral first element raises "Heights need to be floating numbers",
    whatever the dataset, before anything of the dataset is read and
    before any output is made; with a floating first element the check
    passes: the call is the remapping of the dataset, and it does not
    raise that exception. *)
Theorem heights_must_be_floats (ds : dataset) (rest : list number) :
  (forall z, era5_on_height_levels ds (Int z :: rest) = Raise HeightsNotFloat)
  /\ (forall x,
        era5_on_height_levels ds (Float x :: rest)
        = (height_f <- lookup "height_f"%string (on_levels ds) ;;
           out <- mapM (remap_time ds (map to_float (Float x :: rest)))
                    (seq 0 (List.length height_f)) ;;
           Ok (mkHeightDataset (Float x :: rest) (no_level ds) out))
        /\ era5_on_height_levels ds (Float x :: rest) <> Raise HeightsNotFloat).
Proof.
  split.
  - intros z. reflexivity.
  - intros x. split; [reflexivity|].
    unfold era5_on_height_levels. cbn [get nth_error bind is_integral].
    apply bind_quiet; [apply lookup_quiet | intros height_f].
    apply bind_quiet; [|intros out; discriminate].
    apply mapM_quiet. intros time_index. apply remap_time_quiet.
Qed.

End HeightsCheck.

(** A dataset of one time, three levels and one horizontal point, at a
    near-surface ocean point, remapped to the heights 0, 5 and 50:
    temperature is extrapolated flatly below the lowest full level, the
    full-level height with the gradient. *)
Example era5_on_height_levels_run :
  let ds :=
    Era5.mkDataset
      [("height_f"%string, [[[[500]]; [[100]]; [[10]]]]%Q);
       ("height_h"%string, [[[[300]]; [[50]]; [[2]]]]%Q);
       ("t"%string, [[[[9]]; [[12]]; [[10]]]]%Q)]
      [("lsm"%string, [[[0.05]]]%Q)] in
  exists hd t0 t5 t50 z0 z5 z50,
    Era5.era5_on_height_levels ds [Era5.Float 0; Era5.Float 5; Era5.Float 50]
    = Ok hd
    /\ Era5.lookup "t"%string (nth 0 (Era5.remapped hd) [])
       = Ok [[[Steffen.Val t0]]; [[Steffen.Val t5]]; [[Steffen.Val t50]]]
    /\ (t0 == 10 /\ t5 == 10 /\ 10 < t50 /\ t50 < 12)%Q
    /\ Era5.lookup "height_f"%string (nth 0 (Era5.remapped hd) [])
       = Ok [[[Steffen.Val z0]]; [[Steffen.Val z5]]; [[Steffen.Val z50]]]
    /\ (z0 == 0 /\ z5 == 5 /\ z50 == 50)%Q.
Proof.
  cbv zeta. do 7 eexists. split; [vm_compute; reflexivity|].
  split; [vm_compute; reflexivity|].
  split; [repeat split; reflexivity|].
  split; [vm_compute; reflexivity|].
  repeat split; reflexivity.
Qed.

(** * Further properties *)

(** ** Steffen interpolation: results, derivatives and checks *)

Section SteffenResults.

Import Steffen SteffenFacts SlopeFacts CursorFacts ColumnFacts.
Open Scope Q_scope.

(** X1.  On a column of at least three strictly ascending levels the
    call raises nothing (no index is out of range and no divisor is zero)
    and returns exactly one output value for every output coordinate,
    whatever the output coordinates, the boundary and the flag. *)
Theorem steffen_column_returns (L V O : list Q) (les : Q) (flag : bool) :
  ascending L -> List.length L = List.length V -> (3 <= List.length V)%nat ->
  exists out,
    steffen_column L V les flag O = Ok out /\ List.length out = List.length O.
Proof.
  intros HA HS H3.
  destruct (steffen_column_spec L V les flag O HA HS H3)
    as [ds [out [_ [_ [E [Hlen _]]]]]].
  exists out. split; assumption.
Qed.

(** X2.  On a column of at least three strictly ascending levels, the
    derivative estimated at each end of every interval between adjacent
    nodes has the sign of the slope of the values over that interval (or
    is zero) and is at most twice as steep. *)
Theorem derivatives_limited (L V : list Q) :
  ascending L -> List.length L = List.length V -> (3 <= List.length V)%nat ->
  exists ds,
    linear_slope L V = Ok ds
    /\ List.length ds = List.length V
    /\ forall k, (S k < List.length V)%nat ->
         limited (nth k ds 0) (secant L V k)
         /\ limited (nth (S k) ds 0) (secant L V k).
Proof.
  intros HA HS H3.
  destruct (linear_slope_total L V HA HS H3) as [ds [E [Hlen _]]].
  exists ds. split; [exact E|]. split; [exact Hlen|].
  intros k Hk. apply (linear_slope_limited L V HA HS ds k E Hk).
Qed.

(** X3.  A column whose levels descend between the first and the second
    node, or between the second and the third, raises the exception of
    non-monotonic levels, whatever the values and the output
    coordinates. *)
Theorem first_descent_raises (L V O : list Q) (les : Q) (flag : bool) :
  (3 <= List.length L)%nat ->
  nth 1 L 0 < nth 0 L 0 \/ nth 2 L 0 < nth 1 L 0 ->
  steffen_column L V les flag O = Raise NonMonotonic.
Proof.
  intros H3 Hneg. unfold steffen_column, linear_slope, first_point.
  rewrite !(get_nth L _ 0) by lia. cbn [bind].
  destruct (Qltb_spec (nth 1 L 0 - nth 0 L 0) 0) as [H1|H1]; [reflexivity|].
  destruct (Qltb_spec (nth 2 L 0 - nth 1 L 0) 0) as [H2|H2]; [reflexivity|].
  exfalso. destruct Hneg; lra.
Qed.

End SteffenResults.

Lemma steffen_column_returns_witness :
  exists out,
    Steffen.steffen_column [0; 100; 500]%Q [10; 12; 9]%Q (-10)%Q true
      [600; 50; -20]%Q = Ok out
    /\ List.length out = 3%nat.
Proof.
  apply (steffen_column_returns [0; 100; 500]%Q [10; 12; 9]%Q [600; 50; -20]%Q
           (-10)%Q true).
  - simpl. repeat split; reflexivity.
  - reflexivity.
  - simpl. lia.
Defined.

Lemma derivatives_limited_witness :
  exists ds,
    Steffen.linear_slope [0; 100; 500]%Q [10; 12; 9]%Q = Ok ds
    /\ List.length ds = 3%nat
    /\ forall k, (S k < 3)%nat ->
         Steffen.limited (nth k ds 0%Q)
           (Steffen.secant [0; 100; 500]%Q [10; 12; 9]%Q k)
         /\ Steffen.limited (nth (S k) ds 0%Q)
              (Steffen.secant [0; 100; 500]%Q [10; 12; 9]%Q k).
Proof.
  apply (derivatives_limited [0; 100; 500]%Q [10; 12; 9]%Q).
  - simpl. repeat split; reflexivity.
  - reflexivity.
  - simpl. lia.
Defined.

Lemma first_descent_raises_witness :
  Steffen.steffen_column [0; 100; 50; 200]%Q [10; 12; 9; 8]%Q (-10)%Q false [20]%Q
  = Raise NonMonotonic.
Proof.
  apply (first_descent_raises [0; 100; 50; 200]%Q [10; 12; 9; 8]%Q [20]%Q
           (-10)%Q false).
  - simpl. lia.
  - right. reflexivity.
Defined.

(** ** Steffen interpolation: monotone between two nodes *)

Module MonotoneFacts.

Import Steffen.
Open Scope Q_scope.

Lemma square_nonneg (x : Q) : 0 <= x * x.
Proof. nra. Qed.

(** The part of the cubic that rises with the slope does not decrease
    along the interval. *)
Lemma rising_part_monotone (s dl dh u v : Q) :
  0 <= dl <= 2 * s -> 0 <= dh <= 2 * s -> 0 <= u -> u <= v -> v <= 1 ->
  s * (u * u * (3 - 2 * u)) + dl * (u * (1 - u) * (1 - u)) - dh * (u * u * (1 - u))
  <= s * (v * v * (3 - 2 * v)) + dl * (v * (1 - v) * (1 - v)) - dh * (v * v * (1 - v)).
Proof.
  intros Hl Hh Hu Huv Hv.
  set (w := v - u). assert (0 <= w) by (unfold w; lra).
  assert (0 <= u * (1 - u)) by nra.
  assert (0 <= v * (1 - v)) by nra.
  assert (0 <= u * (1 - v)) by nra.
  assert (0 <= v * (1 - u)) by nra.
  set (d00 := 3 * (u + v) - 2 * (u * u + u * v + v * v)).
  set (d20 := 2 - u - v).
  set (d02 := u + v).
  set (d22 := 2 - 3 * (u + v) + 2 * (u * u + u * v + v * v)).
  assert (0 <= d00).
  { assert (d00 == 2 * (u * (1 - u)) + 2 * (v * (1 - v)) + u * (1 - v) + v * (1 - u))
      as E0 by (unfold d00; ring).
    lra. }
  assert (0 <= d20) by (unfold d20; lra).
  assert (0 <= d02) by (unfold d02; lra).
  assert (0 <= d22).
  { assert (d22 == 2 * ((1 - u - v) * (1 - u - v)) + u * (1 - v) + v * (1 - u))
      as E2 by (unfold d22; ring).
    pose proof (square_nonneg (1 - u - v)). lra. }
  set (Fu := s * (u * u * (3 - 2 * u)) + dl * (u * (1 - u) * (1 - u))
             - dh * (u * u * (1 - u))).
  set (Fv := s * (v * v * (3 - 2 * v)) + dl * (v * (1 - v) * (1 - v))
             - dh * (v * v * (1 - v))).
  assert (4 * s * (Fv - Fu) ==
          w * ((2 * s - dl) * (2 * s - dh) * d00 + dl * (2 * s - dh) * d20
               + (2 * s - dl) * dh * d02 + dl * dh * d22)) as E
    by (unfold Fv, Fu, w, d00, d20, d02, d22; ring).
  assert (0 <= (2 * s - dl) * (2 * s - dh) * d00)
    by (repeat apply Qmult_le_0_compat; lra).
  assert (0 <= dl * (2 * s - dh) * d20) by (repeat apply Qmult_le_0_compat; lra).
  assert (0 <= (2 * s - dl) * dh * d02) by (repeat apply Qmult_le_0_compat; lra).
  assert (0 <= dl * dh * d22) by (repeat apply Qmult_le_0_compat; lra).
  destruct (Qlt_le_dec 0 s) as [Hs|Hs].
  - assert (0 <= 4 * s * (Fv - Fu)) by (rewrite E; apply Qmult_le_0_compat; lra).
    nra.
  - assert (dl == 0) by lra. assert (dh == 0) by lra. assert (s == 0) by lra.
    unfold Fu, Fv in *. nra.
Qed.

(** With both derivatives limited by the slope of the interval, the
    cubic goes the way of the slope all along the interval. *)
Lemma cubic_monotone (delta s dl dh vl t t' : Q) :
  0 < delta -> limited dl s -> limited dh s ->
  0 <= t -> t <= t' -> t' <= delta ->
  (0 <= s -> cubic delta s dl dh vl t <= cubic delta s dl dh vl t')
  /\ (s <= 0 -> cubic delta s dl dh vl t' <= cubic delta s dl dh vl t).
Proof.
  intros Hd Hl Hh Ht Htt Ht'.
  assert (0 < / delta) as Hinv by (apply Qinv_lt_0_compat; exact Hd).
  assert (delta * / delta == 1) as Hone by (field; lra).
  set (u := t / delta). set (v := t' / delta).
  assert (t == u * delta) as Eu by (unfold u; field; lra).
  assert (t' == v * delta) as Ev by (unfold v; field; lra).
  assert (u == t * / delta) as Eu' by reflexivity.
  assert (v == t' * / delta) as Ev' by reflexivity.
  assert (0 <= u) by nra. assert (u <= v) by nra. assert (v <= 1) by nra.
  pose proof (CubicFacts.cubic_fraction delta s dl dh vl t u Hd Eu) as Ec.
  pose proof (CubicFacts.cubic_fraction delta s dl dh vl t' v Hd Ev) as Ec'.
  set (y := cubic delta s dl dh vl t) in *.
  set (y' := cubic delta s dl dh vl t') in *.
  set (Fu := s * (u * u * (3 - 2 * u)) + dl * (u * (1 - u) * (1 - u))
             - dh * (u * u * (1 - u))) in *.
  set (Fv := s * (v * v * (3 - 2 * v)) + dl * (v * (1 - v) * (1 - v))
             - dh * (v * v * (1 - v))) in *.
  unfold limited in Hl, Hh. split; intros Hs.
  - assert (Fu <= Fv) by (apply rising_part_monotone; lra). nra.
  - assert (- Fu <= - Fv) as Hneg.
    { assert (- Fu == (- s) * (u * u * (3 - 2 * u)) + (- dl) * (u * (1 - u) * (1 - u))
                      - (- dh) * (u * u * (1 - u))) as E1 by (unfold Fu; ring).
      assert (- Fv == (- s) * (v * v * (3 - 2 * v)) + (- dl) * (v * (1 - v) * (1 - v))
                      - (- dh) * (v * v * (1 - v))) as E2 by (unfold Fv; ring).
      rewrite E1, E2. apply rising_part_monotone; lra. }
    nra.
Qed.

End MonotoneFacts.

Section MonotoneOutputs.

Import Steffen SteffenFacts SlopeFacts CursorFacts ColumnFacts BracketFacts
       CubicFacts MonotoneFacts.
Open Scope Q_scope.

(** From above the level of node [k] up to the level of node [k + 1]
    the cursor is at [k + 1]. *)
Lemma bracket_upto (L V : list Q) (x : Q) (k : nat) :
  ascending L -> List.length L = List.length V ->
  (S k < List.length V)%nat -> nth k L 0 < x -> x <= nth (S k) L 0 ->
  first_ge x L = S k.
Proof.
  intros HA HS Hk H1 H2. apply first_ge_eq.
  - lia.
  - intros i Hi. destruct (Nat.eq_dec i k) as [->|Hne]; [exact H1|].
    assert (nth i L 0 < nth k L 0)
      by (apply ascending_lt; [assumption | lia | lia]).
    lra.
  - intros _. exact H2.
Qed.

(** X4.  On a column of at least three strictly ascending levels, two
    output coordinates [x <= x'] that lie above the level of a node [k]
    and not above the level of node [k + 1], each preceded by no larger
    output coordinate, get values in the order of the two node values:
    the interpolant rises where the values rise and falls where they
    fall. *)
Theorem monotone_between_nodes (L V O : list Q) (les : Q) (flag : bool)
  (m n k : nat) :
  ascending L -> List.length L = List.length V -> (3 <= List.length V)%nat ->
  (m < List.length O)%nat -> (n < List.length O)%nat ->
  no_larger_before O m -> no_larger_before O n ->
  (S k < List.length V)%nat ->
  nth k L 0 < nth m O 0 -> nth m O 0 <= nth n O 0 -> nth n O 0 <= nth (S k) L 0 ->
  exists out ym yn,
    steffen_column L V les flag O = Ok out
    /\ nth_error out m = Some (Val ym) /\ nth_error out n = Some (Val yn)
    /\ (nth k V 0 <= nth (S k) V 0 -> ym <= yn)
    /\ (nth (S k) V 0 <= nth k V 0 -> yn <= ym).
Proof.
  intros HA HS H3 Hm Hn Hbm Hbn Hk Hlo Hmn Hhi.
  destruct (steffen_column_spec L V les flag O HA HS H3)
    as [ds [out [Eds [Hds [Eout [Hlen Hout]]]]]].
  pose proof (Hout m Hm) as Om. pose proof (Hout n Hn) as On.
  rewrite (cursor_first_ge L V HS) in Om; [|lia|exact Hm|exact Hbm|intros i Hi; lia].
  rewrite (cursor_first_ge L V HS) in On; [|lia|exact Hn|exact Hbn|intros i Hi; lia].
  rewrite (bracket_upto L V (nth m O 0) k HA HS Hk Hlo ltac:(lra)) in Om.
  rewrite (bracket_upto L V (nth n O 0) k HA HS Hk ltac:(lra) Hhi) in On.
  rewrite (output_point_inside L V HA HS les flag H3 ds Hds) in Om by exact Hk.
  rewrite (output_point_inside L V HA HS les flag H3 ds Hds) in On by exact Hk.
  apply Ok_inj in Om. apply Ok_inj in On.
  eexists out, _, _. split; [exact Eout|].
  split; [rewrite (nth_error_nth_default out m NaN) by lia; rewrite <- Om; reflexivity|].
  split; [rewrite (nth_error_nth_default out n NaN) by lia; rewrite <- On; reflexivity|].
  destruct (linear_slope_limited L V HA HS ds k Eds Hk) as [Hl Hh].
  assert (0 < width L k) as Hw by (apply width_pos; [exact HA | lia]).
  destruct (cubic_monotone (width L k) (secant L V k) (nth k ds 0) (nth (S k) ds 0)
              (nth k V 0) (nth m O 0 - nth k L 0) (nth n O 0 - nth k L 0)
              Hw Hl Hh) as [Hup Hdown]; try (unfold width; lra).
  assert (secant L V k * width L k == nth (S k) V 0 - nth k V 0) as Es
    by (unfold secant; field; lra).
  split; intros Hv.
  - apply Hup. nra.
  - apply Hdown. nra.
Qed.

End MonotoneOutputs.

Lemma monotone_between_nodes_witness :
  exists out ym yn,
    Steffen.steffen_column [0; 100; 500]%Q [10; 12; 9]%Q (-10)%Q true
      [0; 150; 300]%Q = Ok out
    /\ nth_error out 1 = Some (Steffen.Val ym)
    /\ nth_error out 2 = Some (Steffen.Val yn)
    /\ ((12 <= 9)%Q -> (ym <= yn)%Q)
    /\ ((9 <= 12)%Q -> (yn <= ym)%Q).
Proof.
  apply (monotone_between_nodes [0; 100; 500]%Q [10; 12; 9]%Q [0; 150; 300]%Q
           (-10)%Q true 1 2 1).
  - simpl. repeat split; reflexivity.
  - reflexivity.
  - simpl. lia.
  - simpl. lia.
  - simpl. lia.
  - unfold Steffen.no_larger_before. simpl.
    constructor; [discriminate | constructor].
  - unfold Steffen.no_larger_before. simpl.
    repeat (constructor; [discriminate|]). constructor.
  - simpl. lia.
  - reflexivity.
  - discriminate.
  - discriminate.
Defined.

(** ** Steffen interpolation: values that are linear in the levels *)

Module LinearFacts.

Import Steffen SteffenFacts SlopeFacts CursorFacts ColumnFacts.
Open Scope Q_scope.

(** The rule of the two end points and the rule of the intermediate
    points keep a derivative that both slopes agree on. *)
Lemma end_rule_agree (w s a : Q) :
  w == a -> s == a ->
  (if Qle_bool (w * s) 0 then 0
   else if Qltb (2 * Qabs s) (Qabs w) then 2 * s else w) == a.
Proof.
  intros Ew Es.
  destruct (Qleb_spec (w * s) 0) as [H|H].
  - assert (a * a <= 0) by (rewrite <- Ew at 1; rewrite <- Es; exact H).
    pose proof (MonotoneFacts.square_nonneg a). nra.
  - destruct (Qltb_spec (2 * Qabs s) (Qabs w)) as [H'|H']; [|exact Ew].
    exfalso. rewrite Ew, Es in H'. pose proof (Qabs_nonneg a). lra.
Qed.

Lemma interior_rule_agree (w sl sr a : Q) :
  w == a -> sl == a -> sr == a ->
  (if Qle_bool (sl * sr) 0 then 0
   else if Qltb (2 * Qabs sl) (Qabs w)
        then copysign 2 sl * min (Qabs sl) (Qabs sr)
   else if Qltb (2 * Qabs sr) (Qabs w)
        then copysign 2 sl * min (Qabs sl) (Qabs sr)
   else w) == a.
Proof.
  intros Ew El Er.
  destruct (Qleb_spec (sl * sr) 0) as [H|H].
  - assert (a * a <= 0) by (rewrite <- El at 1; rewrite <- Er; exact H).
    pose proof (MonotoneFacts.square_nonneg a). nra.
  - pose proof (Qabs_nonneg a) as Ha.
    destruct (Qltb_spec (2 * Qabs sl) (Qabs w)) as [H1|H1];
      [exfalso; rewrite Ew, El in H1; lra|].
    destruct (Qltb_spec (2 * Qabs sr) (Qabs w)) as [H2|H2];
      [exfalso; rewrite Ew, Er in H2; lra|].
    exact Ew.
Qed.

Section Column.

Variables L V : list Q.
Hypothesis L_ascending : ascending L.
Hypothesis same_shape : List.length L = List.length V.

Let K := List.length V.

Hypothesis three_levels : (3 <= K)%nat.

(** What the first and the last point compute on. *)
Lemma first_point_eq :
  first_point L V =
  Ok (let s := secant L V 0 in
      let w := s * (1 + width L 0 / (width L 0 + width L 1))
               - secant L V 1 * width L 0 / (width L 0 + width L 1) in
      if Qle_bool (w * s) 0 then 0
      else if Qltb (2 * Qabs s) (Qabs w) then 2 * s else w).
Proof.
  unfold first_point.
  rewrite !(getL L V same_shape), !(getV V) by (unfold K in *; lia). cbn [bind].
  rewrite !(not_descending L V L_ascending same_shape) by (unfold K in *; lia).
  fold (width L 0). fold (width L 1).
  rewrite (div_nonzero _ (width L 0))
    by (apply (width_nonzero L V L_ascending same_shape); unfold K in *; lia).
  cbn [bind].
  rewrite (div_nonzero _ (width L 1))
    by (apply (width_nonzero L V L_ascending same_shape); unfold K in *; lia).
  cbn [bind].
  rewrite !div_nonzero
    by (apply (width2_nonzero L V L_ascending same_shape); unfold K in *; lia).
  cbn [bind]. fold (secant L V 0). fold (secant L V 1). cbv zeta.
  repeat match goal with |- context [if ?b then _ else _] => destruct b end;
    reflexivity.
Qed.

Lemma last_point_eq :
  last_point L V =
  Ok (let s := secant L V (K - 2) in
      let w := s * (1 + width L (K - 2) / (width L (K - 2) + width L (K - 3)))
               - secant L V (K - 3) * width L (K - 2)
                 / (width L (K - 2) + width L (K - 3)) in
      if Qle_bool (w * s) 0 then 0
      else if Qltb (2 * Qabs s) (Qabs w) then 2 * s else w).
Proof.
  unfold last_point, k_max_minus, k_max. fold K.
  replace (K - 1 - 1)%nat with (S (K - 3)) by lia.
  replace (K - 1 - 2)%nat with (K - 3)%nat by lia.
  replace (K - 1)%nat with (S (S (K - 3))) by lia.
  replace (K - 2)%nat with (S (K - 3)) by lia.
  rewrite !(getL L V same_shape), !(getV V) by (unfold K in *; lia). cbn [bind].
  fold (width L (K - 3)). fold (width L (S (K - 3))).
  rewrite (div_nonzero _ (width L (K - 3)))
    by (apply (width_nonzero L V L_ascending same_shape); unfold K in *; lia).
  cbn [bind].
  rewrite (div_nonzero _ (width L (S (K - 3))))
    by (apply (width_nonzero L V L_ascending same_shape); unfold K in *; lia).
  cbn [bind].
  assert (~ width L (S (K - 3)) + width L (K - 3) == 0) as Hsum.
  { pose proof (width2_nonzero L V L_ascending same_shape (K - 3)) as H.
    intros C. apply H; [unfold K in *; lia | lra]. }
  rewrite !div_nonzero by exact Hsum. cbn [bind].
  fold (secant L V (K - 3)). fold (secant L V (S (K - 3))). cbv zeta.
  repeat match goal with |- context [if ?b then _ else _] => destruct b end;
    reflexivity.
Qed.

Variables alpha beta : Q.
Hypothesis V_linear :
  forall k, (k < K)%nat -> nth k V 0 == alpha * nth k L 0 + beta.

Lemma secant_linear (k : nat) : (S k < K)%nat -> secant L V k == alpha.
Proof.
  intros Hk. unfold secant.
  assert (0 < width L k) as Hw
    by (apply width_pos; [assumption | rewrite same_shape; exact Hk]).
  rewrite (V_linear k) by lia. rewrite (V_linear (S k)) by exact Hk.
  unfold width in *. field. lra.
Qed.

(** Every derivative is the slope of the values. *)
Lemma linear_slope_linear (ds : list Q) (k : nat) :
  linear_slope L V = Ok ds -> (k < K)%nat -> nth k ds 0 == alpha.
Proof.
  intros E Hk.
  destruct (linear_slope_total L V L_ascending same_shape three_levels)
    as [ds' [E' [_ [Hf [Hm Hl]]]]].
  assert (ds' = ds) by congruence. subst ds'.
  destruct k as [|k].
  - rewrite first_point_eq in Hf. apply Ok_inj in Hf. rewrite <- Hf. cbv zeta.
    assert (0 < width L 0) as H0
      by (apply width_pos; [assumption | rewrite same_shape; unfold K in *; lia]).
    assert (0 < width L 1) as H1
      by (apply width_pos; [assumption | rewrite same_shape; unfold K in *; lia]).
    apply end_rule_agree; [|apply secant_linear; unfold K in *; lia].
    rewrite !secant_linear by (unfold K in *; lia). field. lra.
  - destruct (Nat.eq_dec (S k) (K - 1)) as [Elast|Nlast].
    + fold K in Hl. rewrite <- Elast in Hl.
      rewrite last_point_eq in Hl. apply Ok_inj in Hl. rewrite <- Hl. cbv zeta.
      assert (0 < width L (K - 2)) as H0
        by (apply width_pos; [assumption | rewrite same_shape; unfold K in *; lia]).
      assert (0 < width L (K - 3)) as H1
        by (apply width_pos; [assumption | rewrite same_shape; unfold K in *; lia]).
      apply end_rule_agree; [|apply secant_linear; unfold K in *; lia].
      rewrite !secant_linear by (unfold K in *; lia). field. lra.
    + assert (S (S k) < K)%nat as Hk' by (unfold K in *; lia).
      specialize (Hm (S k) ltac:(lia) Hk').
      rewrite (intermediate_point_eq L V L_ascending same_shape (S k)) in Hm
        by (try exact Hk'; lia).
      apply Ok_inj in Hm. rewrite <- Hm. cbv zeta.
      replace (S k - 1)%nat with k by lia.
      assert (0 < width L k) as H0
        by (apply width_pos; [assumption | rewrite same_shape; unfold K in *; lia]).
      assert (0 < width L (S k)) as H1
        by (apply width_pos; [assumption | rewrite same_shape; exact Hk']).
      apply interior_rule_agree;
        [|apply secant_linear; unfold K in *; lia | apply secant_linear; exact Hk'].
      unfold weighted. replace (S k - 1)%nat with k by lia.
      rewrite !secant_linear by (unfold K in *; lia). field. lra.
Qed.

End Column.

(** The cursor never stands on a level below the output coordinate. *)
Lemma cursor_stop (L outs : list Q) (k0 n : nat) :
  (n < List.length outs)%nat ->
  (cursor L outs k0 n < List.length L)%nat ->
  nth n outs 0 <= nth (cursor L outs k0 n) L 0.
Proof.
  revert k0 n. induction outs as [|x outs IH]; intros k0 n Hn Hc.
  - simpl in Hn. lia.
  - simpl in *. destruct n as [|n].
    + assert (first_ge x (skipn k0 L) < List.length (skipn k0 L))%nat as Hs
        by (rewrite length_skipn; lia).
      pose proof (first_ge_stop x (skipn k0 L) Hs) as H.
      rewrite nth_skipn in H. exact H.
    + apply IH; [lia | exact Hc].
Qed.

End LinearFacts.

Section LinearValues.

Import Steffen SteffenFacts SlopeFacts CursorFacts ColumnFacts LinearFacts.
Open Scope Q_scope.

(** X5.  When the values of a column of at least three strictly
    ascending levels are a linear function [alpha * L[k] + beta] of the
    levels, every output value that is not missing is that function of
    its output coordinate, whatever the order of the output coordinates,
    provided the gradient flag is on or the coordinate is not below the
    first level; so a field remapped against itself (the heights) comes
    back as the output heights. *)
Theorem linear_values_reproduced (L V O : list Q) (les : Q) (flag : bool)
  (alpha beta : Q) (n : nat) :
  ascending L -> List.length L = List.length V -> (3 <= List.length V)%nat ->
  (forall k, (k < List.length V)%nat -> nth k V 0 == alpha * nth k L 0 + beta) ->
  (n < List.length O)%nat ->
  flag = true \/ nth 0 L 0 <= nth n O 0 ->
  exists out,
    steffen_column L V les flag O = Ok out
    /\ (nth_error out n = Some NaN
        \/ exists y, nth_error out n = Some (Val y)
                     /\ y == alpha * nth n O 0 + beta).
Proof.
  intros HA HS H3 Hlin Hn Hflag.
  destruct (steffen_column_spec L V les flag O HA HS H3)
    as [ds [out [Eds [Hds [Eout [Hlen Hout]]]]]].
  exists out. split; [exact Eout|].
  specialize (Hout n Hn).
  rewrite (nth_error_nth_default out n NaN) by lia.
  pose proof (cursor_le L V HS O 0 n ltac:(lia)) as Hc.
  pose proof (cursor_stop L O 0 n Hn) as Hstop.
  destruct (cursor L O 0 n) as [|c] eqn:Ec.
  - rewrite (output_point_below L V HS les flag H3 ds Hds) in Hout.
    apply Ok_inj in Hout. rewrite <- Hout.
    destruct (Qle_bool les (nth n O 0)); [|left; reflexivity].
    right. specialize (Hstop ltac:(lia)).
    pose proof (linear_slope_linear L V HA HS H3 alpha beta Hlin ds 0 Eds ltac:(lia))
      as Hd0.
    pose proof (Hlin 0%nat ltac:(lia)) as Hv0.
    destruct flag; eexists; (split; [reflexivity|]).
    + rewrite Hd0, Hv0. ring.
    + destruct Hflag as [C|Hge]; [discriminate|].
      assert (nth n O 0 == nth 0 L 0) as Ex by lra.
      rewrite Hv0, Ex. reflexivity.
  - destruct (Nat.eq_dec (S c) (List.length V)) as [Etop|Ntop].
    + rewrite Etop in Hout.
      rewrite (output_point_above L V HS les flag H3 ds Hds) in Hout.
      apply Ok_inj in Hout. rewrite <- Hout. left. reflexivity.
    + assert (S c < List.length V)%nat as Hk by lia.
      rewrite (output_point_inside L V HA HS les flag H3 ds Hds) in Hout by exact Hk.
      apply Ok_inj in Hout. rewrite <- Hout. right.
      eexists. split; [reflexivity|].
      pose proof (linear_slope_linear L V HA HS H3 alpha beta Hlin ds c Eds ltac:(lia))
        as Hdl.
      pose proof (linear_slope_linear L V HA HS H3 alpha beta Hlin ds (S c) Eds Hk)
        as Hdh.
      pose proof (secant_linear L V HA HS H3 alpha beta Hlin c Hk) as Hs.
      pose proof (Hlin c ltac:(lia)) as Hv.
      assert (0 < width L c) as Hw by (apply width_pos; [exact HA | lia]).
      unfold cubic. rewrite Hdl, Hdh, Hs, Hv. field. lra.
Qed.

End LinearValues.

Lemma linear_values_reproduced_witness :
  exists out,
    Steffen.steffen_column [10; 100; 500]%Q [10; 100; 500]%Q (-1)%Q true
      [300; 0; 50]%Q = Ok out
    /\ (nth_error out 1 = Some Steffen.NaN
        \/ exists y, nth_error out 1 = Some (Steffen.Val y)
                     /\ (y == 1 * 0 + 0)%Q).
Proof.
  apply (linear_values_reproduced [10; 100; 500]%Q [10; 100; 500]%Q
           [300; 0; 50]%Q (-1)%Q true 1 0 1).
  - simpl. repeat split; reflexivity.
  - reflexivity.
  - simpl. lia.
  - intros k Hk. simpl in Hk.
    destruct k as [|[|[|k]]]; simpl; try reflexivity. lia.
  - simpl. lia.
  - left. reflexivity.
Defined.

(** ** Hydrostatic integration: adjacent levels *)

Module LayerFacts.

Import Hydrostatic HydrostaticFacts Layers.
Open Scope R_scope.

Section Column.

Variables p_s z_s : R.
Variables a_coeffs b_coeffs t q : list R.

(** The arrays built so far, from level [m] down to the surface, hold
    one layer between each two adjacent half levels. *)
Let chain (m : nat) (c : carry) (out : profile) : Prop :=
  List.length (height_h out) = List.length (p_h out)
  /\ S (List.length (p_f out)) = List.length (p_h out)
  /\ List.length (height_f out) = List.length (p_f out)
  /\ p_h_k_plus c = nth 0 (p_h out) 0
  /\ height_h_k_plus c = nth 0 (height_h out) None
  /\ (forall i, (i < List.length (p_f out))%nat ->
        nth i (p_f out) 0 = 0.5 * (nth i (p_h out) 0 + nth (S i) (p_h out) 0)
        /\ nth i (height_h out) None
           = add_scaled (nth (S i) (height_h out) None) (scale t q (m + i))
               (log (nth (S i) (p_h out) 0 / nth i (p_h out) 0))
        /\ nth i (height_f out) None
           = add_scaled (nth (S i) (height_h out) None) (scale t q (m + i))
               (log (nth (S i) (p_h out) 0 / nth i (p_f out) 0)))
  /\ ((0 < List.length (p_f out))%nat -> tvrd_over_rg c = Some (scale t q m)).

Lemma levels_chain (m : nat) (c c' : carry) (out out' : profile) :
  levels p_s a_coeffs b_coeffs t q (rev (seq 0 m)) (c, out) = Ok (c', out') ->
  chain m c out -> chain 0 c' out'.
Proof.
  revert c out. induction m as [|m IH]; intros c out H Hch.
  - simpl in H. apply Ok_inj in H. inversion H; subst. exact Hch.
  - rewrite rev_seq_S in H. cbn [Hydrostatic.levels] in H.
    destruct (level p_s a_coeffs b_coeffs t q m (c, out)) as [[c1 out1]|] eqn:E;
      [|discriminate].
    cbn [bind] in H.
    destruct (level_inv p_s a_coeffs b_coeffs t q m c c1 out out1 E)
      as [_ [_ [_ [_ [_ [_ [Ec Eo]]]]]]].
    apply (IH c1 out1 H).
    destruct Hch as [L1 [L2 [L3 [Hp [Hh [Hlay _]]]]]].
    subst c1 out1. unfold chain.
    cbn [p_h height_h height_f p_f p_h_k_plus height_h_k_plus tvrd_over_rg
         List.length nth].
    repeat split; try lia.
    + destruct i as [|i]; cbn [nth].
      * rewrite Hp. reflexivity.
      * apply Hlay. simpl in H0. lia.
    + destruct i as [|i]; cbn [nth].
      * rewrite Hh, Hp, Nat.add_0_r. reflexivity.
      * replace (m + S i)%nat with (S m + i)%nat by lia.
        apply Hlay. simpl in H0. lia.
    + destruct i as [|i]; cbn [nth].
      * rewrite Hh, Hp, Nat.add_0_r. reflexivity.
      * replace (m + S i)%nat with (S m + i)%nat by lia.
        apply Hlay. simpl in H0. lia.
Qed.

(** The profile of a column that returns: the pressures and heights of
    adjacent levels. *)
Lemma hydrostatic_column_layers (res : profile) :
  hydrostatic_column p_s z_s a_coeffs b_coeffs t q = Ok res ->
  let K := List.length t in
  List.length (height_h res) = K /\ List.length (height_f res) = K
  /\ List.length (p_h res) = K /\ List.length (p_f res) = K
  /\ nth 0 (p_f res) 0 = 0.5 * nth 0 (p_h res) 0
  /\ nth 0 (height_f res) None
     = add_scaled (nth 0 (height_h res) None) (scale t q 0)
         (log (nth 0 (p_h res) 0 / nth 0 (p_f res) 0))
  /\ forall k, (S k < K)%nat ->
       nth (S k) (p_f res) 0 = 0.5 * (nth k (p_h res) 0 + nth (S k) (p_h res) 0)
       /\ nth k (height_h res) None
          = add_scaled (nth (S k) (height_h res) None) (scale t q k)
              (log (nth (S k) (p_h res) 0 / nth k (p_h res) 0))
       /\ nth (S k) (height_f res) None
          = add_scaled (nth (S k) (height_h res) None) (scale t q k)
              (log (nth (S k) (p_h res) 0 / nth (S k) (p_f res) 0)).
Proof.
  intros H. cbv zeta.
  destruct (hydrostatic_column_inv p_s z_s a_coeffs b_coeffs t q res H)
    as [H2 [Hp [[hs [Hh Lh]] [Lf Lp]]]].
  unfold hydrostatic_column, k_max in H.
  destruct (List.length t) as [|m] eqn:EK; [discriminate|].
  replace (S m - 1)%nat with m in * by lia.
  destruct (levels p_s a_coeffs b_coeffs t q (rev (seq 0 m)) _) as [[c out]|] eqn:E;
    [|discriminate].
  cbn [bind] in H.
  assert (chain 0 c out) as Hch.
  { apply (levels_chain m _ c _ out E). unfold chain.
    cbn [p_h height_h height_f p_f p_h_k_plus height_h_k_plus tvrd_over_rg
         List.length nth].
    repeat split; try lia. }
  destruct Hch as [L1 [L2 [L3 [Hpc [Hhc [Hlay Htv]]]]]].
  destruct (tvrd_over_rg c) as [tv|] eqn:Etv; [|discriminate].
  destruct (div (p_h_k_plus c) (0.5 * p_h_k_plus c)) as [r|] eqn:Er; [|discriminate].
  cbn [bind] in H. apply Ok_inj in H. subst res.
  cbn [p_h height_h height_f p_f] in *.
  assert (r = p_h_k_plus c / (0.5 * p_h_k_plus c)) as Hr.
  { unfold div in Er. destruct (Req_dec_T (0.5 * p_h_k_plus c) 0); [discriminate|].
    apply Ok_inj in Er. congruence. }
  assert (tv = scale t q 0) as Htv'.
  { assert (0 < List.length (p_f out))%nat as Hpos.
    { rewrite Hp, length_app, length_map, length_seq in L2. simpl in L2. lia. }
    specialize (Htv Hpos). congruence. }
  split; [rewrite Hh, length_app, Lh; simpl; lia|].
  split; [exact Lf|].
  split; [rewrite Hp, length_app, length_map, length_seq; simpl; lia|].
  split; [exact Lp|].
  cbn [nth].
  split; [rewrite Hpc; reflexivity|].
  split; [rewrite Hhc, Hr, Htv', Hpc; reflexivity|].
  intros k Hk. apply (Hlay k).
  simpl in Lp. lia.
Qed.

End Column.

End LayerFacts.

Section Layering.

Import Hydrostatic HydrostaticFacts Layers LayerFacts.
Open Scope R_scope.

(** X6.  In every profile the call returns for a column of [K] levels,
    each of the four arrays has [K] entries, the full-level pressure at
    index [k + 1] is the arithmetic mean of the half-level pressures at
    [k] and [k + 1], and the topmost full-level pressure is half the
    topmost half-level pressure. *)
Theorem full_pressures_are_means (p_s z_s : R) (a_coeffs b_coeffs t q : list R)
  (res : profile) :
  hydrostatic_column p_s z_s a_coeffs b_coeffs t q = Ok res ->
  let K := List.length t in
  (List.length (height_h res) = K /\ List.length (height_f res) = K
   /\ List.length (p_h res) = K /\ List.length (p_f res) = K)
  /\ nth 0 (p_f res) 0 = 0.5 * nth 0 (p_h res) 0
  /\ forall k, (S k < K)%nat ->
       nth (S k) (p_f res) 0 = 0.5 * (nth k (p_h res) 0 + nth (S k) (p_h res) 0).
Proof.
  intros H. cbv zeta.
  destruct (hydrostatic_column_layers p_s z_s a_coeffs b_coeffs t q res H)
    as [L1 [L2 [L3 [L4 [Htop [_ Hlay]]]]]].
  split; [repeat split; assumption|]. split; [exact Htop|].
  intros k Hk. apply (Hlay k Hk).
Qed.

(** X7.  In every profile the call returns, the topmost full level lies
    [ln 2] times the scale of the topmost layer above the topmost half
    level, whatever the pressures: its pressure is half the pressure of
    that half level. *)
Theorem top_full_level (p_s z_s : R) (a_coeffs b_coeffs t q : list R)
  (res : profile) :
  hydrostatic_column p_s z_s a_coeffs b_coeffs t q = Ok res ->
  nth 0 (height_f res) None
  = add_scaled (nth 0 (height_h res) None) (scale t q 0) (Some (ln 2)).
Proof.
  intros H.
  destruct (hydrostatic_column_layers p_s z_s a_coeffs b_coeffs t q res H)
    as [_ [_ [_ [_ [Htop [Hf _]]]]]].
  rewrite Hf, Htop. f_equal.
  assert (nth 0 (p_h res) 0 <> 0) as Hp.
  { unfold hydrostatic_column in H.
    destruct (k_max t); [discriminate|].
    destruct (levels _ _ _ _ _ _ _) as [[c out]|] eqn:E; [|discriminate].
    cbn [bind] in H.
    destruct (tvrd_over_rg c); [|discriminate].
    unfold div in H.
    destruct (Req_dec_T (0.5 * p_h_k_plus c) 0) as [|N]; [discriminate|].
    cbn [bind] in H. apply Ok_inj in H. subst res. cbn [p_f p_h nth] in *.
    intros C. apply N. lra. }
  replace 0.5 with (/ 2) by lra.
  replace (nth 0 (p_h res) 0 / (/ 2 * nth 0 (p_h res) 0)) with 2
    by (field; exact Hp).
  apply log_pos. lra.
Qed.

Lemma scale_pos (t q : list R) (k : nat) :
  0 < nth k t 0 -> 0 <= nth k q 0 -> 0 < scale t q k.
Proof.
  intros Ht Hq. unfold scale, rd, rg, rv_over_rd_minus_one.
  apply Rmult_lt_0_compat; [apply Rmult_lt_0_compat|]; [lra | exact Ht | nra].
Qed.

(** X8.  For every column of at least two levels with positive
    temperatures, non-negative humidities and positive half-level
    pressures that increase strictly from the top level to the surface,
    the call returns, all half-level and full-level heights below the top
    are real numbers, and the heights increase upwards: the full level
    [k + 1] lies strictly between the half level [k + 1] below it and the
    half level [k] above it. *)
Theorem heights_increase_upwards (p_s z_s : R) (a b t q : list R) :
  let K := List.length t in
  (2 <= K)%nat ->
  (K - 1 <= List.length a)%nat -> (K - 1 <= List.length b)%nat ->
  (K <= List.length q)%nat ->
  0 < half_pressure a b K p_s 0 ->
  (forall k, (S k < K)%nat ->
     half_pressure a b K p_s k < half_pressure a b K p_s (S k)
     /\ 0 < nth k t 0 /\ 0 <= nth k q 0) ->
  exists res,
    hydrostatic_column p_s z_s a b t q = Ok res
    /\ forall k, (S k < K)%nat ->
         exists h_above h_full h_below,
           nth k (height_h res) None = Some h_above
           /\ nth (S k) (height_f res) None = Some h_full
           /\ nth (S k) (height_h res) None = Some h_below
           /\ h_below < h_full < h_above.
Proof.
  cbv zeta. intros H2 Ha Hb Hq Htop Hphys.
  set (K := List.length t) in *.
  assert (forall k, (k < K)%nat -> 0 < half_pressure a b K p_s k) as Hpos.
  { induction k as [|k IH]; intros Hk; [exact Htop|].
    specialize (IH ltac:(lia)). destruct (Hphys k Hk) as [Hlt _]. lra. }
  destruct (hydrostatic_column_returns p_s z_s a b t q) as [res E];
    try assumption.
  { specialize (Hpos (K - 1)%nat ltac:(lia)). unfold half_pressure in Hpos.
    rewrite Nat.ltb_irrefl in Hpos. exact Hpos. }
  { intros k Hk. fold K in Hk. specialize (Hpos k ltac:(lia)).
    unfold half_pressure in Hpos.
    replace (k <? K - 1)%nat with true in Hpos
      by (symmetry; apply Nat.ltb_lt; lia).
    exact Hpos. }
  exists res. split; [exact E|].
  destruct (hydrostatic_column_layers p_s z_s a b t q res E)
    as [L1 [L2 [L3 [L4 [_ [_ Hlay]]]]]].
  fold K in L1, L2, L3, L4, Hlay.
  assert (forall k, (k < K)%nat ->
            nth k (p_h res) 0 = half_pressure a b K p_s k) as Hph.
  { intros k Hk. rewrite (p_h_half_pressure p_s z_s a b t q res E). fold K.
    rewrite nth_indep with (d' := half_pressure a b K p_s 0)
      by (rewrite length_map, length_seq; exact Hk).
    rewrite map_nth, seq_nth by exact Hk. reflexivity. }
  assert (forall d k, (k + d = K - 1)%nat ->
            exists h, nth k (height_h res) None = Some h) as Hsome.
  { induction d as [|d IH]; intros k Hk.
    - destruct (surface_values p_s z_s a b t q res E) as [_ Hs]. fold K in Hs.
      replace k with (K - 1)%nat by lia.
      exists z_s. apply (nth_error_nth _ _ _ Hs).
    - destruct (IH (S k) ltac:(lia)) as [h' Eh'].
      destruct (Hlay k ltac:(lia)) as [_ [Ehh _]].
      rewrite Ehh, Eh', !Hph by lia.
      rewrite log_pos
        by (apply Rdiv_lt_0_compat; apply Hpos; lia).
      eexists. reflexivity. }
  intros k Hk.
  destruct (Hsome (K - 1 - S k)%nat (S k) ltac:(lia)) as [h' Eh'].
  destruct (Hlay k Hk) as [Epf [Ehh Ehf]].
  destruct (Hphys k Hk) as [Hlt [Ht Hqk]].
  pose proof (Hpos k ltac:(lia)) as Pk. pose proof (Hpos (S k) Hk) as Pk'.
  pose proof (scale_pos t q k Ht Hqk) as Hsc.
  rewrite Eh', Epf, !Hph in Ehf by lia.
  rewrite Eh', !Hph in Ehh by lia.
  set (pk := half_pressure a b K p_s k) in *.
  set (pk' := half_pressure a b K p_s (S k)) in *.
  assert (0 < 0.5 * (pk + pk')) as Pf by lra.
  rewrite log_pos in Ehh by (apply Rdiv_lt_0_compat; assumption).
  rewrite log_pos in Ehf by (apply Rdiv_lt_0_compat; assumption).
  cbn [add_scaled] in Ehh, Ehf.
  eexists _, _, _. split; [exact Ehh|]. split; [exact Ehf|]. split; [exact Eh'|].
  rewrite !ln_quotient by assumption.
  assert (ln pk < ln (0.5 * (pk + pk'))) by (apply ln_increasing; lra).
  assert (ln (0.5 * (pk + pk')) < ln pk') by (apply ln_increasing; lra).
  split; nra.
Qed.

End Layering.

Lemma full_pressures_are_means_witness :
  exists res,
    Hydrostatic.hydrostatic_column 100000 12 [20000; 4]%R [0; 0.99]%R
      [220; 280; 288]%R [0; 0.01; 0.01]%R = Ok res
    /\ (List.length (Hydrostatic.height_h res) = 3%nat
        /\ List.length (Hydrostatic.height_f res) = 3%nat
        /\ List.length (Hydrostatic.p_h res) = 3%nat
        /\ List.length (Hydrostatic.p_f res) = 3%nat)
    /\ nth 0 (Hydrostatic.p_f res) 0%R = (0.5 * nth 0 (Hydrostatic.p_h res) 0)%R
    /\ forall k, (S k < 3)%nat ->
         nth (S k) (Hydrostatic.p_f res) 0%R
         = (0.5 * (nth k (Hydrostatic.p_h res) 0
                   + nth (S k) (Hydrostatic.p_h res) 0))%R.
Proof.
  destruct (HydrostaticFacts.hydrostatic_column_returns 100000 12 [20000; 4]%R
              [0; 0.99]%R [220; 280; 288]%R [0; 0.01; 0.01]%R) as [res E].
  - simpl. lia.
  - simpl. lia.
  - simpl. lia.
  - simpl. lia.
  - lra.
  - intros k Hk. simpl in Hk. destruct k as [|[|k]]; simpl; try lra. lia.
  - exists res. split; [exact E|].
    apply (full_pressures_are_means 100000 12 [20000; 4]%R [0; 0.99]%R
             [220; 280; 288]%R [0; 0.01; 0.01]%R res E).
Defined.

Lemma top_full_level_witness :
  exists res,
    Hydrostatic.hydrostatic_column 100000 12 [20000; 4]%R [0; 0.99]%R
      [220; 280; 288]%R [0; 0.01; 0.01]%R = Ok res
    /\ nth 0 (Hydrostatic.height_f res) None
       = Hydrostatic.add_scaled (nth 0 (Hydrostatic.height_h res) None)
           (Layers.scale [220; 280; 288]%R [0; 0.01; 0.01]%R 0) (Some (ln 2)).
Proof.
  destruct (HydrostaticFacts.hydrostatic_column_returns 100000 12 [20000; 4]%R
              [0; 0.99]%R [220; 280; 288]%R [0; 0.01; 0.01]%R) as [res E].
  - simpl. lia.
  - simpl. lia.
  - simpl. lia.
  - simpl. lia.
  - lra.
  - intros k Hk. simpl in Hk. destruct k as [|[|k]]; simpl; try lra. lia.
  - exists res. split; [exact E|].
    apply (top_full_level 100000 12 [20000; 4]%R [0; 0.99]%R
             [220; 280; 288]%R [0; 0.01; 0.01]%R res E).
Defined.

Lemma heights_increase_upwards_witness :
  exists res,
    Hydrostatic.hydrostatic_column 100000 12 [20000; 4]%R [0; 0.99]%R
      [220; 280; 288]%R [0; 0.01; 0.01]%R = Ok res
    /\ forall k, (S k < 3)%nat ->
         exists h_above h_full h_below,
           nth k (Hydrostatic.height_h res) None = Some h_above
           /\ nth (S k) (Hydrostatic.height_f res) None = Some h_full
           /\ nth (S k) (Hydrostatic.height_h res) None = Some h_below
           /\ (h_below < h_full < h_above)%R.
Proof.
  apply (heights_increase_upwards 100000 12 [20000; 4]%R [0; 0.99]%R
           [220; 280; 288]%R [0; 0.01; 0.01]%R).
  - simpl. lia.
  - simpl. lia.
  - simpl. lia.
  - simpl. lia.
  - unfold Hydrostatic.half_pressure. simpl. lra.
  - intros k Hk. simpl in Hk. unfold Hydrostatic.half_pressure.
    destruct k as [|[|k]]; simpl; [repeat split; lra | repeat split; lra | lia].
Defined.

(** ** [add_heights_and_pressures] *)

Lemma get2_map_map {A B : Type} (f : A -> B) (a : array2 A) (j i : nat) (y : B) :
  get2 (map (map f) a) j i = Ok y ->
  exists x, get2 a j i = Ok x /\ y = f x.
Proof.
  unfold get2, get. rewrite nth_error_map.
  destruct (nth_error a j) as [row|]; cbn [option_map bind]; [|discriminate].
  rewrite nth_error_map.
  destruct (nth_error row i) as [x|]; cbn [option_map]; [|discriminate].
  intros H. apply Ok_inj in H. exists x. split; [reflexivity | congruence].
Qed.

Section SurfaceGeopotential.

Import Era5Levels.
Open Scope R_scope.

(** X9.  When [add_heights_and_pressures] returns, at every time and
    every horizontal point the half-level height at the surface level is
    the surface geopotential ["z"] divided by the gravity [rg], and the
    half-level pressure at the surface level is the surface pressure
    ["sp"]. *)
Theorem surface_from_geopotential (a_coeffs_137 b_coeffs_137 : list R)
  (ds : dataset)
  (out : list (array3 Hydrostatic.height * array3 Hydrostatic.height
               * array3 R * array3 R))
  (time_index : nat) :
  add_heights_and_pressures a_coeffs_137 b_coeffs_137 ds = Ok out ->
  (time_index < List.length (t ds))%nat ->
  exists height_h height_f p_h p_f z_t sp_t t_field,
    nth_error out time_index = Some (height_h, height_f, p_h, p_f)
    /\ get (z ds) time_index = Ok z_t
    /\ get (sp ds) time_index = Ok sp_t
    /\ get (t ds) time_index = Ok t_field
    /\ forall j i, (j < shape1 t_field)%nat -> (i < shape2 t_field)%nat ->
         exists g p,
           get2 z_t j i = Ok g /\ get2 sp_t j i = Ok p
           /\ nth i (nth j (nth (List.length t_field - 1) height_h []) []) None
              = Some (g / Hydrostatic.rg)
           /\ nth i (nth j (nth (List.length t_field - 1) p_h []) []) 0 = p.
Proof.
  unfold add_heights_and_pressures. intros H Ht.
  destruct (mapM_nth _ _ _ time_index time_index H) as [[[[hh hf] ph] pf] [Hc Hn]].
  { rewrite nth_error_nth' with (d := 0%nat) by (rewrite length_seq; exact Ht).
    rewrite seq_nth by exact Ht. reflexivity. }
  destruct (get (sp ds) time_index) as [sp_t|] eqn:Esp; [|discriminate].
  destruct (get (z ds) time_index) as [z_t|] eqn:Ez; [|discriminate].
  cbn [bind] in Hc.
  destruct (get (t ds) time_index) as [t_field|] eqn:Et; [|discriminate].
  destruct (get (q ds) time_index) as [q_field|] eqn:Eq; [|discriminate].
  cbn [bind] in Hc.
  exists hh, hf, ph, pf, z_t, sp_t, t_field.
  repeat (split; [first [assumption | reflexivity]|]).
  intros j i Hj Hi.
  destruct (calculate_surface_values _ _ _ _ _ _ _ _ _ _ j i Hc Hj Hi)
    as [Hp [z_s [Hz Hh]]].
  destruct (get2_map_map _ _ _ _ _ Hz) as [g [Hg Eg]].
  exists g, (nth i (nth j (nth (List.length t_field - 1) ph []) []) 0).
  split; [exact Hg|]. split; [exact Hp|]. split; [|reflexivity].
  rewrite Hh, Eg. reflexivity.
Qed.

End SurfaceGeopotential.

(** A dataset of one time, two levels and one horizontal point. *)
Lemma surface_from_geopotential_witness :
  let ds := Era5Levels.mkDataset [[[100000]]]%R [[[98.0665]]]%R
              [[[[250]]; [[280]]]]%R [[[[0]]; [[0.01]]]]%R in
  exists out height_h height_f p_h p_f,
    Era5Levels.add_heights_and_pressures [20000; 0]%R [0.5; 1]%R ds = Ok out
    /\ nth_error out 0 = Some (height_h, height_f, p_h, p_f)
    /\ nth 0 (nth 0 (nth 1 height_h []) []) None
       = Some (98.0665 / Hydrostatic.rg)%R
    /\ nth 0 (nth 0 (nth 1 p_h []) []) 0%R = 100000%R.
Proof.
  cbv zeta.
  assert (exists out,
            Era5Levels.add_heights_and_pressures [20000; 0]%R [0.5; 1]%R
              (Era5Levels.mkDataset [[[100000]]]%R [[[98.0665]]]%R
                 [[[[250]]; [[280]]]]%R [[[[0]]; [[0.01]]]]%R) = Ok out) as [out E].
  { unfold Era5Levels.add_heights_and_pressures, calculate_heights_and_pressures,
      for_columns.
    cbn [Era5Levels.t Era5Levels.sp Era5Levels.z Era5Levels.q List.length seq mapM
         get nth_error bind shape1 shape2 hd get2 column map].
    destruct (HydrostaticFacts.hydrostatic_column_returns 100000
                (98.0665 / Hydrostatic.rg) [20000; 0]%R [0.5; 1]%R
                [250; 280]%R [0; 0.01]%R) as [res Eres].
    - simpl. lia.
    - simpl. lia.
    - simpl. lia.
    - simpl. lia.
    - lra.
    - intros k Hk. simpl in Hk. destruct k as [|k]; [simpl; lra | lia].
    - rewrite Eres. cbn [bind]. eexists. reflexivity. }
  destruct (surface_from_geopotential [20000; 0]%R [0.5; 1]%R _ out 0 E)
    as [hh [hf [ph [pf [z_t [sp_t [t_field [Hn [Hz [Hsp [Ht Hall]]]]]]]]]]].
  { simpl. lia. }
  cbn in Hz, Hsp, Ht. apply Ok_inj in Hz, Hsp, Ht. subst z_t sp_t t_field.
  destruct (Hall 0%nat 0%nat) as [g [p [Hg [Hp [Hh Hph]]]]].
  { unfold shape1. simpl. lia. }
  { unfold shape2. simpl. lia. }
  cbn in Hg, Hp. apply Ok_inj in Hg, Hp. subst g p.
  exists out, hh, hf, ph, pf. repeat split; assumption.
Defined.

(** ** [steffen_3d] and [era5_on_height_levels]: whole arrays *)

Section WholeArrays.

Import Steffen Era5 CheckFacts.
Open Scope Q_scope.

(** X10.  One column whose levels descend between the first three nodes
    makes the whole call of [steffen_3d] raise: no output array is
    returned, also not for the columns that are in order. *)
Theorem descending_column_aborts (input_data input_levels : array3 Q)
  (O : list Q) (lower : array2 Q) (flag : bool) (j i : nat) (L : list Q) :
  (j < shape1 input_data)%nat -> (i < shape2 input_data)%nat ->
  column input_levels j i = Ok L -> (3 <= List.length L)%nat ->
  nth 1 L 0 < nth 0 L 0 \/ nth 2 L 0 < nth 1 L 0 ->
  exists e, steffen_3d input_data input_levels O lower flag = Raise e.
Proof.
  intros Hj Hi HL H3 Hdesc.
  destruct (steffen_3d input_data input_levels O lower flag) as [out|e] eqn:E;
    [|exists e; reflexivity].
  exfalso.
  destruct (steffen_3d_column _ _ _ _ _ out j i E Hj Hi)
    as [V [L' [les [col [_ [HL' [_ [Hcol _]]]]]]]].
  assert (L' = L) by congruence. subst L'.
  assert (steffen_column L V les flag O = Raise NonMonotonic) as C.
  { unfold steffen_column, linear_slope, first_point.
    rewrite !(get_nth L _ 0) by lia. cbn [bind].
    destruct (SteffenFacts.Qltb_spec (nth 1 L 0 - nth 0 L 0) 0) as [H1|H1];
      [reflexivity|].
    destruct (SteffenFacts.Qltb_spec (nth 2 L 0 - nth 1 L 0) 0) as [H2|H2];
      [reflexivity|].
    exfalso. destruct Hdesc; lra. }
  congruence.
Qed.

Lemma lookup_missing {A : Type} (name : string) (vars : list (string * A)) :
  ~ In name (map fst vars) -> lookup name vars = Raise KeyError.
Proof.
  induction vars as [|[n v] vars IH]; intros H; simpl; [reflexivity|].
  destruct (String.eqb n name) eqn:E.
  - apply String.eqb_eq in E. exfalso. apply H. left. exact E.
  - apply IH. intros C. apply H. right. exact C.
Qed.

(** X11.  Remapping a dataset that has no variable ["height_f"] among
    those on the levels raises [KeyError], whatever else it holds, once
    the heights have passed the check. *)
Theorem missing_height_f_raises (ds : dataset) (x : Q) (rest : list number) :
  ~ In "height_f"%string (map fst (on_levels ds)) ->
  era5_on_height_levels ds (Float x :: rest) = Raise KeyError.
Proof.
  intros H. unfold era5_on_height_levels.
  cbn [get nth_error bind is_integral].
  rewrite (lookup_missing _ _ H). reflexivity.
Qed.

Lemma mapM_names {A B : Type} (f : string * A -> result (string * B))
  (vars : list (string * A)) (outs : list (string * B)) :
  (forall v y, f v = Ok y -> fst y = fst v) ->
  mapM f vars = Ok outs -> map fst outs = map fst vars.
Proof.
  intros Hf. revert outs. induction vars as [|v vars IH]; intros outs H; simpl in H.
  - apply Ok_inj in H. subst outs. reflexivity.
  - destruct (f v) as [y|] eqn:E; [|discriminate]. cbn [bind] in H.
    destruct (mapM f vars) as [ys|]; [|discriminate]. cbn [bind] in H.
    apply Ok_inj in H. subst outs. simpl. f_equal; [apply (Hf v y E)|].
    apply IH. reflexivity.
Qed.

(** X12.  When the remapping returns, the output dataset has the
    requested heights as its coordinate, the variables without levels
    unchanged, and for every time of ["height_f"] one remapped array for
    every variable on the levels, under the same name and in the same
    order. *)
Theorem remapped_dataset_layout (ds : dataset) (heights : list number)
  (hd : height_dataset) :
  era5_on_height_levels ds heights = Ok hd ->
  lev hd = heights
  /\ copied hd = no_level ds
  /\ (exists height_f,
        lookup "height_f"%string (on_levels ds) = Ok height_f
        /\ List.length (remapped hd) = List.length height_f)
  /\ Forall (fun at_time => map fst at_time = map fst (on_levels ds))
       (remapped hd).
Proof.
  unfold era5_on_height_levels. intros H.
  destruct (get heights 0) as [h0|]; [|discriminate]. cbn [bind] in H.
  destruct (is_integral h0); [discriminate|].
  destruct (lookup "height_f"%string (on_levels ds)) as [height_f|] eqn:Ef;
    [|discriminate].
  cbn [bind] in H.
  destruct (mapM _ _) as [out|] eqn:Em; [|discriminate].
  cbn [bind] in H. apply Ok_inj in H. subst hd. cbn [lev copied remapped].
  split; [reflexivity|]. split; [reflexivity|].
  split.
  - exists height_f. split; [reflexivity|].
    rewrite (mapM_length _ _ _ Em), length_seq. reflexivity.
  - apply Forall_forall. intros at_time Hin.
    apply In_nth_error in Hin. destruct Hin as [n Hn].
    assert (n < List.length out)%nat as Hlt
      by (apply nth_error_Some; congruence).
    rewrite (mapM_length _ _ _ Em), length_seq in Hlt.
    destruct (mapM_nth _ _ _ n n Em) as [y [Hy Hn']].
    { rewrite nth_error_nth' with (d := 0%nat) by (rewrite length_seq; exact Hlt).
      rewrite seq_nth by exact Hlt. reflexivity. }
    assert (y = at_time) by congruence. subst y.
    unfold remap_time in Hy.
    repeat match type of Hy with
           | bind ?m _ = Ok _ =>
               let E := fresh "E" in
               destruct m eqn:E; [cbn [bind] in Hy | discriminate]
           end.
    refine (mapM_names _ _ _ _ Hy).
    intros [variable values] y Hv.
    destruct (get values n); [cbn [bind] in Hv | discriminate].
    destruct (steffen_3d _ _ _ _ _); [cbn [bind] in Hv | discriminate].
    apply Ok_inj in Hv. subst y. reflexivity.
Qed.

End WholeArrays.

Lemma descending_column_aborts_witness :
  exists e,
    steffen_3d [[[10]]; [[12]]; [[9]]]%Q [[[0]]; [[100]]; [[50]]]%Q [20]%Q
      [[-10]]%Q false = Raise e.
Proof.
  apply (descending_column_aborts [[[10]]; [[12]]; [[9]]]%Q
           [[[0]]; [[100]]; [[50]]]%Q [20]%Q [[-10]]%Q false 0 0 [0; 100; 50]%Q).
  - unfold shape1. simpl. lia.
  - unfold shape2. simpl. lia.
  - reflexivity.
  - simpl. lia.
  - right. reflexivity.
Defined.

Lemma missing_height_f_raises_witness :
  Era5.era5_on_height_levels
    (Era5.mkDataset [("t"%string, [[[[9]]; [[12]]; [[10]]]]%Q)]
       [("lsm"%string, [[[0.05]]]%Q)])
    [Era5.Float 0; Era5.Float 40]
  = Raise KeyError.
Proof.
  apply (missing_height_f_raises
           (Era5.mkDataset [("t"%string, [[[[9]]; [[12]]; [[10]]]]%Q)]
              [("lsm"%string, [[[0.05]]]%Q)]) 0%Q [Era5.Float 40]).
  simpl. intros [C|C]; [discriminate | exact C].
Defined.

Lemma remapped_dataset_layout_witness :
  let ds :=
    Era5.mkDataset
      [("height_f"%string, [[[[500]]; [[100]]; [[10]]]]%Q);
       ("height_h"%string, [[[[300]]; [[50]]; [[2]]]]%Q);
       ("t"%string, [[[[9]]; [[12]]; [[10]]]]%Q)]
      [("lsm"%string, [[[0.05]]]%Q)] in
  let heights := [Era5.Float 0; Era5.Float 5; Era5.Float 50] in
  exists hd,
    Era5.era5_on_height_levels ds heights = Ok hd
    /\ Era5.lev hd = heights
    /\ Era5.copied hd = Era5.no_level ds
    /\ (exists height_f,
          Era5.lookup "height_f"%string (Era5.on_levels ds) = Ok height_f
          /\ List.length (Era5.remapped hd) = List.length height_f)
    /\ Forall (fun at_time => map fst at_time = map fst (Era5.on_levels ds))
         (Era5.remapped hd).
Proof.
  cbv zeta. eexists. split; [vm_compute; reflexivity|].
  apply remapped_dataset_layout. vm_compute. reflexivity.
Defined.

(** ** [era_5_normalise_longitude] *)

Module LongitudeFacts.

Import Longitude SteffenFacts.
Open Scope Q_scope.

Lemma floor_unique (x : Q) (z : Z) :
  inject_Z z <= x -> x < inject_Z (z + 1) -> Qfloor x = z.
Proof.
  intros H1 H2.
  pose proof (Qfloor_le x) as F1. pose proof (Qlt_floor x) as F2.
  assert (inject_Z z < inject_Z (Qfloor x + 1)) as A by lra.
  assert (inject_Z (Qfloor x) < inject_Z (z + 1)) as B by lra.
  rewrite <- Zlt_Qlt in A, B. lia.
Qed.

Lemma floor_shift (x : Q) (n : Z) : Qfloor (x + inject_Z n) = (Qfloor x + n)%Z.
Proof.
  apply floor_unique.
  - rewrite inject_Z_plus. pose proof (Qfloor_le x). lra.
  - pose proof (Qlt_floor x) as H. rewrite !inject_Z_plus in *.
    change (inject_Z 1) with 1 in *. lra.
Qed.

Lemma modulo_range (x m : Q) : 0 < m -> 0 <= modulo x m /\ modulo x m < m.
Proof.
  intros Hm. unfold modulo.
  pose proof (Qfloor_le (x / m)) as F1. pose proof (Qlt_floor (x / m)) as F2.
  rewrite inject_Z_plus in F2. change (inject_Z 1) with 1 in F2.
  assert (x == m * (x / m)) as E by (field; lra).
  set (f := inject_Z (Qfloor (x / m))) in *. set (d := x / m) in *.
  assert (0 <= m * (d - f)) by (apply Qmult_le_0_compat; lra).
  assert (0 < m * (f + 1 - d)) by (apply Qmult_lt_0_compat; lra).
  split; lra.
Qed.

Lemma modulo_shift (x m : Q) (n : Z) :
  0 < m -> modulo (x + m * inject_Z n) m == modulo x m.
Proof.
  intros Hm. unfold modulo.
  assert ((x + m * inject_Z n) / m == x / m + inject_Z n) as E by (field; lra).
  rewrite (Qfloor_comp _ _ E), floor_shift, inject_Z_plus. ring.
Qed.

Lemma modulo_comp (x y m : Q) : x == y -> modulo x m == modulo y m.
Proof.
  intros E. unfold modulo.
  assert (x / m == y / m) as Ed by (rewrite E; reflexivity).
  rewrite (Qfloor_comp _ _ Ed), E. reflexivity.
Qed.

Lemma rint_comp (x y : Q) : x == y -> rint x = rint y.
Proof.
  intros E. unfold rint. rewrite (Qfloor_comp _ _ E).
  set (f := Qfloor y).
  destruct (Qltb_spec (x - inject_Z f) (1 # 2)), (Qltb_spec (y - inject_Z f) (1 # 2));
    try reflexivity; try (exfalso; lra).
  destruct (Qltb_spec (1 # 2) (x - inject_Z f)), (Qltb_spec (1 # 2) (y - inject_Z f));
    try reflexivity; exfalso; lra.
Qed.

(** The nearest integer is within a half. *)
Lemma rint_near (x : Q) : Qabs (inject_Z (rint x) - x) <= 1 # 2.
Proof.
  unfold rint. cbv zeta.
  pose proof (Qfloor_le x) as F1. pose proof (Qlt_floor x) as F2.
  rewrite inject_Z_plus in F2. change (inject_Z 1) with 1 in F2.
  set (f := Qfloor x) in *.
  apply Qabs_Qle_condition.
  destruct (Qltb_spec (x - inject_Z f) (1 # 2)); [split; lra|].
  destruct (Qltb_spec (1 # 2) (x - inject_Z f)).
  { rewrite inject_Z_plus. change (inject_Z 1) with 1. split; lra. }
  destruct (Z.even f); [split; lra|].
  rewrite inject_Z_plus. change (inject_Z 1) with 1. split; lra.
Qed.

Lemma rint_Z (z : Z) : rint (inject_Z z) = z.
Proof.
  unfold rint. rewrite Qfloor_Z.
  destruct (Qltb_spec (inject_Z z - inject_Z z) (1 # 2)); [reflexivity|].
  exfalso. lra.
Qed.

End LongitudeFacts.

Section NormalisedLongitude.

Import Longitude LongitudeFacts SteffenFacts.
Open Scope Q_scope.

Lemma round4_near (y : Q) : Qabs (round y 4 - y) <= 1 # 20000.
Proof.
  unfold round. change (inject_Z (10 ^ Z.of_nat 4)) with 10000.
  pose proof (rint_near (y * 10000)) as H.
  apply Qabs_Qle_condition in H. apply Qabs_Qle_condition.
  set (r := inject_Z (rint (y * 10000))) in *.
  assert (r / 10000 == r * (1 # 10000)) as E by field.
  rewrite E. split; lra.
Qed.

Lemma round4_grid (y : Q) : round y 4 * 10000 == inject_Z (rint (y * 10000)).
Proof.
  unfold round. change (inject_Z (10 ^ Z.of_nat 4)) with 10000. field.
Qed.

Lemma normalise_point (lon : Q) :
  0 <= normalise lon <= 360
  /\ (exists z : Z, normalise lon * 10000 == inject_Z z)
  /\ Qabs (normalise lon - modulo lon 360.0) <= 1 # 20000.
Proof.
  unfold normalise.
  set (m := modulo lon 360.0).
  assert (0 <= m /\ m < 360) as [M1 M2].
  { destruct (modulo_range lon 360.0) as [A B]; [reflexivity|].
    fold m in A, B. split; [exact A|].
    assert (360.0 == 360) by reflexivity. lra. }
  pose proof (round4_near m) as Hnear.
  pose proof (round4_grid m) as Hgrid.
  split; [|split].
  - pose proof (rint_near (m * 10000)) as H.
    apply Qabs_Qle_condition in H.
    set (z := rint (m * 10000)) in *.
    assert (inject_Z (-1) < inject_Z z) as A
      by (change (inject_Z (-1)) with (-1); lra).
    assert (inject_Z z < inject_Z 3600001) as B
      by (change (inject_Z 3600001) with 3600001; lra).
    rewrite <- Zlt_Qlt in A, B.
    assert (inject_Z 0 <= inject_Z z) as A' by (rewrite <- Zle_Qle; lia).
    assert (inject_Z z <= inject_Z 3600000) as B' by (rewrite <- Zle_Qle; lia).
    change (inject_Z 0) with 0 in A'. change (inject_Z 3600000) with 3600000 in B'.
    split; lra.
  - exists (rint (m * 10000)). exact Hgrid.
  - exact Hnear.
Qed.

Lemma normalise_fixed_point (lon : Q) (z : Z) :
  0 <= lon -> lon < 360 -> lon * 10000 == inject_Z z ->
  normalise lon == lon.
Proof.
  intros H0 H360 Hz. unfold normalise.
  assert (modulo lon 360.0 == lon) as Em.
  { unfold modulo.
    assert (Qfloor (lon / 360.0) = 0%Z) as Ef.
    { apply floor_unique.
      - change (inject_Z 0) with 0. apply Qle_shift_div_l; [reflexivity|]. lra.
      - change (inject_Z (0 + 1)) with 1. apply Qlt_shift_div_r; [reflexivity|].
        assert (360.0 == 360) by reflexivity. lra. }
    rewrite Ef. change (inject_Z 0) with 0. ring. }
  unfold round. change (inject_Z (10 ^ Z.of_nat 4)) with 10000.
  assert (modulo lon 360.0 * 10000 == inject_Z z) as E by (rewrite Em; exact Hz).
  rewrite (rint_comp _ _ E), rint_Z.
  rewrite <- Hz. field.
Qed.

Lemma normalise_comp (x y : Q) : x == y -> normalise x = normalise y.
Proof.
  intros E. unfold normalise, round. f_equal. f_equal. apply rint_comp.
  rewrite (modulo_comp x y 360.0 E). reflexivity.
Qed.

(** X13.  Every normalised longitude lies between 0 and 360 degrees, both
    included, is a whole number of ten-thousandths of a degree, and differs
    from the longitude taken modulo 360 by at most half a ten-thousandth;
    the coordinate keeps its length. *)
Theorem normalised_longitude_range (longitude : list Q) :
  List.length (era_5_normalise_longitude longitude) = List.length longitude
  /\ forall n, (n < List.length longitude)%nat ->
       let lon := nth n longitude 0 in
       let r := nth n (era_5_normalise_longitude longitude) 0 in
       0 <= r <= 360
       /\ (exists z : Z, r * 10000 == inject_Z z)
       /\ Qabs (r - modulo lon 360.0) <= 1 # 20000.
Proof.
  unfold era_5_normalise_longitude. split; [apply length_map|].
  intros n Hn. cbv zeta.
  rewrite nth_indep with (d' := normalise 0) by (rewrite length_map; exact Hn).
  rewrite map_nth. apply normalise_point.
Qed.

(** X14.  Longitudes that differ by whole turns of 360 degrees are
    normalised to equal values: a longitude stored as negative degrees
    west and the same one stored as degrees east of Greenwich align. *)
Theorem normalised_longitude_periodic (lon : Q) (turns : Z) :
  era_5_normalise_longitude [lon + 360 * inject_Z turns]
  = era_5_normalise_longitude [lon].
Proof.
  unfold era_5_normalise_longitude. cbn [map]. f_equal.
  unfold normalise, round. f_equal. f_equal. apply rint_comp.
  assert (modulo (lon + 360 * inject_Z turns) 360.0 == modulo lon 360.0) as E.
  { rewrite <- (modulo_shift lon 360.0 turns) by reflexivity.
    apply modulo_comp. lra. }
  rewrite E. reflexivity.
Qed.

(** X15.  Normalising an already normalised longitude changes nothing,
    unless the first result is 360 itself, which a second normalisation
    turns into 0: the rounding can reach the bound 360 that the modulo
    excludes. *)
Theorem normalised_longitude_idempotent (lon : Q) :
  (normalise lon < 360 -> normalise (normalise lon) == normalise lon)
  /\ (normalise lon == 360 -> normalise (normalise lon) == 0).
Proof.
  destruct (normalise_point lon) as [[R0 R360] [[z Hz] _]].
  split.
  - intros H. apply (normalise_fixed_point _ z); assumption.
  - intros H. rewrite (normalise_comp _ _ H). reflexivity.
Qed.

End NormalisedLongitude.

(** The rounding does reach 360. *)
Example normalised_longitude_reaches_360 :
  (Longitude.normalise 359.99996 == 360)%Q.
Proof. reflexivity. Qed.


(** ** [cos_transition] *)

Module TransitionFacts.

Import Transition.
Open Scope R_scope.

Lemma weight_factor_low (n : R) : n <= 0 -> weight_factor n = 1.
Proof.
  intros H. unfold weight_factor, truth, Geometry.pi.
  destruct (Rlt_dec n 0.0) as [L|L]; destruct (Rgt_dec n 1.0) as [G|G];
    try lra.
  assert (n = 0) as -> by lra.
  rewrite Rmult_0_l, cos_0. lra.
Qed.

Lemma weight_factor_high (n : R) : 1 <= n -> weight_factor n = 0.
Proof.
  intros H. unfold weight_factor, truth, Geometry.pi.
  destruct (Rlt_dec n 0.0) as [L|L]; destruct (Rgt_dec n 1.0) as [G|G];
    try lra.
  assert (n = 1) as -> by lra.
  rewrite Rmult_1_l, cos_PI. lra.
Qed.

Lemma weight_factor_mid (n : R) :
  0 <= n <= 1 -> weight_factor n = 0.5 + 0.5 * cos (n * PI).
Proof.
  intros [H0 H1]. unfold weight_factor, truth, Geometry.pi.
  destruct (Rlt_dec n 0.0) as [L|L]; destruct (Rgt_dec n 1.0) as [G|G];
    try lra.
Qed.

Lemma weight_factor_range (n : R) : 0 <= weight_factor n <= 1.
Proof.
  destruct (Rle_dec n 0) as [L|L].
  { rewrite weight_factor_low by exact L. lra. }
  destruct (Rle_dec 1 n) as [G|G].
  { rewrite weight_factor_high by exact G. lra. }
  rewrite weight_factor_mid by lra.
  pose proof (COS_bound (n * PI)). lra.
Qed.

Lemma weight_factor_inside (n : R) : 0 < n < 1 -> 0 < weight_factor n < 1.
Proof.
  intros [H0 H1]. rewrite weight_factor_mid by lra.
  pose proof PI_RGT_0 as Hpi.
  assert (0 < n * PI) as A by (apply Rmult_lt_0_compat; lra).
  assert (n * PI < PI) as B by nra.
  assert (cos (n * PI) < cos 0) as C by (apply cos_decreasing_1; lra).
  assert (cos PI < cos (n * PI)) as D by (apply cos_decreasing_1; lra).
  rewrite cos_0 in C. rewrite cos_PI in D. lra.
Qed.

Lemma weight_factor_decreasing (n1 n2 : R) :
  n1 <= n2 -> weight_factor n2 <= weight_factor n1.
Proof.
  intros H.
  destruct (Rle_dec n1 0) as [L|L].
  { rewrite (weight_factor_low n1) by exact L.
    apply weight_factor_range. }
  destruct (Rle_dec 1 n2) as [G|G].
  { rewrite (weight_factor_high n2) by exact G.
    apply weight_factor_range. }
  rewrite !weight_factor_mid by lra.
  pose proof PI_RGT_0 as Hpi.
  assert (cos (n2 * PI) <= cos (n1 * PI)).
  { apply cos_decr_1; nra. }
  lra.
Qed.

Lemma weight_factor_mirror (n : R) :
  weight_factor (1 - n) = 1 - weight_factor n.
Proof.
  destruct (Rle_dec n 0) as [L|L].
  { rewrite (weight_factor_low n) by exact L.
    rewrite weight_factor_high by lra. lra. }
  destruct (Rle_dec 1 n) as [G|G].
  { rewrite (weight_factor_high n) by exact G.
    rewrite weight_factor_low by lra. lra. }
  rewrite !weight_factor_mid by lra.
  replace ((1 - n) * PI) with (PI - n * PI) by ring.
  rewrite cos_minus, cos_PI, sin_PI. lra.
Qed.

Lemma cos_transition_value (x s e : R) :
  e <> s ->
  cos_transition x s e = Some (weight_factor ((x - s) / (e - s))).
Proof.
  intros H. unfold cos_transition.
  destruct (Req_dec_T (e - s) 0) as [E|E]; [lra|reflexivity].
Qed.

Lemma height_normalised (p : R) :
  (p - 60000.0) / (50000.0 - 60000.0) = (60000 - p) / 10000.
Proof.
  replace 60000.0 with 60000 by lra. replace 50000.0 with 50000 by lra.
  field.
Qed.

End TransitionFacts.

Section CosTransition.

Import Transition TransitionFacts.
Open Scope R_scope.

(** X16.  Between two different bounds the transition weight is a number
    between 0 and 1: it is 1 up to the start of the transition, 0 from its
    end on, and strictly between the two inside the transition.  The start
    may lie above the end, the transition then runs downwards. *)
Theorem cos_transition_plateaus (x s e : R) :
  e <> s ->
  exists w, cos_transition x s e = Some w
    /\ 0 <= w <= 1
    /\ ((s < e /\ x <= s) \/ (e < s /\ s <= x) -> w = 1)
    /\ ((s < e /\ e <= x) \/ (e < s /\ x <= e) -> w = 0)
    /\ ((s < x < e) \/ (e < x < s) -> 0 < w < 1).
Proof.
  intros H. exists (weight_factor ((x - s) / (e - s))).
  split; [apply cos_transition_value; exact H|].
  split; [apply weight_factor_range|].
  assert (forall n, n * (e - s) = x - s -> (x - s) / (e - s) = n) as Hn.
  { intros n En. rewrite <- En. field. lra. }
  set (n := (x - s) / (e - s)).
  assert (n * (e - s) = x - s) as En by (unfold n; field; lra).
  split; [|split].
  - intros Hc. apply weight_factor_low.
    destruct Hc as [[A B]|[A B]]; nra.
  - intros Hc. apply weight_factor_high.
    destruct Hc as [[A B]|[A B]]; nra.
  - intros Hc. apply weight_factor_inside.
    destruct Hc as [[A B]|[A B]]; split; nra.
Qed.

Lemma cos_transition_plateaus_witness :
  exists w, cos_transition 55000 60000 50000 = Some w
    /\ 0 <= w <= 1
    /\ ((60000 < 50000 /\ 55000 <= 60000) \/ (50000 < 60000 /\ 60000 <= 55000)
        -> w = 1)
    /\ ((60000 < 50000 /\ 50000 <= 55000) \/ (50000 < 60000 /\ 55000 <= 50000)
        -> w = 0)
    /\ ((60000 < 55000 < 50000) \/ (50000 < 55000 < 60000) -> 0 < w < 1).
Proof. apply (cos_transition_plateaus 55000 60000 50000). lra. Defined.

(** X17.  The transition is monotone: from the start towards the end the
    weight never increases. *)
Theorem cos_transition_monotone (x1 x2 s e w1 w2 : R) :
  cos_transition x1 s e = Some w1 ->
  cos_transition x2 s e = Some w2 ->
  (s < e /\ x1 <= x2) \/ (e < s /\ x2 <= x1) ->
  w2 <= w1.
Proof.
  intros H1 H2 Hc.
  assert (e <> s) as Hes by (destruct Hc as [[A _]|[A _]]; lra).
  rewrite cos_transition_value in H1, H2 by exact Hes.
  injection H1 as <-. injection H2 as <-.
  apply weight_factor_decreasing.
  set (n1 := (x1 - s) / (e - s)). set (n2 := (x2 - s) / (e - s)).
  assert (n1 * (e - s) = x1 - s) as E1 by (unfold n1; field; lra).
  assert (n2 * (e - s) = x2 - s) as E2 by (unfold n2; field; lra).
  destruct Hc as [[A B]|[A B]]; nra.
Qed.

Lemma cos_transition_monotone_witness :
  cos_transition 0 0 1 = Some 1 /\ cos_transition 1 0 1 = Some 0 /\ 0 <= 1.
Proof.
  assert (cos_transition 0 0 1 = Some 1) as H1.
  { rewrite cos_transition_value by lra.
    rewrite weight_factor_low by lra. reflexivity. }
  assert (cos_transition 1 0 1 = Some 0) as H2.
  { rewrite cos_transition_value by lra.
    rewrite weight_factor_high by lra. reflexivity. }
  split; [exact H1|]. split; [exact H2|].
  apply (cos_transition_monotone 0 1 0 1 1 0 H1 H2). left. lra.
Defined.

(** X18.  The transition is symmetric about its middle: the weights at two
    inputs mirrored about the middle of the transition add up to one, and
    the weight in the middle is one half. *)
Theorem cos_transition_symmetric (x s e w : R) :
  cos_transition x s e = Some w ->
  cos_transition (s + e - x) s e = Some (1 - w)
  /\ cos_transition ((s + e) / 2) s e = Some (1 / 2).
Proof.
  intros H.
  assert (e <> s) as Hes.
  { unfold cos_transition in H.
    destruct (Req_dec_T (e - s) 0); [discriminate|lra]. }
  rewrite cos_transition_value in H by exact Hes. injection H as <-.
  rewrite !cos_transition_value by exact Hes.
  split; f_equal.
  - rewrite <- weight_factor_mirror. f_equal. field. lra.
  - replace (((s + e) / 2 - s) / (e - s)) with (1 / 2) by (field; lra).
    rewrite weight_factor_mid by lra.
    replace (1 / 2 * PI) with (PI / 2) by lra.
    rewrite cos_PI2. lra.
Qed.

Lemma cos_transition_symmetric_witness :
  cos_transition 0 0 1 = Some 1
  /\ cos_transition (0 + 1 - 0) 0 1 = Some (1 - 1)
  /\ cos_transition ((0 + 1) / 2) 0 1 = Some (1 / 2).
Proof.
  assert (cos_transition 0 0 1 = Some 1) as H1.
  { rewrite cos_transition_value by lra.
    rewrite weight_factor_low by lra. reflexivity. }
  split; [exact H1|].
  apply (cos_transition_symmetric 0 0 1 1 H1).
Defined.

(** X19.  The height factor of [weighted_velocity] gives full weight to
    the levels with a pressure of 60000 Pa or more, no weight to the
    levels with 50000 Pa or less, and a weight that does not decrease with
    pressure in between; the factor is always a number. *)
Theorem height_factor_cutoffs (p_f : R) :
  exists w, height_factor p_f = Some w
    /\ 0 <= w <= 1
    /\ (60000 <= p_f -> w = 1)
    /\ (p_f <= 50000 -> w = 0)
    /\ (forall p' w', p_f <= p' -> height_factor p' = Some w' -> w <= w').
Proof.
  unfold height_factor, pres_cutoff_start, pres_cutoff_end.
  assert (50000.0 <> 60000.0) as Hes by lra.
  rewrite cos_transition_value by exact Hes.
  eexists. split; [reflexivity|].
  split; [apply weight_factor_range|].
  rewrite height_normalised.
  split; [|split].
  - intros H. apply weight_factor_low. lra.
  - intros H. apply weight_factor_high. lra.
  - intros p' w' Hp H'.
    rewrite cos_transition_value in H' by exact Hes. injection H' as <-.
    rewrite height_normalised.
    apply weight_factor_decreasing. lra.
Qed.

End CosTransition.

(** ** Positions on the sphere *)

Module GeometryFacts.

Import Geometry.
Open Scope R_scope.

Lemma arctan2_right (y x : R) : 0 < x -> arctan2 y x = atan (y / x).
Proof.
  intros H. unfold arctan2. destruct (Rlt_dec 0 x); [reflexivity|lra].
Qed.

Lemma arctan2_up (y : R) : 0 < y -> arctan2 y 0 = PI / 2.
Proof.
  intros H. unfold arctan2.
  destruct (Rlt_dec 0 0); [lra|].
  destruct (Rlt_dec 0 y); [reflexivity|lra].
Qed.

Lemma arctan2_down (y : R) : y < 0 -> arctan2 y 0 = - (PI / 2).
Proof.
  intros H. unfold arctan2.
  destruct (Rlt_dec 0 0); [lra|].
  destruct (Rlt_dec 0 y); [lra|].
  destruct (Rlt_dec y 0); [reflexivity|lra].
Qed.

Lemma arctan2_flat (x : R) : 0 <= x -> arctan2 0 x = 0.
Proof.
  intros H. unfold arctan2.
  destruct (Rlt_dec 0 x).
  - unfold Rdiv. rewrite Rmult_0_l. apply atan_0.
  - destruct (Rlt_dec x 0); [lra|].
    destruct (Rlt_dec 0 0); [lra|reflexivity].
Qed.

Lemma arctan2_back (x : R) : x < 0 -> arctan2 0 x = PI.
Proof.
  intros H. unfold arctan2.
  destruct (Rlt_dec 0 x); [lra|].
  destruct (Rlt_dec x 0); [|lra].
  destruct (Rle_dec 0 0); [|lra].
  unfold Rdiv. rewrite Rmult_0_l, atan_0. lra.
Qed.

Lemma arctan2_range (y x : R) : - PI < arctan2 y x <= PI.
Proof.
  pose proof PI_RGT_0 as Hpi. unfold arctan2.
  destruct (Rlt_dec 0 x).
  { pose proof (atan_bound (y / x)). lra. }
  destruct (Rlt_dec x 0) as [Hx|Hx].
  { assert (0 < - x) as Hnx by lra.
    destruct (Rle_dec 0 y) as [Hy|Hy].
    - assert (atan (y / x) <= 0).
      { replace (y / x) with (- (y / - x)) by (field; lra).
        rewrite atan_opp.
        assert (0 <= atan (y / - x)); [|lra].
        rewrite <- atan_0.
        destruct (Req_dec y 0) as [->|Hy0].
        + unfold Rdiv. rewrite Rmult_0_l. lra.
        + left. apply atan_increasing.
          apply Rdiv_lt_0_compat; lra. }
      pose proof (atan_bound (y / x)). lra.
    - assert (0 < atan (y / x)).
      { rewrite <- atan_0. apply atan_increasing.
        replace (y / x) with ((- y) / (- x)) by (field; lra).
        apply Rdiv_lt_0_compat; lra. }
      pose proof (atan_bound (y / x)). lra. }
  destruct (Rlt_dec 0 y); [lra|].
  destruct (Rlt_dec y 0); lra.
Qed.

Lemma arctan2_quadrant (y x : R) :
  0 <= y -> 0 <= x -> 0 <= arctan2 y x <= PI / 2.
Proof.
  intros Hy Hx. pose proof PI_RGT_0 as Hpi. unfold arctan2.
  destruct (Rlt_dec 0 x).
  { pose proof (atan_bound (y / x)).
    assert (0 <= atan (y / x)); [|lra].
    rewrite <- atan_0.
    destruct (Req_dec y 0) as [->|Hy0].
    - unfold Rdiv. rewrite Rmult_0_l. lra.
    - left. apply atan_increasing. apply Rdiv_lt_0_compat; lra. }
  destruct (Rlt_dec x 0); [lra|].
  destruct (Rlt_dec 0 y); [lra|].
  destruct (Rlt_dec y 0); lra.
Qed.

(** The angle of the point [(cos a, sin a)] is [a], in the right half
    plane. *)
Lemma arctan2_sin_cos (a : R) :
  - (PI / 2) <= a <= PI / 2 -> arctan2 (sin a) (cos a) = a.
Proof.
  intros [Hl Hu]. pose proof PI_RGT_0 as Hpi.
  destruct (Req_dec a (PI / 2)) as [->|Hup].
  { rewrite cos_PI2, sin_PI2. apply arctan2_up. lra. }
  destruct (Req_dec a (- (PI / 2))) as [->|Hdown].
  { rewrite cos_neg, sin_neg, cos_PI2, sin_PI2. apply arctan2_down. lra. }
  assert (0 < cos a) as Hc by (apply cos_gt_0; lra).
  rewrite arctan2_right by exact Hc.
  change (sin a / cos a) with (tan a). apply atan_tan. lra.
Qed.

Lemma square_as_Rsqr (x : R) : x ^ 2 = Rsqr x.
Proof. unfold Rsqr. ring. Qed.

(** The haversine in the half angles: a form that shows its range. *)
Lemma haversine_form (lat1 lon1 lat2 lon2 : R) :
  haversine lat1 lon1 lat2 lon2
  = sin ((lat2 - lat1) / 2) ^ 2 * cos ((lon2 - lon1) / 2) ^ 2
    + cos ((lat1 + lat2) / 2) ^ 2 * sin ((lon2 - lon1) / 2) ^ 2.
Proof.
  unfold haversine. cbv zeta.
  set (a := (lat2 - lat1) / 2). set (m := (lat1 + lat2) / 2).
  set (b := (lon2 - lon1) / 2).
  replace lat1 with (m - a) by (unfold m, a; field).
  replace lat2 with (m + a) by (unfold m, a; field).
  rewrite cos_minus, cos_plus.
  pose proof (sin2_cos2 a) as Ha. pose proof (sin2_cos2 m) as Hm.
  pose proof (sin2_cos2 b) as Hb. unfold Rsqr in Ha, Hm, Hb.
  assert (cos a * cos a = 1 - sin a * sin a) as Ea by lra.
  assert (sin m * sin m = 1 - cos m * cos m) as Em by lra.
  assert (cos b * cos b = 1 - sin b * sin b) as Eb by lra.
  replace ((cos m * cos a + sin m * sin a) * (cos m * cos a - sin m * sin a))
    with ((cos m * cos m) * (cos a * cos a) - (sin m * sin m) * (sin a * sin a))
    by ring.
  replace (cos b ^ 2) with (cos b * cos b) by ring.
  rewrite Ea, Em, Eb. ring.
Qed.

Lemma haversine_range (lat1 lon1 lat2 lon2 : R) :
  0 <= haversine lat1 lon1 lat2 lon2 <= 1.
Proof.
  rewrite haversine_form.
  set (a := (lat2 - lat1) / 2). set (m := (lat1 + lat2) / 2).
  set (b := (lon2 - lon1) / 2).
  pose proof (sin2_cos2 a) as Ha. pose proof (sin2_cos2 m) as Hm.
  pose proof (sin2_cos2 b) as Hb. unfold Rsqr in Ha, Hm, Hb.
  pose proof (pow2_ge_0 (sin a)). pose proof (pow2_ge_0 (cos a)).
  pose proof (pow2_ge_0 (sin m)). pose proof (pow2_ge_0 (cos m)).
  pose proof (pow2_ge_0 (sin b)). pose proof (pow2_ge_0 (cos b)).
  assert (sin a ^ 2 <= 1) by nra. assert (cos m ^ 2 <= 1) by nra.
  assert (sin b ^ 2 + cos b ^ 2 = 1) by nra.
  split; nra.
Qed.

Lemma haversine_sym (lat1 lon1 lat2 lon2 : R) :
  haversine lat1 lon1 lat2 lon2 = haversine lat2 lon2 lat1 lon1.
Proof.
  unfold haversine. cbv zeta.
  replace ((lat1 - lat2) / 2) with (- ((lat2 - lat1) / 2)) by field.
  replace ((lon1 - lon2) / 2) with (- ((lon2 - lon1) / 2)) by field.
  rewrite !sin_neg. ring.
Qed.

(** The arc of a haversine [sin h ^ 2] is twice [|h|]. *)
Lemma arc_of_half_angle (h : R) :
  - (PI / 2) <= h <= PI / 2 ->
  arctan2 (sqrt (sin h ^ 2)) (sqrt (1.0 - sin h ^ 2)) = Rabs h.
Proof.
  intros Hh. pose proof PI_RGT_0 as Hpi.
  assert (sin h ^ 2 = sin (Rabs h) ^ 2) as Es.
  { unfold Rabs. destruct (Rcase_abs h); [rewrite sin_neg; ring|reflexivity]. }
  rewrite Es.
  assert (0 <= Rabs h <= PI / 2) as [G0 G1].
  { unfold Rabs. destruct (Rcase_abs h); lra. }
  set (g := Rabs h) in *.
  assert (0 <= sin g) as Hs by (apply sin_ge_0; lra).
  assert (0 <= cos g) as Hc by (apply cos_ge_0; lra).
  rewrite sqrt_pow2 by exact Hs.
  replace (1.0 - sin g ^ 2) with (cos g ^ 2).
  2:{ pose proof (sin2_cos2 g) as H. unfold Rsqr in H. lra. }
  rewrite sqrt_pow2 by exact Hc.
  apply arctan2_sin_cos. lra.
Qed.

Lemma Int_part_unit (x : R) (z : Z) :
  IZR z <= x < IZR z + 1 -> Int_part x = z.
Proof.
  intros H. symmetry. apply Int_part_spec. lra.
Qed.

Lemma modulo_inside (x m : R) : 0 < m -> 0 <= x < m -> modulo x m = x.
Proof.
  intros Hm Hx. unfold modulo.
  rewrite (Int_part_unit (x / m) 0).
  - lra.
  - change (IZR 0) with 0. split.
    + apply Rmult_le_reg_r with m; [lra|].
      replace (x / m * m) with x by (field; lra). lra.
    + apply Rmult_lt_reg_r with m; [lra|].
      replace (x / m * m) with x by (field; lra). lra.
Qed.

Lemma modulo_below (x m : R) : 0 < m -> - m <= x < 0 -> modulo x m = x + m.
Proof.
  intros Hm Hx. unfold modulo.
  rewrite (Int_part_unit (x / m) (-1)).
  - lra.
  - change (IZR (-1)) with (-1). split.
    + apply Rmult_le_reg_r with m; [lra|].
      replace (x / m * m) with x by (field; lra). lra.
    + apply Rmult_lt_reg_r with m; [lra|].
      replace (x / m * m) with x by (field; lra). lra.
Qed.

(** The argument of the arcsine is a sine: the arcsine is defined. *)
Lemma previous_sine_range (lat_rad dist theta : R) :
  -1 <= previous_sine lat_rad dist theta <= 1.
Proof.
  unfold previous_sine.
  set (d := dist / r_earth).
  pose proof (sin2_cos2 lat_rad) as Ha. pose proof (sin2_cos2 d) as Hd.
  pose proof (sin2_cos2 theta) as Ht. unfold Rsqr in Ha, Hd, Ht.
  set (sa := sin lat_rad) in *. set (ca := cos lat_rad) in *.
  set (sd := sin d) in *. set (cd := cos d) in *.
  set (st := sin theta) in *. set (ct := cos theta) in *.
  assert ((sa * cd + ca * sd * ct) ^ 2 <= 1) as Hsq.
  { assert ((sa * cd + ca * sd * ct) ^ 2
            + (sa * sd - ca * cd * ct) ^ 2 + (ca * st) ^ 2
            = (sa * sa) * (sd * sd + cd * cd)
              + (ca * ca) * ((sd * sd + cd * cd) * (ct * ct) + st * st)) as E
      by ring.
    rewrite Hd in E.
    replace (1 * (ct * ct) + st * st) with 1 in E by lra.
    pose proof (pow2_ge_0 (sa * sd - ca * cd * ct)).
    pose proof (pow2_ge_0 (ca * st)).
    lra. }
  assert (0 <= (sa * cd + ca * sd * ct) ^ 2) by apply pow2_ge_0.
  split; nra.
Qed.

Lemma r_earth_pos : 0 < r_earth.
Proof. unfold r_earth. lra. Qed.

Lemma speed_meridional (v : R) : sqrt (0 ^ 2 + v ^ 2) = Rabs v.
Proof.
  replace (0 ^ 2 + v ^ 2) with (Rsqr v) by (unfold Rsqr; ring).
  apply sqrt_Rsqr_abs.
Qed.

Lemma speed_zonal (u : R) : sqrt (u ^ 2 + 0 ^ 2) = Rabs u.
Proof.
  replace (u ^ 2 + 0 ^ 2) with (Rsqr u) by (unfold Rsqr; ring).
  apply sqrt_Rsqr_abs.
Qed.

(** The bearing [theta] of line 690 for the four winds along the axes,
    and for no wind. *)
Lemma bearing_northward (v : R) :
  0 < v -> modulo (arctan2 v 0) (2 * pi) - pi / 2 = 0.
Proof.
  intros H. pose proof PI_RGT_0. unfold pi.
  rewrite arctan2_up by exact H.
  rewrite modulo_inside by lra. lra.
Qed.

Lemma bearing_southward (v : R) :
  v < 0 -> modulo (arctan2 v 0) (2 * pi) - pi / 2 = PI.
Proof.
  intros H. pose proof PI_RGT_0. unfold pi.
  rewrite arctan2_down by exact H.
  rewrite modulo_below by lra. lra.
Qed.

Lemma bearing_eastward (u : R) :
  0 <= u -> modulo (arctan2 0 u) (2 * pi) - pi / 2 = - (PI / 2).
Proof.
  intros H. pose proof PI_RGT_0. unfold pi.
  rewrite arctan2_flat by exact H.
  rewrite modulo_inside by lra. lra.
Qed.

Lemma bearing_westward (u : R) :
  u < 0 -> modulo (arctan2 0 u) (2 * pi) - pi / 2 = PI / 2.
Proof.
  intros H. pose proof PI_RGT_0. unfold pi.
  rewrite arctan2_back by exact H.
  rewrite modulo_inside by lra. lra.
Qed.

Lemma to_degrees (x y : R) :
  (x * (2 * pi / 360.0) + y) * (360.0 / (2 * pi))
  = x + y * (360 / (2 * PI)).
Proof.
  pose proof PI_RGT_0. unfold pi.
  replace 360.0 with 360 by lra. field. lra.
Qed.

End GeometryFacts.

Section GreatCircles.

Import Geometry GeometryFacts.
Open Scope R_scope.

(** X20.  The haversine distance is symmetric in its two points, zero
    from a point to itself, never negative and at most half the
    circumference of the earth, for all latitudes and longitudes in
    radians; the square roots it takes are of numbers between 0 and 1. *)
Theorem haver_dist_symmetric_bounded (lat1 lon1 lat2 lon2 : R) :
  calc_haver_dist lat1 lon1 lat2 lon2 = calc_haver_dist lat2 lon2 lat1 lon1
  /\ calc_haver_dist lat1 lon1 lat1 lon1 = 0
  /\ 0 <= calc_haver_dist lat1 lon1 lat2 lon2 <= PI * r_earth
  /\ 0 <= haversine lat1 lon1 lat2 lon2 <= 1.
Proof.
  pose proof r_earth_pos as Hr. pose proof PI_RGT_0 as Hpi.
  unfold calc_haver_dist. cbv zeta.
  split; [rewrite (haversine_sym lat1 lon1 lat2 lon2); reflexivity|].
  split.
  { unfold haversine. cbv zeta.
    replace (lat1 - lat1) with 0 by ring. replace (lon1 - lon1) with 0 by ring.
    replace (0 / 2) with 0 by field. rewrite sin_0.
    replace (0 ^ 2 + cos lat1 * cos lat1 * 0 ^ 2) with 0 by ring.
    rewrite sqrt_0. replace (1.0 - 0) with 1 by lra. rewrite sqrt_1.
    rewrite arctan2_flat by lra. ring. }
  split; [|apply haversine_range].
  pose proof (haversine_range lat1 lon1 lat2 lon2) as [H0 H1].
  set (h := haversine lat1 lon1 lat2 lon2) in *.
  pose proof (arctan2_quadrant (sqrt h) (sqrt (1.0 - h))
                (sqrt_pos _) (sqrt_pos _)) as [A B].
  split; nra.
Qed.

(** X21.  Along a meridian, and along the equator, the haversine distance
    is the radius of the earth times the difference of the angles, up to
    half a turn. *)
Theorem haver_dist_along_axes (lat1 lon1 lat2 lon2 : R) :
  Rabs (lat2 - lat1) <= PI ->
  Rabs (lon2 - lon1) <= PI ->
  calc_haver_dist lat1 lon1 lat2 lon1 = r_earth * Rabs (lat2 - lat1)
  /\ calc_haver_dist 0 lon1 0 lon2 = r_earth * Rabs (lon2 - lon1).
Proof.
  intros Hlat Hlon. pose proof PI_RGT_0 as Hpi.
  assert (forall d, Rabs d <= PI -> - (PI / 2) <= d / 2 <= PI / 2) as Hhalf.
  { intros d Hd. unfold Rabs in Hd. destruct (Rcase_abs d); lra. }
  assert (forall d, Rabs (d / 2) = Rabs d / 2) as Habs.
  { intros d. unfold Rabs.
    destruct (Rcase_abs (d / 2)); destruct (Rcase_abs d); lra. }
  unfold calc_haver_dist. cbv zeta. split.
  - assert (haversine lat1 lon1 lat2 lon1 = sin ((lat2 - lat1) / 2) ^ 2) as E.
    { unfold haversine. cbv zeta.
      replace (lon1 - lon1) with 0 by ring. replace (0 / 2) with 0 by field.
      rewrite sin_0. ring. }
    rewrite E, arc_of_half_angle by (apply Hhalf; exact Hlat).
    rewrite Habs. field.
  - assert (haversine 0 lon1 0 lon2 = sin ((lon2 - lon1) / 2) ^ 2) as E.
    { unfold haversine. cbv zeta.
      replace (0 - 0) with 0 by ring. replace (0 / 2) with 0 by field.
      rewrite sin_0, cos_0. ring. }
    rewrite E, arc_of_half_angle by (apply Hhalf; exact Hlon).
    rewrite Habs. field.
Qed.

Lemma haver_dist_along_axes_witness :
  calc_haver_dist 0 0 1 0 = r_earth * Rabs (1 - 0)
  /\ calc_haver_dist 0 0 0 (-1) = r_earth * Rabs (-1 - 0).
Proof.
  pose proof PI2_1 as H.
  apply (haver_dist_along_axes 0 0 1 (-1)).
  - replace (1 - 0) with 1 by ring. rewrite Rabs_R1. lra.
  - replace (-1 - 0) with (- (1)) by ring. rewrite Rabs_Ropp, Rabs_R1. lra.
Defined.

(** X22.  The angle between two positions is counted from the east,
    anticlockwise: a quarter turn for a second point due north of the
    first, minus a quarter turn for one due south, and along the equator
    zero for a point to the east and half a turn for a point to the
    west. *)
Theorem lat_lon_angle_compass (lat1 lon1 lat2 lon2 : R) :
  (0 < lat2 - lat1 < PI -> calc_lat_lon_angle lat1 lon1 lat2 lon1 = PI / 2)
  /\ (0 < lat1 - lat2 < PI ->
      calc_lat_lon_angle lat1 lon1 lat2 lon1 = - (PI / 2))
  /\ (0 < lon2 - lon1 < PI -> calc_lat_lon_angle 0 lon1 0 lon2 = 0)
  /\ (0 < lon1 - lon2 < PI -> calc_lat_lon_angle 0 lon1 0 lon2 = PI).
Proof.
  pose proof PI_RGT_0 as Hpi.
  unfold calc_lat_lon_angle. cbv zeta.
  assert (cos lat1 * sin lat2 - sin lat1 * cos lat2 * cos (lon1 - lon1)
          = sin (lat2 - lat1)) as Ey.
  { replace (lon1 - lon1) with 0 by ring. rewrite cos_0, sin_minus. ring. }
  assert (sin (lon1 - lon1) * cos lat2 = 0) as Ex.
  { replace (lon1 - lon1) with 0 by ring. rewrite sin_0. ring. }
  assert (cos 0 * sin 0 - sin 0 * cos 0 * cos (lon2 - lon1) = 0) as Fy
    by (rewrite sin_0; ring).
  assert (sin (lon2 - lon1) * cos 0 = sin (lon2 - lon1)) as Fx
    by (rewrite cos_0; ring).
  rewrite Ey, Ex, Fy, Fx.
  split; [|split; [|split]].
  - intros [A B]. apply arctan2_up. apply sin_gt_0; lra.
  - intros [A B]. apply arctan2_down.
    replace (lat2 - lat1) with (- (lat1 - lat2)) by ring.
    rewrite sin_neg. pose proof (sin_gt_0 (lat1 - lat2) A B). lra.
  - intros [A B]. apply arctan2_flat. left. apply sin_gt_0; lra.
  - intros [A B]. apply arctan2_back.
    replace (lon2 - lon1) with (- (lon1 - lon2)) by ring.
    rewrite sin_neg. pose proof (sin_gt_0 (lon1 - lon2) A B). lra.
Qed.

End GreatCircles.

Section TraceBack.

Import Geometry GeometryFacts.
Open Scope R_scope.

(** X23.  [trace_back] raises for a negative time step and for no other.
    The position it returns has a latitude between -90 and 90 degrees and
    a longitude within half a turn of the starting longitude, whatever
    the wind; with a time step of zero it is the starting position. *)
Theorem trace_back_position (lat lon u v dt : R) :
  (dt < 0 -> trace_back lat lon u v dt = inl ExpectingPositiveDt)
  /\ (0 <= dt ->
      exists previous_lat previous_lon,
        trace_back lat lon u v dt = inr (previous_lat, previous_lon)
        /\ -90 <= previous_lat <= 90
        /\ -180 < previous_lon - lon <= 180)
  /\ (-90 <= lat <= 90 -> trace_back lat lon u v 0 = inr (lat, lon)).
Proof.
  pose proof PI_RGT_0 as Hpi. pose proof r_earth_pos as Hr.
  split; [|split].
  - intros H. unfold trace_back.
    destruct (Rlt_dec dt 0.0); [reflexivity|lra].
  - intros H. unfold trace_back.
    destruct (Rlt_dec dt 0.0); [lra|]. cbv zeta.
    eexists. eexists. split; [reflexivity|].
    set (theta := modulo (arctan2 v u) (2 * pi) - pi / 2).
    set (dist := sqrt (u ^ 2 + v ^ 2) * dt).
    set (lat_rad := lat * (2 * pi / 360.0)).
    pose proof (asin_bound (previous_sine lat_rad dist theta)) as [A B].
    set (a := asin (previous_sine lat_rad dist theta)) in *.
    pose proof (arctan2_range
                  (sin theta * sin (dist / r_earth) * cos lat_rad)
                  (cos (dist / r_earth) - sin lat_rad * sin a)) as [C D].
    set (turn := arctan2 _ _) in *.
    rewrite to_degrees.
    assert (0 < 360 / (2 * PI)) as Hk by (apply Rdiv_lt_0_compat; lra).
    assert (PI * (360 / (2 * PI)) = 180) as Ek by (field; lra).
    unfold pi. replace 360.0 with 360 by lra.
    split; split; nra.
  - intros [L0 L1]. unfold trace_back.
    destruct (Rlt_dec 0 0.0); [lra|]. cbv zeta.
    set (theta := modulo (arctan2 v u) (2 * pi) - pi / 2).
    rewrite Rmult_0_r.
    set (lat_rad := lat * (2 * pi / 360.0)).
    assert (- (PI / 2) <= lat_rad <= PI / 2) as Ha.
    { unfold lat_rad, pi. replace 360.0 with 360 by lra.
      replace (lat * (2 * PI / 360)) with (lat * (PI / 180)) by field.
      split; nra. }
    assert (previous_sine lat_rad 0 theta = sin lat_rad) as Es.
    { unfold previous_sine. replace (0 / r_earth) with 0 by (field; lra).
      rewrite sin_0, cos_0. ring. }
    rewrite Es, asin_sin by exact Ha.
    replace (0 / r_earth) with 0 by (field; lra).
    rewrite sin_0, cos_0.
    replace (sin theta * 0 * cos lat_rad) with 0 by ring.
    rewrite arctan2_flat.
    2:{ pose proof (sin2_cos2 lat_rad) as H2. unfold Rsqr in H2.
        pose proof (pow2_ge_0 (cos lat_rad)). nra. }
    f_equal. f_equal.
    + unfold lat_rad, pi. replace 360.0 with 360 by lra. field. lra.
    + unfold pi. replace 360.0 with 360 by lra. field. lra.
Qed.

(** X24.  For a wind along a meridian ([u = 0]) the position returned
    lies on the same meridian, displaced by the angle [v * dt / r_earth]
    towards the side the wind blows to: to the north for a positive [v],
    to the south for a negative one, as long as no pole is crossed. *)
Theorem trace_back_meridional (lat lon v dt : R) :
  0 <= dt ->
  -90 <= lat <= 90 ->
  -90 <= lat + v * dt / r_earth * (360 / (2 * PI)) <= 90 ->
  trace_back lat lon 0 v dt
  = inr (lat + v * dt / r_earth * (360 / (2 * PI)), lon).
Proof.
  intros Hdt [L0 L1] [S0 S1].
  pose proof PI_RGT_0 as Hpi. pose proof r_earth_pos as Hr.
  unfold trace_back. destruct (Rlt_dec dt 0.0); [lra|]. cbv zeta.
  rewrite speed_meridional.
  set (lat_rad := lat * (2 * pi / 360.0)).
  set (d := v * dt / r_earth).
  assert (lat_rad = lat * (PI / 180)) as Ela.
  { unfold lat_rad, pi. replace 360.0 with 360 by lra. field. }
  assert (- (PI / 2) <= lat_rad <= PI / 2) as Ha by (rewrite Ela; split; nra).
  assert (- (PI / 2) <= lat_rad + d <= PI / 2) as Hs.
  { assert (lat_rad + d
            = (lat + v * dt / r_earth * (360 / (2 * PI))) * (PI / 180)) as E
      by (rewrite Ela; unfold d; field; lra).
    rewrite E. split; nra. }
  assert (0 <= cos lat_rad) as Hca by (apply cos_ge_0; lra).
  assert (0 <= cos (lat_rad + d)) as Hcs by (apply cos_ge_0; lra).
  assert (forall theta, cos theta * Rabs v = v ->
     sin theta * sin (Rabs v * dt / r_earth) = 0 ->
     modulo (arctan2 v 0) (2 * pi) - pi / 2 = theta ->
     inr (asin (previous_sine lat_rad (Rabs v * dt)
                  (modulo (arctan2 v 0) (2 * pi) - pi / 2))
            * (360.0 / (2 * pi)),
          (lon * (2 * pi / 360.0)
           + arctan2
               (sin (modulo (arctan2 v 0) (2 * pi) - pi / 2)
                * sin (Rabs v * dt / r_earth) * cos lat_rad)
               (cos (Rabs v * dt / r_earth)
                - sin lat_rad
                  * sin (asin (previous_sine lat_rad (Rabs v * dt)
                           (modulo (arctan2 v 0) (2 * pi) - pi / 2)))))
          * (360.0 / (2 * pi)))
     = (inr (lat + d * (360 / (2 * PI)), lon) : trace_error + R * R)) as Hgen.
  { intros theta Hc Hsn ->.
    set (e := Rabs v * dt / r_earth).
    assert (cos e = cos d /\ cos theta * sin e = sin d) as [Ece Ese].
    { unfold e, d, Rabs in *. destruct (Rcase_abs v).
      - assert (cos theta = -1) as E1 by nra.
        replace (- v * dt / r_earth) with (- (v * dt / r_earth))
          by (field; lra).
        rewrite cos_neg, sin_neg, E1. split; [reflexivity|ring].
      - destruct (Req_dec v 0) as [->|Hv0].
        + replace (0 * dt / r_earth) with 0 by (field; lra).
          rewrite sin_0. split; [reflexivity|ring].
        + assert (cos theta = 1) as E1 by nra.
          rewrite E1. split; [reflexivity|ring]. }
    assert (previous_sine lat_rad (Rabs v * dt) theta = sin (lat_rad + d))
      as Eps.
    { unfold previous_sine. fold e. rewrite sin_plus, Ece, <- Ese. ring. }
    rewrite Eps, asin_sin by exact Hs.
    fold e in Hsn. rewrite Hsn, Ece, Rmult_0_l.
    rewrite arctan2_flat.
    2:{ replace (cos d) with (cos ((lat_rad + d) - lat_rad))
          by (f_equal; ring).
        rewrite cos_minus.
        assert (0 <= cos (lat_rad + d) * cos lat_rad)
          by (apply Rmult_le_pos; assumption).
        lra. }
    f_equal. f_equal.
    - fold lat_rad. apply to_degrees.
    - unfold pi. replace 360.0 with 360 by lra. field. lra. }
  destruct (Rlt_dec 0 v) as [Hp|Hp].
  - apply (Hgen 0).
    + rewrite cos_0, Rabs_right by lra. ring.
    + rewrite sin_0. ring.
    + apply bearing_northward. exact Hp.
  - destruct (Rlt_dec v 0) as [Hm|Hm].
    + apply (Hgen PI).
      * rewrite cos_PI, Rabs_left by lra. ring.
      * rewrite sin_PI. ring.
      * apply bearing_southward. exact Hm.
    + assert (v = 0) as -> by lra.
      apply (Hgen (- (PI / 2))).
      * rewrite Rabs_R0. ring.
      * rewrite Rabs_R0.
        replace (0 * dt / r_earth) with 0 by (field; lra).
        rewrite sin_0. ring.
      * apply bearing_eastward. lra.
Qed.

Lemma trace_back_meridional_witness :
  trace_back 0 0 0 1 1 = inr (0 + 1 * 1 / r_earth * (360 / (2 * PI)), 0).
Proof.
  pose proof PI2_1 as Hpi. pose proof r_earth_pos as Hr.
  assert (0 < 360 / (2 * PI) < 90) as [K0 K1].
  { split; [apply Rdiv_lt_0_compat; lra|].
    apply Rmult_lt_reg_r with (2 * PI); [lra|].
    replace (360 / (2 * PI) * (2 * PI)) with 360 by (field; lra). lra. }
  assert (0 < 1 * 1 / r_earth < 1) as [R0 R1].
  { replace (1 * 1 / r_earth) with (/ r_earth) by (field; lra).
    split; [apply Rinv_0_lt_compat; exact Hr|].
    rewrite <- Rinv_1. apply Rinv_lt_contravar; unfold r_earth in *; lra. }
  apply (trace_back_meridional 0 0 1 1); [lra|lra|].
  split; nra.
Defined.

(** X25.  For a wind along the equator ([v = 0] at latitude 0) the
    position returned lies on the equator, displaced by the angle
    [u * dt / r_earth] against the wind: to the west for a positive [u],
    to the east for a negative one, for a displacement below a quarter
    turn. *)
Theorem trace_back_zonal_equator (lon u dt : R) :
  0 <= dt ->
  Rabs u * dt / r_earth < PI / 2 ->
  trace_back 0 lon u 0 dt
  = inr (0, lon - u * dt / r_earth * (360 / (2 * PI))).
Proof.
  intros Hdt Hq.
  pose proof PI_RGT_0 as Hpi. pose proof r_earth_pos as Hr.
  unfold trace_back. destruct (Rlt_dec dt 0.0); [lra|]. cbv zeta.
  rewrite speed_zonal.
  replace (0 * (2 * pi / 360.0)) with 0 by ring.
  set (e := Rabs u * dt / r_earth) in *.
  set (d := u * dt / r_earth).
  assert (0 <= e) as He.
  { unfold e. apply Rmult_le_pos; [|left; apply Rinv_0_lt_compat; exact Hr].
    apply Rmult_le_pos; [apply Rabs_pos|exact Hdt]. }
  assert (forall theta, cos theta = 0 -> sin theta * Rabs u = - u ->
     modulo (arctan2 0 u) (2 * pi) - pi / 2 = theta ->
     inr (asin (previous_sine 0 (Rabs u * dt)
                  (modulo (arctan2 0 u) (2 * pi) - pi / 2))
            * (360.0 / (2 * pi)),
          (lon * (2 * pi / 360.0)
           + arctan2
               (sin (modulo (arctan2 0 u) (2 * pi) - pi / 2)
                * sin e * cos 0)
               (cos e
                - sin 0
                  * sin (asin (previous_sine 0 (Rabs u * dt)
                           (modulo (arctan2 0 u) (2 * pi) - pi / 2)))))
          * (360.0 / (2 * pi)))
     = (inr (0, lon - d * (360 / (2 * PI))) : trace_error + R * R)) as Hgen.
  { intros theta Hc Hsn ->.
    assert (previous_sine 0 (Rabs u * dt) theta = 0) as Eps.
    { unfold previous_sine. rewrite sin_0, Hc. ring. }
    rewrite Eps, asin_0, sin_0, cos_0.
    assert (sin theta * sin e * 1 = sin (- d) /\ cos e - 0 * 0 = cos (- d))
      as [Ey Ex].
    { unfold e, d, Rabs in *. destruct (Rcase_abs u).
      - assert (sin theta = 1) as E1 by nra.
        replace (- (u * dt / r_earth)) with (- u * dt / r_earth)
          by (field; lra).
        rewrite E1. split; ring.
      - destruct (Req_dec u 0) as [->|Hu0].
        + replace (0 * dt / r_earth) with 0 by (field; lra).
          rewrite Ropp_0, sin_0. split; ring.
        + assert (sin theta = -1) as E1 by nra.
          rewrite sin_neg, cos_neg, E1. split; ring. }
    rewrite Ey, Ex, arctan2_sin_cos.
    2:{ unfold e, d, Rabs in *. destruct (Rcase_abs u).
        - replace (- (u * dt / r_earth)) with (- u * dt / r_earth)
            by (field; lra).
          lra.
        - lra. }
    f_equal. f_equal.
    - ring.
    - unfold pi. replace 360.0 with 360 by lra. field. lra. }
  destruct (Rlt_dec u 0) as [Hm|Hm].
  - apply (Hgen (PI / 2)).
    + apply cos_PI2.
    + rewrite sin_PI2, Rabs_left by lra. ring.
    + apply bearing_westward. exact Hm.
  - apply (Hgen (- (PI / 2))).
    + rewrite cos_neg. apply cos_PI2.
    + rewrite sin_neg, sin_PI2, Rabs_right by lra. ring.
    + apply bearing_eastward. lra.
Qed.

Lemma trace_back_zonal_equator_witness :
  trace_back 0 0 1 0 1 = inr (0, 0 - 1 * 1 / r_earth * (360 / (2 * PI))).
Proof.
  pose proof PI2_1 as Hpi. pose proof r_earth_pos as Hr.
  apply (trace_back_zonal_equator 0 1 1); [lra|].
  rewrite Rabs_R1.
  assert (1 * 1 / r_earth < 1); [|lra].
  replace (1 * 1 / r_earth) with (/ r_earth) by (field; lra).
  rewrite <- Rinv_1. apply Rinv_lt_contravar; unfold r_earth in *; lra.
Defined.

End TraceBack.

(** ** [era5_mask] *)

Section OceanMask.

Import Mask.
Open Scope Q_scope.

Lemma nth_error_zip {A B C : Type} (f : A -> B -> C) (a : list A)
  (b : list B) (n : nat) (x : A) (y : B) :
  nth_error a n = Some x -> nth_error b n = Some y ->
  nth_error (map (fun xy => f (fst xy) (snd xy)) (combine a b)) n
  = Some (f x y).
Proof.
  revert b n. induction a as [|a0 a IH]; intros [|b0 b] [|n] Ha Hb;
    try discriminate; cbn in *.
  - injection Ha as <-. injection Hb as <-. reflexivity.
  - apply IH; assumption.
Qed.

(** X26.  [era5_mask] knows one option: with ["mask"] set to anything but
    ["ocean"] it raises [UnboundLocalError].  With ["ocean"] the mask
    holds, at every time and horizontal point of ["z"] and ["lsm"],
    whether the geopotential is below [5 * rg] and the land fraction
    below 0.2.  At a point of surface height [z / rg] the near-surface
    ocean mask of [era5_on_height_levels] is this ocean mask without the
    points at or below 1e-6 m. *)
Theorem era5_mask_options (ds : Era5.dataset)
  (dictionary : list (string * string)) (choice : string) :
  Era5.lookup "mask"%string dictionary = Ok choice ->
  (choice <> "ocean"%string -> era5_mask ds dictionary = Raise UnboundLocalError)
  /\ (choice = "ocean"%string ->
      forall z lsm,
        Era5.lookup "z"%string (Era5.no_level ds) = Ok z ->
        Era5.lookup "lsm"%string (Era5.no_level ds) = Ok lsm ->
        exists mask, era5_mask ds dictionary = Ok mask
          /\ forall n j i z_t z_row z_point lsm_t lsm_row lsm_point,
               nth_error z n = Some z_t -> nth_error z_t j = Some z_row ->
               nth_error z_row i = Some z_point ->
               nth_error lsm n = Some lsm_t ->
               nth_error lsm_t j = Some lsm_row ->
               nth_error lsm_row i = Some lsm_point ->
               exists mask_t mask_row,
                 nth_error mask n = Some mask_t
                 /\ nth_error mask_t j = Some mask_row
                 /\ nth_error mask_row i = Some (ocean z_point lsm_point))
  /\ (forall z lsm : Q,
        Era5.sea_mask (z / rg) lsm
        = ocean z lsm && Steffen.Qltb 1.0e-6 (z / rg)).
Proof.
  intros Hc. unfold era5_mask. rewrite Hc. cbn [bind].
  split; [|split].
  - intros Hn. apply String.eqb_neq in Hn. rewrite Hn. reflexivity.
  - intros -> z lsm Hz Hl. rewrite Hz, Hl. cbn.
    eexists. split; [reflexivity|].
    intros n j i z_t z_row z_point lsm_t lsm_row lsm_point
      Hz1 Hz2 Hz3 Hl1 Hl2 Hl3.
    exists (Era5.map2 ocean z_t lsm_t).
    exists (map (fun xy => ocean (fst xy) (snd xy)) (combine z_row lsm_row)).
    split; [|split].
    + apply (nth_error_zip (Era5.map2 ocean)); assumption.
    + unfold Era5.map2.
      apply (nth_error_zip
               (fun r1 r2 => map (fun xy => ocean (fst xy) (snd xy))
                               (combine r1 r2))); assumption.
    + apply (nth_error_zip ocean); assumption.
  - intros z lsm. unfold Era5.sea_mask, ocean.
    assert (Steffen.Qltb (z / rg) 5.0 = Steffen.Qltb z (5.0 * rg)) as E.
    { assert (0 < rg) as Hr by reflexivity.
      assert (z / rg * rg == z) as Ez by (field; lra).
      destruct (SteffenFacts.Qltb_spec (z / rg) 5.0) as [A|A];
        destruct (SteffenFacts.Qltb_spec z (5.0 * rg)) as [B|B];
        try reflexivity; exfalso.
      - apply B. rewrite <- Ez. apply Qmult_lt_compat_r; assumption.
      - apply A. apply Qlt_shift_div_r; assumption. }
    rewrite E.
    destruct (Steffen.Qltb z (5.0 * rg)), (Steffen.Qltb 1.0e-6 (z / rg)),
      (Steffen.Qltb lsm 0.2); reflexivity.
Qed.

Lemma era5_mask_options_witness :
  (("ocean" : string) <> "ocean"%string ->
   era5_mask (Era5.mkDataset [] [("z"%string, [[[20; 60]]]); ("lsm"%string, [[[0; 0]]])]) [("mask"%string, "ocean"%string)] = Raise UnboundLocalError)
  /\ (("ocean" : string) = "ocean"%string ->
      forall z lsm,
        Era5.lookup "z"%string (Era5.no_level (Era5.mkDataset [] [("z"%string, [[[20; 60]]]); ("lsm"%string, [[[0; 0]]])])) = Ok z ->
        Era5.lookup "lsm"%string (Era5.no_level (Era5.mkDataset [] [("z"%string, [[[20; 60]]]); ("lsm"%string, [[[0; 0]]])])) = Ok lsm ->
        exists mask, era5_mask (Era5.mkDataset [] [("z"%string, [[[20; 60]]]); ("lsm"%string, [[[0; 0]]])]) [("mask"%string, "ocean"%string)] = Ok mask
          /\ forall n j i z_t z_row z_point lsm_t lsm_row lsm_point,
               nth_error z n = Some z_t -> nth_error z_t j = Some z_row ->
               nth_error z_row i = Some z_point ->
               nth_error lsm n = Some lsm_t ->
               nth_error lsm_t j = Some lsm_row ->
               nth_error lsm_row i = Some lsm_point ->
               exists mask_t mask_row,
                 nth_error mask n = Some mask_t
                 /\ nth_error mask_t j = Some mask_row
                 /\ nth_error mask_row i = Some (ocean z_point lsm_point))
  /\ (forall z lsm : Q,
        Era5.sea_mask (z / rg) lsm
        = ocean z lsm && Steffen.Qltb 1.0e-6 (z / rg)).
Proof.
  apply (era5_mask_options (Era5.mkDataset [] [("z"%string, [[[20; 60]]]); ("lsm"%string, [[[0; 0]]])]) [("mask"%string, "ocean"%string)] "ocean"%string).
  reflexivity.
Defined.

(** A run: of two ocean points the one with a geopotential of 60 is too
    high, the one with 20 is in the mask. *)
Example era5_mask_run :
  era5_mask (Era5.mkDataset [] [("z"%string, [[[20; 60]]]); ("lsm"%string, [[[0; 0]]])]) [("mask"%string, "ocean"%string)] = Ok [[[true; false]]].
Proof. reflexivity. Qed.

End OceanMask.

(** ** [add_auxiliary_variable], [add_auxiliary_variables] *)

Module AuxiliaryFacts.

Import Auxiliary.
Open Scope R_scope.

Lemma p_ref_pos : 0 < p_ref.
Proof. unfold p_ref. lra. Qed.

Lemma rd_over_cp_pos : 0 < rd_over_cp.
Proof.
  unfold rd_over_cp, Hydrostatic.rd, cp. apply Rdiv_lt_0_compat; lra.
Qed.

Lemma relative_pressure (p : R) : p * p_ref_inv = p / p_ref.
Proof.
  pose proof p_ref_pos. unfold p_ref_inv.
  replace 1.0 with 1 by lra. field. lra.
Qed.

Lemma Rpower_one (y : R) : Rpower 1 y = 1.
Proof. unfold Rpower. rewrite ln_1, Rmult_0_r. apply exp_0. Qed.

Lemma Rpower_below_one (x y : R) : 0 < x < 1 -> 0 < y -> Rpower x y < 1.
Proof.
  intros [H0 H1] Hy. unfold Rpower. rewrite <- exp_0.
  apply exp_increasing.
  pose proof (ln_increasing x 1 H0 H1) as H. rewrite ln_1 in H. nra.
Qed.

Lemma Rpower_above_one (x y : R) : 1 < x -> 0 < y -> 1 < Rpower x y.
Proof.
  intros H1 Hy. unfold Rpower. rewrite <- exp_0.
  apply exp_increasing.
  pose proof (ln_increasing 1 x ltac:(lra) H1) as H. rewrite ln_1 in H. nra.
Qed.

Lemma lookup_assign_other (name n : string) (v : array4 cell) (ds : dataset) :
  n <> name -> Era5.lookup n (assign name v ds) = Era5.lookup n ds.
Proof.
  intros Hn. induction ds as [|[m w] ds IH]; cbn.
  - apply String.eqb_neq in Hn. rewrite String.eqb_sym, Hn. reflexivity.
  - destruct (String.eqb m name) eqn:E; cbn.
    + apply String.eqb_eq in E. subst m.
      apply String.eqb_neq in Hn. rewrite String.eqb_sym, Hn.
      reflexivity.
    + destruct (String.eqb m n); [reflexivity|exact IH].
Qed.

Lemma lookup_assign_same (name : string) (v : array4 cell) (ds : dataset) :
  Era5.lookup name (assign name v ds) = Ok v.
Proof.
  induction ds as [|[m w] ds IH]; cbn.
  - rewrite String.eqb_refl. reflexivity.
  - destruct (String.eqb m name) eqn:E; cbn; rewrite E; [reflexivity|exact IH].
Qed.

Lemma assign_twice (name : string) (v w : array4 cell) (ds : dataset) :
  assign name v (assign name w ds) = assign name v ds.
Proof.
  induction ds as [|[m u] ds IH]; cbn.
  - rewrite String.eqb_refl. reflexivity.
  - destruct (String.eqb m name) eqn:E; cbn; rewrite E; [reflexivity|].
    rewrite IH. reflexivity.
Qed.

Lemma add_theta (ds : dataset) (t p_f : array4 cell) :
  Era5.lookup "t"%string ds = Ok t ->
  Era5.lookup "p_f"%string ds = Ok p_f ->
  add_auxiliary_variable ds "theta"
  = (assign "theta" (map4 theta t p_f) ds, None).
Proof.
  intros Ht Hp. unfold add_auxiliary_variable.
  change (String.eqb "theta" "theta") with true. cbv iota.
  rewrite Ht, Hp. reflexivity.
Qed.

Lemma add_theta_again (ds : dataset) (t p_f : array4 cell) :
  Era5.lookup "t"%string ds = Ok t ->
  Era5.lookup "p_f"%string ds = Ok p_f ->
  add_auxiliary_variable (assign "theta" (map4 theta t p_f) ds) "theta"
  = (assign "theta" (map4 theta t p_f) ds, None).
Proof.
  intros Ht Hp.
  rewrite (add_theta _ t p_f).
  - rewrite assign_twice. reflexivity.
  - rewrite lookup_assign_other by discriminate. exact Ht.
  - rewrite lookup_assign_other by discriminate. exact Hp.
Qed.

End AuxiliaryFacts.

Section AuxiliaryVariables.

Import Auxiliary AuxiliaryFacts.
Open Scope R_scope.

(** X27.  At a positive pressure the variable ["theta"] is a number: it
    equals the temperature where the pressure is the reference pressure
    of 1e5 Pa, and for a positive temperature it is below the temperature
    where the pressure is below the reference and above it where the
    pressure is above. *)
Theorem theta_against_reference (t p_f : R) :
  0 < p_f ->
  exists th, theta (Some t) (Some p_f) = Some th
    /\ (p_f = p_ref -> th = t)
    /\ (0 < t -> p_f < p_ref -> th < t)
    /\ (0 < t -> p_ref < p_f -> t < th).
Proof.
  intros Hp. pose proof p_ref_pos as Hr. pose proof rd_over_cp_pos as Hk.
  unfold theta, power. rewrite relative_pressure.
  assert (0 < p_f / p_ref) as Hq by (apply Rdiv_lt_0_compat; lra).
  destruct (Rlt_dec 0 (p_f / p_ref)); [|lra].
  eexists. split; [reflexivity|].
  split; [|split].
  - intros ->. replace (p_ref / p_ref) with 1 by (field; lra).
    rewrite Rpower_one. ring.
  - intros Ht Hlt.
    assert (p_f / p_ref < 1) as H1.
    { apply Rmult_lt_reg_r with p_ref; [lra|].
      replace (p_f / p_ref * p_ref) with p_f by (field; lra). lra. }
    pose proof (Rpower_below_one (p_f / p_ref) rd_over_cp (conj Hq H1) Hk).
    nra.
  - intros Ht Hlt.
    assert (1 < p_f / p_ref) as H1.
    { apply Rmult_lt_reg_r with p_ref; [lra|].
      replace (p_f / p_ref * p_ref) with p_f by (field; lra). lra. }
    pose proof (Rpower_above_one (p_f / p_ref) rd_over_cp H1 Hk).
    nra.
Qed.

Lemma theta_against_reference_witness :
  exists th, theta (Some 300) (Some 50000) = Some th
    /\ (50000 = p_ref -> th = 300)
    /\ (0 < 300 -> 50000 < p_ref -> th < 300)
    /\ (0 < 300 -> p_ref < 50000 -> 300 < th).
Proof. apply (theta_against_reference 300 50000). lra. Defined.

(** X28.  On a dataset that has ["t"] and ["p_f"],
    [add_auxiliary_variables] with a list of names adds ["theta"] once,
    however often the list names it, and leaves the other variables as
    they were.  At the first name that is not ["theta"] it raises
    [NotImplementedError]; the dataset is then unchanged if that name
    came first, and has ["theta"] added if ["theta"] came before it. *)
Theorem auxiliary_variables_stop_at_unknown (ds : dataset)
  (t p_f : array4 cell) (known : list string) (unknown : string)
  (rest : list string) :
  Era5.lookup "t"%string ds = Ok t ->
  Era5.lookup "p_f"%string ds = Ok p_f ->
  Forall (eq "theta"%string) known ->
  unknown <> "theta"%string ->
  let after :=
    match known with
    | [] => ds
    | _ :: _ => assign "theta" (map4 theta t p_f) ds
    end in
  add_auxiliary_variables ds known = (after, None)
  /\ add_auxiliary_variables ds (known ++ unknown :: rest)
     = (after, Some NotImplementedError)
  /\ (forall name, name <> "theta"%string ->
        Era5.lookup name after = Era5.lookup name ds)
  /\ (known <> [] ->
        Era5.lookup "theta"%string after = Ok (map4 theta t p_f)).
Proof.
  intros Ht Hp Hknown Hunknown after.
  assert (forall ds', add_auxiliary_variables ds' (unknown :: rest)
                      = (ds', Some NotImplementedError)) as Hstop.
  { intros ds'. cbn [add_auxiliary_variables]. unfold add_auxiliary_variable.
    apply String.eqb_neq in Hunknown. rewrite Hunknown. reflexivity. }
  set (ds1 := assign "theta" (map4 theta t p_f) ds) in *.
  assert (forall l tail, Forall (eq "theta"%string) l ->
            add_auxiliary_variables ds1 (l ++ tail)
            = add_auxiliary_variables ds1 tail) as Hagain.
  { intros l tail Hl. induction Hl as [|x l <- _ IH]; [reflexivity|].
    cbn [app add_auxiliary_variables].
    unfold ds1 at 1. rewrite (add_theta_again ds t p_f Ht Hp). exact IH. }
  destruct Hknown as [|x l <- Hl].
  - subst after. cbn [app]. split; [reflexivity|].
    split; [apply Hstop|]. split; [reflexivity|].
    intros H. contradiction H. reflexivity.
  - subst after. fold ds1.
    split; [|split; [|split]].
    + cbn [add_auxiliary_variables]. rewrite (add_theta ds t p_f Ht Hp).
      fold ds1. rewrite <- (app_nil_r l), Hagain by exact Hl. reflexivity.
    + cbn [app add_auxiliary_variables]. rewrite (add_theta ds t p_f Ht Hp).
      fold ds1. rewrite Hagain by exact Hl. apply Hstop.
    + intros name Hn. apply lookup_assign_other. exact Hn.
    + intros _. apply lookup_assign_same.
Qed.

Lemma auxiliary_variables_stop_at_unknown_witness :
  add_auxiliary_variables
    [("t"%string, [[[[Some 300]]]]); ("p_f"%string, [[[[Some 50000]]]])]
    ["theta"%string; "theta"%string]
  = ((assign "theta" (map4 theta [[[[Some 300]]]] [[[[Some 50000]]]])
       [("t"%string, [[[[Some 300]]]]); ("p_f"%string, [[[[Some 50000]]]])]), None)
  /\ add_auxiliary_variables
       [("t"%string, [[[[Some 300]]]]); ("p_f"%string, [[[[Some 50000]]]])]
       (["theta"%string; "theta"%string] ++ "q_t"%string :: ["theta"%string])
     = ((assign "theta" (map4 theta [[[[Some 300]]]] [[[[Some 50000]]]])
       [("t"%string, [[[[Some 300]]]]); ("p_f"%string, [[[[Some 50000]]]])]), Some NotImplementedError)
  /\ (forall name, name <> "theta"%string ->
        Era5.lookup name (assign "theta" (map4 theta [[[[Some 300]]]] [[[[Some 50000]]]])
       [("t"%string, [[[[Some 300]]]]); ("p_f"%string, [[[[Some 50000]]]])])
        = Era5.lookup name
            [("t"%string, [[[[Some 300]]]]); ("p_f"%string, [[[[Some 50000]]]])])
  /\ (["theta"%string; "theta"%string] <> [] ->
        Era5.lookup "theta"%string (assign "theta" (map4 theta [[[[Some 300]]]] [[[[Some 50000]]]])
       [("t"%string, [[[[Some 300]]]]); ("p_f"%string, [[[[Some 50000]]]])])
        = Ok (map4 theta [[[[Some 300]]]] [[[[Some 50000]]]])).
Proof.
  apply (auxiliary_variables_stop_at_unknown
           [("t"%string, [[[[Some 300]]]]); ("p_f"%string, [[[[Some 50000]]]])]
           [[[[Some 300]]]] [[[[Some 50000]]]]
           ["theta"%string; "theta"%string] "q_t"%string ["theta"%string]).
  - reflexivity.
  - reflexivity.
  - repeat constructor.
  - discriminate.
Defined.

End AuxiliaryVariables.
